(** * xdf-tagger: the chunk-stream engine of [main.py]

    A shallow embedding of the binary core of the XDF metadata tagger:
    the variable-length integer codec, the chunk frame writer, the
    forward scanner for boundary chunks, the metadata locator and the
    splice performed by [process_file].

    Python integers are [Z]; [bytes] objects are [list byte]; an open
    binary file object is a cursor over the bytes of the file; the
    statements of the program run in a state-and-exception monad over a
    [world] that holds the file system, the two open handles, the log and
    the values that [random.randint] is going to return. *)

From Stdlib Require Import ZArith Lia Bool String Ascii.
From Stdlib Require Import Init.Byte Strings.Byte.
From Stdlib Require Import DecimalString.
From stdpp Require Import base option list gmap strings.

Local Open Scope Z_scope.

(** ** Bytes and [struct] *)

#[global] Instance byte_eq_decision : EqDecision byte := Byte.byte_eq_dec.

Definition byte_to_Z (b : byte) : Z := Z.of_N (Byte.to_N b).

Definition byte_of_Z (z : Z) : byte :=
  match Byte.of_N (Z.to_N (z mod 256)) with
  | Some b => b
  | None => x00
  end.

(** Little-endian value of a byte string. *)
Fixpoint le_to_Z (bs : list byte) : Z :=
  match bs with
  | [] => 0
  | b :: bs' => byte_to_Z b + 256 * le_to_Z bs'
  end.

(** The [n] low-order bytes of [v], least significant first. *)
Fixpoint Z_to_le (n : nat) (v : Z) : list byte :=
  match n with
  | O => []
  | S n' => byte_of_Z v :: Z_to_le n' (v / 256)
  end.

(** [struct.pack] of one unsigned field of [n] bytes ('B', '<H', '<L',
    '<Q' for [n] = 1, 2, 4, 8): [None] stands for [struct.error], raised
    when the value is out of the field's range. *)
Definition pack_uint (n : nat) (v : Z) : option (list byte) :=
  if (0 <=? v) && (v <? 2 ^ (8 * Z.of_nat n)) then Some (Z_to_le n v) else None.

(** [struct.unpack] of one unsigned field of [n] bytes: [None] stands for
    [struct.error], raised when the buffer is not exactly [n] bytes. *)
Definition unpack_uint (n : nat) (bs : list byte) : option Z :=
  if decide (length bs = n) then Some (le_to_Z bs) else None.

(** [sub] is an initial segment of [s]. *)
Fixpoint starts_with (sub s : list byte) : bool :=
  match sub, s with
  | [], _ => true
  | _ :: _, [] => false
  | a :: sub', b :: s' => if decide (a = b) then starts_with sub' s' else false
  end.

(** [bytes.find]: the lowest index at which [sub] occurs in [s], counted
    from [i] at the head of [s]; -1 when there is none. *)
Fixpoint find_from (i : Z) (sub s : list byte) : Z :=
  if starts_with sub s then i
  else match s with
       | [] => -1
       | _ :: s' => find_from (i + 1) sub s'
       end.

Definition bytes_find (s sub : list byte) : Z := find_from 0 sub s.

(** ** Exceptions, log records, file objects *)

Inductive exn : Set :=
| StructError        (* struct.error *)
| RuntimeError       (* 'invalid variable-length integer encountered.' *)
| InvalidContainer   (* Exception('not a valid XDF file: ...') *)
| ValueError         (* read length must be non-negative or -1; I/O on a closed file *)
| OSError            (* seek to a negative offset *)
| DocumentError      (* raised while parsing or indexing the XML document *)
| TypeError
| AttributeError
| AssertionError
| FileExistsError
| FileNotFoundError.

#[global] Instance exn_eq_decision : EqDecision exn.
Proof. solve_decision. Defined.

Inductive level : Set := DEBUG | INFO | WARNING.

Inductive message : Set :=
| Msg_processing (inpath : string)
| Msg_zero_length_chunk
| Msg_scan_found
| Msg_scan_eof
| Msg_reached_eof
| Msg_read_tag (tag pos chunklen : Z)
| Msg_found_stream
| Msg_more_than_one (filepath : string).

Definition log_record : Set := level * message.

(** A file opened with mode 'rb': the bytes of the file and the cursor. *)
Record reader := Reader { r_data : list byte; r_pos : nat }.

(** A file opened with mode 'wb': its path and whether it was closed. What
    is written goes to the file of that path. *)
Record writer := Writer { wr_path : string; wr_closed : bool }.

Record world := World {
  w_fs  : gmap string (list byte);   (* the files, by path *)
  w_inf : reader;                    (* the handle that is read from *)
  w_outf : option writer;            (* the handle that is written to; None as in Python *)
  w_log : list log_record;           (* records emitted so far, oldest first *)
  w_rng : list Z                     (* what random.randint will return, in order *)
}.

Definition set_inf (r : reader) (w : world) : world :=
  World (w_fs w) r (w_outf w) (w_log w) (w_rng w).
Definition set_outf (o : option writer) (w : world) : world :=
  World (w_fs w) (w_inf w) o (w_log w) (w_rng w).
Definition set_fs (fs : gmap string (list byte)) (w : world) : world :=
  World fs (w_inf w) (w_outf w) (w_log w) (w_rng w).
Definition set_log (l : list log_record) (w : world) : world :=
  World (w_fs w) (w_inf w) (w_outf w) l (w_rng w).
Definition set_rng (g : list Z) (w : world) : world :=
  World (w_fs w) (w_inf w) (w_outf w) (w_log w) g.

(** ** The monad of statements *)

Inductive result (A : Type) : Type :=
| Ret (a : A)
| Raise (e : exn)
| OutOfFuel      (* a loop of the model used up its fuel *)
| OutOfDraws.    (* the retry loop on random.randint used up [w_rng] *)
Arguments Ret {A} a.
Arguments Raise {A} e.
Arguments OutOfFuel {A}.
Arguments OutOfDraws {A}.

Definition M (A : Type) : Type := world -> result A * world.

Definition ret {A} (a : A) : M A := fun w => (Ret a, w).
Definition raise {A} (e : exn) : M A := fun w => (Raise e, w).
Definition out_of_fuel {A} : M A := fun w => (OutOfFuel, w).

Definition bind {A B} (m : M A) (k : A -> M B) : M B :=
  fun w =>
    match m w with
    | (Ret a, w') => k a w'
    | (Raise e, w') => (Raise e, w')
    | (OutOfFuel, w') => (OutOfFuel, w')
    | (OutOfDraws, w') => (OutOfDraws, w')
    end.

Notation "x <- m ;; k" := (bind m (fun x => k))
  (at level 100, m at next level, right associativity).
Notation "m ;;; k" := (bind m (fun _ => k))
  (at level 100, right associativity).

(** [try: m except Exception: h]. *)
Definition try_except {A} (m : M A) (h : M A) : M A :=
  fun w =>
    match m w with
    | (Raise _, w') => h w'
    | r => r
    end.

(** [try: m finally: f]. *)
Definition try_finally {A} (m : M A) (f : M unit) : M A :=
  fun w =>
    match m w with
    | (r, w') =>
        match f w' with
        | (Ret _, w'') => (r, w'')
        | (Raise e, w'') => (Raise e, w'')
        | (OutOfFuel, w'') => (OutOfFuel, w'')
        | (OutOfDraws, w'') => (OutOfDraws, w'')
        end
    end.

Definition get_world : M world := fun w => (Ret w, w).
Definition emit (l : level) (m : message) : M unit :=
  fun w => (Ret tt, set_log (w_log w ++ [(l, m)]) w).

Definition lift_struct {A} (o : option A) : M A :=
  match o with Some a => ret a | None => raise StructError end.

(** *** Operations of the reading handle *)

Definition tell : M Z := fun w => (Ret (Z.of_nat (r_pos (w_inf w))), w).

Definition seek (p : Z) : M unit :=
  fun w =>
    if p <? 0 then (Raise OSError, w)
    else (Ret tt, set_inf (Reader (r_data (w_inf w)) (Z.to_nat p)) w).

(** [fh.read(n)] of a buffered reader: up to [n] bytes from the cursor,
    everything up to the end for [n = -1], [ValueError] below that. *)
Definition read (n : Z) : M (list byte) :=
  fun w =>
    let r := w_inf w in
    let rest := drop (r_pos r) (r_data r) in
    if n <? -1 then (Raise ValueError, w)
    else
      let block := if n =? -1 then rest else take (Z.to_nat n) rest in
      (Ret block, set_inf (Reader (r_data r) (r_pos r + length block)) w).

(** *** Operations of the writing handle *)

Definition write (bs : list byte) : M unit :=
  fun w =>
    match w_outf w with
    | None => (Raise AttributeError, w)
    | Some o =>
        if wr_closed o then (Raise ValueError, w)
        else (Ret tt, set_fs (<[wr_path o := default [] (w_fs w !! wr_path o) ++ bs]> (w_fs w)) w)
    end.

Definition close_outf : M unit :=
  fun w =>
    match w_outf w with
    | None => (Raise AttributeError, w)
    | Some o => (Ret tt, set_outf (Some (Writer (wr_path o) true)) w)
    end.

(** ** XDF chunk tags that the tool cares about *)

Module ChunkTags.
Definition STREAM_HEADER_TAG : Z := 2.
Definition SAMPLES_TAG : Z := 3.
Definition STREAM_FOOTER_TAG : Z := 6.
End ChunkTags.

(** ** Variable-length integers *)

Definition read_varlen_int : M Z :=
  b <- read 1 ;;
  nbytes <- lift_struct (unpack_uint 1 b) ;;
  if nbytes =? 1 then
    b <- read 1 ;; lift_struct (unpack_uint 1 b)
  else if nbytes =? 4 then
    b <- read 4 ;; lift_struct (unpack_uint 4 b)
  else if nbytes =? 8 then
    b <- read 8 ;; lift_struct (unpack_uint 8 b)
  else raise RuntimeError.

(** The bytes that [write_varlen_int] hands to [fp.write]; [None] when
    [struct.pack] raises. The middle bound is the one of the source,
    nine hexadecimal digits. *)
Definition varlen_bytes (i : Z) : option (list byte) :=
  if i <=? 0xFF then
    a ← pack_uint 1 1; b ← pack_uint 1 i; Some (a ++ b)
  else if i <=? 0xFFFFFFFFF then
    a ← pack_uint 1 4; b ← pack_uint 4 i; Some (a ++ b)
  else
    a ← pack_uint 1 8; b ← pack_uint 8 i; Some (a ++ b).

(** In [fp.write(struct.pack(...))] the method of [fp] is looked up
    before the argument is evaluated: without a handle that is an
    [AttributeError], whatever [struct.pack] would do. *)
Definition lookup_write : M unit :=
  fun w =>
    match w_outf w with
    | None => (Raise AttributeError, w)
    | Some _ => (Ret tt, w)
    end.

Definition write_varlen_int (i : Z) : M unit :=
  lookup_write ;;;
  bs <- lift_struct (varlen_bytes i) ;; write bs.

(** ** Chunk frames *)

Definition write_chunk (tag : Z) (content : list byte) : M unit :=
  write_varlen_int (Z.of_nat (length content) + 2) ;;;
  (lookup_write ;;; t <- lift_struct (pack_uint 2 tag) ;; write t) ;;;
  write content.

(** ** Scanning forward to a boundary chunk *)

Definition blocklen : Z := 2 ^ 20.

Definition signature : list byte :=
  [x43; xa5; x46; xdc; xcb; xf5; x41; x0f;
   xb3; x0e; xd5; x46; x73; x83; xcb; xe4].

Fixpoint scan_forward_loop (fuel : nat) : M unit :=
  match fuel with
  | O => out_of_fuel
  | S fuel' =>
      curpos <- tell ;;
      block <- read blocklen ;;
      let matchpos := bytes_find block signature in
      if negb (matchpos =? -1) then
        seek (curpos + matchpos + 15) ;;;
        emit DEBUG Msg_scan_found
      else if Z.of_nat (length block) <? blocklen then
        emit DEBUG Msg_scan_eof
      else scan_forward_loop fuel'
  end.

(** Every round but the last one moves the cursor by a whole block, so
    one round per byte of the file, and one more, is enough fuel. *)
Definition scan_forward : M unit :=
  fun w => scan_forward_loop (S (length (r_data (w_inf w)))) w.

(** ** Documents

    The text of a stream header is handled by Python's codecs and by
    [xml.etree]; the locator only decodes it, asks two fields of the
    parsed document and compares texts. That boundary is an interface. *)

Class Documents := {
  text : Type;
  text_eq_decision :: EqDecision text;
  (** [bytes.decode('utf-8', 'replace')] *)
  decode_utf8 : list byte -> text;
  (** [str.encode('utf-8')] *)
  encode_utf8 : text -> list byte;
  (** [xml2dict(et.fromstring(doc))['info'][field][0]]: [None] when the
      expression raises, [Some None] when its value is not a string,
      [Some (Some s)] when it is the string [s]. *)
  info_field : string -> text -> option (option string);
  (** the blank document, with the uid drawn when the module is loaded *)
  metadata_default : text
}.

Definition metadata_chunkname : string := "Metadata".
Definition metadata_chunktype : string := "Metadata".

Definition magic : list byte := [x58; x44; x46; x3a].   (* b'XDF:' *)

(** *** The file system *)

Definition getsize (path : string) : M Z :=
  fun w =>
    match w_fs w !! path with
    | Some bs => (Ret (Z.of_nat (length bs)), w)
    | None => (Raise FileNotFoundError, w)
    end.

Definition path_exists (path : string) : M bool :=
  fun w => (Ret (bool_decide (is_Some (w_fs w !! path))), w).

(** [open(path, 'rb')] *)
Definition open_rb (path : string) : M unit :=
  fun w =>
    match w_fs w !! path with
    | Some bs => (Ret tt, set_inf (Reader bs 0) w)
    | None => (Raise FileNotFoundError, w)
    end.

(** [open(path, 'wb')]: the file is created, or emptied if it exists. *)
Definition open_wb (path : string) : M unit :=
  fun w => (Ret tt, set_outf (Some (Writer path false)) (set_fs (<[path := []]> (w_fs w)) w)).

(** [shutil.copyfile(src, dst)] *)
Definition copyfile (src : string) (dst : option string) : M unit :=
  fun w =>
    match dst with
    | None => (Raise TypeError, w)
    | Some d =>
        match w_fs w !! src with
        | Some bs => (Ret tt, set_fs (<[d := bs]> (w_fs w)) w)
        | None => (Raise FileNotFoundError, w)
        end
    end.

(** *** A fresh stream id *)

(** The loop around [random.randint(10000, 99999)]: the first value of
    the draws that is not among [ids], and the draws left after it. *)
Fixpoint draw_fresh (draws ids : list Z) : option (Z * list Z) :=
  match draws with
  | [] => None
  | k :: rest => if decide (k ∈ ids) then draw_fresh rest ids else Some (k, rest)
  end.

Definition fresh_stream_id (ids : list Z) : M Z :=
  fun w =>
    match draw_fresh (w_rng w) ids with
    | Some (k, rest) => (Ret k, set_rng rest w)
    | None => (OutOfDraws, set_rng [] w)
    end.

Section Locator.
Context {D : Documents}.

(** The variables of the traversal. *)
Record scan := Scan {
  streamheaders_begin : option Z;
  metadata_begin : option Z;
  metadata_len : option Z;
  metadata_content : option text;
  metadata_id : option Z;
  other_ids : list Z;
  has_more_than_one : bool
}.

Definition scan_init : scan := Scan None None None None None [] false.

Inductive flow : Set := Continue | Break.

Definition lift_doc {A} (o : option A) : M A :=
  match o with Some a => ret a | None => raise DocumentError end.

(** The test on the name and the type of the header, [name] being the
    value of [hdr['info']['name'][0]]; [and] does not look at the type
    when the name differs. *)
Definition is_metadata_header (name : option string) (doc : text) : M bool :=
  if decide (name = Some metadata_chunkname) then
    ty <- lift_doc (info_field "type" doc) ;;
    ret (bool_decide (ty = Some metadata_chunktype))
  else ret false.

(** [logger.debug('  found stream ' + hdr['info']['name'][0])]: the
    argument is built whatever the level, and a name that is not a
    string cannot be appended to one. *)
Definition log_found_stream (name : option string) : M unit :=
  match name with
  | Some _ => emit DEBUG Msg_found_stream
  | None => raise TypeError
  end.

(** The branch of a [StreamHeader] chunk. *)
Definition on_stream_header (begin_pos chunklen : Z) (st : scan) : M scan :=
  let st1 :=
    match streamheaders_begin st with
    | None => Scan (Some begin_pos) (metadata_begin st) (metadata_len st)
                (metadata_content st) (metadata_id st) (other_ids st)
                (has_more_than_one st)
    | Some _ => st
    end in
  idb <- read 4 ;;
  stream_id <- lift_struct (unpack_uint 4 idb) ;;
  xml_string <- read (chunklen - 6) ;;
  let decoded_string := decode_utf8 xml_string in
  name <- lift_doc (info_field "name" decoded_string) ;;
  is_meta <- is_metadata_header name decoded_string ;;
  st2 <-
    (if is_meta : bool then
       match metadata_begin st1 with
       | None =>
           pos <- tell ;;
           ret (Scan (streamheaders_begin st1) (Some begin_pos) (Some (pos - begin_pos))
                  (Some decoded_string) (Some stream_id) (other_ids st1)
                  (has_more_than_one st1))
       | Some _ =>
           ret (Scan (streamheaders_begin st1) (metadata_begin st1) (metadata_len st1)
                  (metadata_content st1) (metadata_id st1) (other_ids st1 ++ [stream_id])
                  true)
       end
     else
       ret (Scan (streamheaders_begin st1) (metadata_begin st1) (metadata_len st1)
              (metadata_content st1) (metadata_id st1) (other_ids st1 ++ [stream_id])
              (has_more_than_one st1))) ;;
  log_found_stream name ;;;
  ret st2.

(** The branch of a [Samples] or [StreamFooter] chunk. *)
Definition on_data_chunk (st : scan) : M scan :=
  match metadata_content st with
  | None =>
      k <- fresh_stream_id (other_ids st) ;;
      ret (Scan (streamheaders_begin st) (streamheaders_begin st) (Some 0)
             (Some metadata_default) (Some k) (other_ids st) (has_more_than_one st))
  | Some _ => ret st
  end.

(** One round of the loop over the chunks. *)
Definition chunk_round (filesize : Z) (st : scan) : M (flow * scan) :=
  begin_pos <- tell ;;
  r <- try_except
         (chunklen <- read_varlen_int ;; ret (inl chunklen))
         (pos <- tell ;;
          if pos <? filesize - 1024 then
            emit WARNING Msg_zero_length_chunk ;;;
            scan_forward ;;;
            ret (inr Continue)
          else
            emit DEBUG Msg_reached_eof ;;;
            ret (inr Break)) ;;
  match r with
  | inr f => ret (f, st)
  | inl chunklen =>
      tagb <- read 2 ;;
      tag <- lift_struct (unpack_uint 2 tagb) ;;
      pos <- tell ;;
      emit DEBUG (Msg_read_tag tag pos chunklen) ;;;
      if tag =? ChunkTags.STREAM_HEADER_TAG then
        st' <- on_stream_header begin_pos chunklen st ;;
        ret (Continue, st')
      else if (tag =? ChunkTags.SAMPLES_TAG) || (tag =? ChunkTags.STREAM_FOOTER_TAG) then
        st' <- on_data_chunk st ;;
        ret (Break, st')
      else
        read (chunklen - 2) ;;;
        ret (Continue, st)
  end.

Fixpoint traverse (fuel : nat) (filesize : Z) (st : scan) : M scan :=
  match fuel with
  | O => out_of_fuel
  | S fuel' =>
      r <- chunk_round filesize st ;;
      match r with
      | (Break, st') => ret st'
      | (Continue, st') => traverse fuel' filesize st'
      end
  end.

(** Every round that goes on has moved the cursor forward, so one round
    per byte of the file, and one more, is enough fuel when [filesize]
    is the size of the file that is read. *)
Definition traverse_chunks (filesize : Z) : M scan :=
  fun w => traverse (S (length (r_data (w_inf w)))) filesize scan_init w.

Definition get_metadata_content (filepath : string)
  : M (option text * option Z * option Z * option Z) :=
  filesize <- getsize filepath ;;
  oldpos <- tell ;;
  seek 0 ;;;
  m <- read 4 ;;
  if negb (bool_decide (m = magic)) then raise InvalidContainer
  else
    st <- traverse_chunks filesize ;;
    (if has_more_than_one st then emit WARNING (Msg_more_than_one filepath)
     else ret tt) ;;;
    seek oldpos ;;;
    ret (metadata_content st, metadata_begin st, metadata_len st, metadata_id st).

(** *** Copying and splicing *)

Definition blocksize : Z := 65536.

(** [outf.write(inf.read(n))]: the method of [outf] is looked up before
    the argument is evaluated. *)
Definition write_read (n : Z) : M unit :=
  (fun w => match w_outf w with
            | None => (Raise AttributeError, w)
            | Some _ => (Ret tt, w)
            end) ;;;
  b <- read n ;;
  write b.

Fixpoint copy_range_loop (fuel : nat) (len : Z) : M unit :=
  match fuel with
  | O => out_of_fuel
  | S fuel' =>
      if len >=? blocksize then
        write_read blocksize ;;;
        copy_range_loop fuel' (len - blocksize)
      else if negb (len =? 0) then write_read len
      else ret tt
  end.

(** [copy_range(inf, outf, length)]; [None >= blocksize] is a
    [TypeError]. The loop runs once per whole block. *)
Definition copy_range (len : option Z) : M unit :=
  match len with
  | None => raise TypeError
  | Some n => copy_range_loop (S (Z.to_nat (n / blocksize))) n
  end.

Definition path_truthy (p : option string) : bool :=
  match p with
  | Some s => negb (bool_decide (s = EmptyString))
  | None => false
  end.

Definition add_opt (a b : option Z) : M Z :=
  match a, b with
  | Some x, Some y => ret (x + y)
  | _, _ => raise TypeError
  end.

Definition sub_opt (a : Z) (b : option Z) : M Z :=
  match b with
  | Some y => ret (a - y)
  | None => raise TypeError
  end.

(** The statements of [process_file] after the call of the locator:
    [transform] is [process_metadata_content] with the directives of
    the command line, [None] when it raises; then the splice, or the
    plain copy when the content did not change. *)
Definition splice (inpath : string) (outpath : option string)
    (transform : text -> option text) (in_size : Z)
    (loc : option text * option Z * option Z * option Z) : M unit :=
  let '(meta_content, meta_begin, meta_len, meta_id) := loc in
  new_content <-
    match meta_content with
    | Some c => lift_doc (transform c)
    | None => raise TypeError
    end ;;
  if negb (bool_decide (Some new_content = meta_content)) then
    copy_range meta_begin ;;;
    idb <- lift_struct (i ← meta_id; pack_uint 4 i) ;;
    let chunkbytes := idb ++ encode_utf8 new_content in
    write_chunk ChunkTags.STREAM_HEADER_TAG chunkbytes ;;;
    (p <- add_opt meta_begin meta_len ;; seek p) ;;;
    (n <- (m <- sub_opt in_size meta_begin ;; sub_opt m meta_len) ;;
     copy_range (Some n))
  else
    close_outf ;;;
    copyfile inpath outpath.

(** The body of [process_file] under [try:]. *)
Definition process_file_body (inpath : string) (outpath : option string)
    (transform : text -> option text) (overwrite : bool) (in_size : Z) : M unit :=
  open_rb inpath ;;;
  (if bool_decide (outpath = Some inpath) then raise AssertionError else ret tt) ;;;
  (if path_truthy outpath then
     match outpath with
     | Some p =>
         e <- path_exists p ;;
         if negb overwrite && e then raise FileExistsError
         else open_wb p
     | None => ret tt
     end
   else ret tt) ;;;
  loc <- get_metadata_content inpath ;;
  splice inpath outpath transform in_size loc.

(** [finally:] closes the output if there is one and it is still open. *)
Definition close_if_open : M unit :=
  fun w =>
    match w_outf w with
    | Some o => if wr_closed o then (Ret tt, w) else close_outf w
    | None => (Ret tt, w)
    end.

Definition process_file (inpath : string) (outpath : option string)
    (transform : text -> option text) (overwrite : bool) : M unit :=
  emit INFO (Msg_processing inpath) ;;;
  in_size <- getsize inpath ;;
  (fun w => (Ret tt, set_outf None w)) ;;;
  try_finally
    (process_file_body inpath outpath transform overwrite in_size)
    close_if_open.

End Locator.

(** ** Well-formed input, for the statements

    [varlen_frame lb L]: the bytes [lb] are a length field that decodes
    to [L], with any of the three widths, whichever value it holds. *)
Inductive varlen_frame : list byte -> Z -> Prop :=
| varlen_frame_1 b : varlen_frame [x01; b] (byte_to_Z b)
| varlen_frame_4 bs : length bs = 4%nat -> varlen_frame (x04 :: bs) (le_to_Z bs)
| varlen_frame_8 bs : length bs = 8%nat -> varlen_frame (x08 :: bs) (le_to_Z bs).

(** A chunk as it lies in the file: the bytes of its length field, its
    tag and its content. *)
Record chunk := Chunk { c_len : list byte; c_tag : Z; c_content : list byte }.

Definition chunk_bytes (c : chunk) : list byte :=
  c_len c ++ Z_to_le 2 (c_tag c) ++ c_content c.

(** The length field counts the tag and the content. *)
Definition well_framed (c : chunk) : Prop :=
  varlen_frame (c_len c) (Z.of_nat (length (c_content c)) + 2)
  /\ 0 <= c_tag c < 65536.

Definition frames (cs : list chunk) : list byte := concat (map chunk_bytes cs).

(** What [tail] has to be for the traversal to end at it: the end of the
    file, or the frame header of a [Samples] or [StreamFooter] chunk. *)
Definition data_boundary (tail : list byte) : Prop :=
  tail = [] \/
  exists lb L tagb rest,
    tail = lb ++ tagb ++ rest /\ varlen_frame lb L /\ length tagb = 2%nat
    /\ (le_to_Z tagb = ChunkTags.SAMPLES_TAG \/ le_to_Z tagb = ChunkTags.STREAM_FOOTER_TAG).

(** A source in which the signature lies across the end of the first
    window of the scanner. *)
Definition straddling_source : list byte :=
  replicate (Z.to_nat (blocklen - 8)) x00 ++ signature.

Section Headers.
Context {D : Documents}.

(** The value of the test on a header with the document [doc], [None]
    when the round on that header raises: in the parser, in the test,
    or at the debug record for a name that is not a string. *)
Definition matches_metadata (doc : text) : option bool :=
  match info_field "name" doc with
  | None | Some None => None
  | Some (Some name) =>
      if decide (name = metadata_chunkname) then
        match info_field "type" doc with
        | None => None
        | Some ty => Some (bool_decide (ty = Some metadata_chunktype))
        end
      else Some false
  end.

Definition stream_id_of (c : chunk) : Z := le_to_Z (take 4 (c_content c)).
Definition document_of (c : chunk) : text := decode_utf8 (drop 4 (c_content c)).

(** A [StreamHeader] chunk whose document passes the test. *)
Definition is_metadata_chunk (c : chunk) : Prop :=
  c_tag c = ChunkTags.STREAM_HEADER_TAG
  /\ matches_metadata (document_of c) = Some true.

(** A chunk of the header region: framed, not the start of the data,
    and, for a stream header, with a stream id and a document on which
    the round does not raise. *)
Definition header_region_chunk (c : chunk) : Prop :=
  well_framed c
  /\ c_tag c <> ChunkTags.SAMPLES_TAG /\ c_tag c <> ChunkTags.STREAM_FOOTER_TAG
  /\ (c_tag c = ChunkTags.STREAM_HEADER_TAG ->
      (4 <= length (c_content c))%nat /\ is_Some (matches_metadata (document_of c))).

(** What one chunk of the header region does to the variables of the
    traversal, [begin_pos] being its offset. *)
Definition scan_chunk (begin_pos : Z) (c : chunk) (st : scan) : scan :=
  if c_tag c =? ChunkTags.STREAM_HEADER_TAG then
    let sb := match streamheaders_begin st with
              | None => Some begin_pos
              | Some b => Some b
              end in
    match matches_metadata (document_of c), metadata_begin st with
    | Some true, None =>
        Scan sb (Some begin_pos) (Some (Z.of_nat (length (chunk_bytes c))))
          (Some (document_of c)) (Some (stream_id_of c)) (other_ids st)
          (has_more_than_one st)
    | Some true, Some _ =>
        Scan sb (metadata_begin st) (metadata_len st) (metadata_content st)
          (metadata_id st) (other_ids st ++ [stream_id_of c]) true
    | _, _ =>
        Scan sb (metadata_begin st) (metadata_len st) (metadata_content st)
          (metadata_id st) (other_ids st ++ [stream_id_of c]) (has_more_than_one st)
    end
  else st.

Fixpoint scan_region (begin_pos : Z) (cs : list chunk) (st : scan) : scan :=
  match cs with
  | [] => st
  | c :: cs' =>
      scan_region (begin_pos + Z.of_nat (length (chunk_bytes c))) cs'
        (scan_chunk begin_pos c st)
  end.
End Headers.

(** ** Concrete inputs

    A stand-in for the document library, for running the program on
    small files. A text is its bytes. A document is read as [xml2dict]
    reads an [<info>] element without attributes whose children are
    flat: the field [f] is the text between the first [<f>] and the next
    ['<'], not a string when that text is empty, and the lookup raises
    when the document does not start with [<info>] or has no [<f>]. *)
Fixpoint text_until (stop : byte) (bs : list byte) : list byte :=
  match bs with
  | [] => []
  | b :: bs' => if decide (b = stop) then [] else b :: text_until stop bs'
  end.

Definition sample_info_field (f : string) (doc : list byte) : option (option string) :=
  if starts_with (list_byte_of_string "<info>") doc then
    let opening := list_byte_of_string (String.append "<" (String.append f ">")) in
    let i := bytes_find doc opening in
    if i =? -1 then None
    else
      match text_until x3c (drop (Z.to_nat i + length opening) doc) with
      | [] => Some None
      | t => Some (Some (string_of_list_byte t))
      end
  else None.

Definition sample_default : string :=
  "<info><name>Metadata</name><type>Metadata</type><desc></desc></info>".

Definition sample_documents : Documents := {|
  text := list byte;
  decode_utf8 := fun bs => bs;
  encode_utf8 := fun t => t;
  info_field := sample_info_field;
  metadata_default := list_byte_of_string sample_default
|}.

Definition start_world (path : string) (data : list byte) (draws : list Z) : world :=
  World {[ path := data ]} (Reader data 0) None [] draws.

(** A [StreamHeader] chunk for the stream [id] with the document [doc],
    and a chunk of another tag with a text content; both with a
    one-byte length field. *)
Definition sample_header (id : byte) (doc : string) : chunk :=
  let content := [id; x00; x00; x00] ++ list_byte_of_string doc in
  Chunk [x01; byte_of_Z (Z.of_nat (length content) + 2)] 2 content.

Definition sample_chunk (tag : Z) (content : string) : chunk :=
  Chunk [x01; byte_of_Z (Z.of_nat (length (list_byte_of_string content)) + 2)] tag
    (list_byte_of_string content).

Definition file_header : chunk := sample_chunk 1 "<info><version>1.0</version></info>".

Definition eeg_doc : string :=
  "<info><name>EEG</name><type>EEG</type><channel_count>8</channel_count></info>".
Definition metadata_doc : string :=
  "<info><name>Metadata</name><type>Metadata</type><desc><subject>s01</subject></desc></info>".
Definition metadata_doc_2 : string :=
  "<info><name>Metadata</name><type>Metadata</type><desc></desc></info>".
Definition edited_doc : string :=
  "<info><name>Metadata</name><type>Metadata</type><desc><subject>s02</subject></desc></info>".

(** A [Samples] chunk of stream 7: the frame header, then six bytes. *)
Definition samples_chunk : list byte :=
  [x01; x08; x03; x00] ++ [x07; x00; x00; x00; x01; x00].

(** A file with the file header and a [Samples] chunk, and no stream
    header. *)
Definition samples_only : list byte := magic ++ chunk_bytes file_header ++ samples_chunk.

(** A file whose only chunk has tag 5 and the length field 0. *)
Definition zero_length_chunk : list byte := magic ++ [x01; x00; x05; x00; x01; x02].

(** A file whose only chunk has tag 5 and the length field 1. *)
Definition one_length_chunk : list byte := magic ++ [x01; x01; x05; x00; x01; x02].

(** The file header, the header of the stream 7, a first metadata header
    for the stream 8, a boundary chunk (tag 5, the signature), a second
    metadata header for the stream 9; then a [Samples] chunk. *)
Definition two_metadata_headers : list chunk :=
  [ file_header;
    sample_header x07 eeg_doc;
    sample_header x08 metadata_doc;
    Chunk [x01; x12] 5 signature;
    sample_header x09 metadata_doc_2 ].

Definition two_metadata_file : list byte :=
  magic ++ frames two_metadata_headers ++ samples_chunk.

(** The world in which [process_file] calls the locator, when it was
    started in [w] on the input file [inpath], which holds [data], with
    the output path [p]: the input is open at offset 0, the output file
    was created empty and is open, and the start was logged. *)
Definition opened_world (inpath p : string) (data : list byte) (w : world) : world :=
  World (<[p := []]> (w_fs w)) (Reader data 0) (Some (Writer p false))
    (w_log w ++ [(INFO, Msg_processing inpath)]) (w_rng w).

(** The reading handle keeps its bytes and its cursor does not move
    back, nor past the end of the file if it was within it. *)
Definition advances (w w' : world) : Prop :=
  r_data (w_inf w') = r_data (w_inf w)
  /\ (r_pos (w_inf w) <= r_pos (w_inf w'))%nat
  /\ ((r_pos (w_inf w) <= length (r_data (w_inf w)))%nat ->
      (r_pos (w_inf w') <= length (r_data (w_inf w)))%nat).

Section Spans.
Context {D : Documents}.

(** The offsets on record lie within a file of [n] bytes. *)
Definition span_ok (n : nat) (st : scan) : Prop :=
  (forall b, streamheaders_begin st = Some b -> 0 <= b <= Z.of_nat n)
  /\ (forall b, metadata_begin st = Some b ->
      exists l, metadata_len st = Some l /\ 0 <= b /\ 0 <= l /\ b + l <= Z.of_nat n).
End Spans.

(** A file in which a second metadata header comes after the data has
    begun: the file header, a metadata header for the stream 8, a
    [Samples] chunk, a metadata header for the stream 9. *)
Definition metadata_after_data : list byte :=
  magic ++ chunk_bytes file_header ++ chunk_bytes (sample_header x08 metadata_doc)
        ++ samples_chunk ++ chunk_bytes (sample_header x09 metadata_doc_2).

(** ** Predicates on statements, for the proofs *)

(** The files, the writing handle and the bytes behind the reading handle
    are the same in both worlds. *)
Definition same_files (w w' : world) : Prop :=
  w_fs w' = w_fs w /\ w_outf w' = w_outf w /\ r_data (w_inf w') = r_data (w_inf w).

(** Whatever [m] returns or raises, the world it leaves is related by
    [R] to the one it started in. *)
Definition preserves {A} (R : world -> world -> Prop) (m : M A) : Prop :=
  forall w, R w (m w).2.

(** [m] never uses up the fuel of a loop. *)
Definition fueled {A} (m : M A) : Prop := forall w, (m w).1 <> OutOfFuel.

(** The stream ids of the [StreamHeader] chunks of a region, in the
    order of the file. *)
Definition header_ids (cs : list chunk) : list Z :=
  map stream_id_of (filter (fun c => c_tag c = ChunkTags.STREAM_HEADER_TAG) cs).

(** The log has only grown, and by no warning about a second metadata
    stream. *)
Definition no_duplicate_warning (w w' : world) : Prop :=
  exists l, w_log w' = w_log w ++ l
            /\ Forall (fun r : log_record => forall f, r.2 <> Msg_more_than_one f) l.

(** The values that [random.randint] will return are left as they
    are. *)
Definition same_draws (w w' : world) : Prop := w_rng w' = w_rng w.

(** [m] never uses up the values of [random.randint]: it has no loop
    that draws until a value is new. *)
Definition drawless {A} (m : M A) : Prop := forall w, (m w).1 <> OutOfDraws.

(** As long as [P] holds of the world, [m] does not use up the values
    of [random.randint]. *)
Definition drawless_on {A} (P : world -> Prop) (m : M A) : Prop :=
  forall w, P w -> (m w).1 <> OutOfDraws.

(** One of the values that [random.randint] will return is not among
    [ids]. *)
Definition has_fresh_draw (ids : list Z) (w : world) : Prop :=
  exists k, k ∈ w_rng w /\ k ∉ ids.

(** [k] is not the value of four bytes that follow one another in
    [data]: no stream header of a file with these bytes has the id
    [k]. *)
Definition no_id_of (data : list byte) (k : Z) : Prop :=
  forall pos, le_to_Z (take 4 (drop pos data)) <> k.

(** The same, by looking at every offset. *)
Definition no_id_at_offsets (data : list byte) (k : Z) : bool :=
  forallb (fun pos => negb (le_to_Z (take 4 (drop pos data)) =? k))
    (seq 0 (S (length data))).

(** No length field can be read at the offset [pos] of [data]: whatever
    the rest of the world, [read_varlen_int] raises there. *)
Definition unreadable (data : list byte) (pos : nat) : Prop :=
  forall fs outf log rng, exists e pos1,
    read_varlen_int (World fs (Reader data pos) outf log rng)
    = (Raise e, World fs (Reader data pos1) outf log rng).

(** Given that the writing handle, if there is one, is on the file [p]:
    it still is, and no other file has changed. *)
Definition writes_only (p : string) (w w' : world) : Prop :=
  (forall o, w_outf w = Some o -> wr_path o = p) ->
  (forall o, w_outf w' = Some o -> wr_path o = p)
  /\ forall q, q <> p -> w_fs w' !! q = w_fs w !! q.

(** ** Paths and the run over the files

    Python strings are [string]s here, as the paths of the file system
    are. *)

(** [s.replace(old, new)] for a non-empty [old]: from the left, the
    occurrences not overlapping; [skip] counts the characters of the
    occurrence just replaced that are still to be passed over. *)
Fixpoint replace_from (skip : nat) (old new s : string) : string :=
  match s with
  | EmptyString => EmptyString
  | String c s' =>
      match skip with
      | S k => replace_from k old new s'
      | O =>
          if String.prefix old s
          then new +:+ replace_from (String.length old - 1) old new s'
          else String c (replace_from 0 old new s')
      end
  end.

(** With an empty [old], [new] goes before every character and at the
    end. *)
Fixpoint interleave (new s : string) : string :=
  match s with
  | EmptyString => new
  | String c s' => new +:+ String c (interleave new s')
  end.

Definition str_replace (old new s : string) : string :=
  match old with
  | EmptyString => interleave new s
  | String _ _ => replace_from 0 old new s
  end.

(** [s.endswith(suffix)] *)
Definition str_endswith (s suffix : string) : bool :=
  (String.length suffix <=? String.length s)%nat
  && String.eqb
       (substring (String.length s - String.length suffix) (String.length suffix) s)
       suffix.

(** [old in s] *)
Fixpoint str_contains (old s : string) : bool :=
  String.prefix old s
  || match s with
     | EmptyString => false
     | String _ s' => str_contains old s'
     end.

Definition str_truthy (s : string) : bool := negb (String.eqb s EmptyString).

(** ['%i' % k] *)
Definition format_int (k : Z) : string := NilZero.string_of_int (Z.to_int k).

(** One call of [random.randint]: the next of the draws. *)
Definition randint : M Z :=
  fun w =>
    match w_rng w with
    | k :: rest => (Ret k, set_rng rest w)
    | [] => (OutOfDraws, w)
    end.

Definition gen_outpath (inpath suffix : string) (inplace : bool) : M (string * bool) :=
  if inplace || negb (str_truthy suffix) then
    k <- randint ;;
    ret (inpath +:+ "." +:+ format_int k +:+ ".tmp", true)
  else
    ret (str_replace ".xdf" (suffix +:+ ".xdf") inpath, false).

(** [os.remove(path)] *)
Definition os_remove (path : string) : M unit :=
  fun w =>
    match w_fs w !! path with
    | Some _ => (Ret tt, set_fs (delete path (w_fs w)) w)
    | None => (Raise FileNotFoundError, w)
    end.

(** [os.rename(src, dst)], [dst] being replaced if it exists. *)
Definition os_rename (src dst : string) : M unit :=
  fun w =>
    match w_fs w !! src with
    | Some bs => (Ret tt, set_fs (<[dst := bs]> (delete src (w_fs w))) w)
    | None => (Raise FileNotFoundError, w)
    end.

(** The options of the command line that the run uses; an option with
    [action='append'] is [None] when it was not given. *)
Record args := Args {
  a_set : option (list string);
  a_clear : option (list string);
  a_show : option (list string);
  a_suffix : string;
  a_inplace : bool;
  a_process_suffixed : bool;
  a_overwrite : bool
}.

Definition list_truthy (o : option (list string)) : bool :=
  match o with
  | Some (_ :: _) => true
  | _ => false
  end.

(** [a.set or a.clear], as a condition *)
Definition is_modifying (a : args) : bool := list_truthy (a_set a) || list_truthy (a_clear a).

Section Run.
Context {D : Documents}.

(** [process_metadata_content(content, to_set=, to_clear=, to_show=)]
    as [process_file] takes it: [None] when it raises. *)
Variable processing :
  text -> option (list string) -> option (list string) -> option (list string) ->
  option text.

(** The body of the loop over the paths that the patterns of the
    command line match. *)
Definition process_path (a : args) (inpath : string) : M unit :=
  if negb (a_process_suffixed a) && str_truthy (a_suffix a)
     && str_endswith inpath (a_suffix a +:+ ".xdf")
  then ret tt
  else
    o <- (if is_modifying a then
            r <- gen_outpath inpath (a_suffix a) (a_inplace a) ;;
            ret (Some r.1, r.2)
          else ret (None, false)) ;;
    let '(outpath, is_temppath) := o in
    process_file inpath outpath
      (fun content => processing content (a_set a) (a_clear a) (a_show a))
      (a_overwrite a) ;;;
    if is_temppath && path_truthy outpath then
      match outpath with
      | Some p => os_remove inpath ;;; os_rename p inpath
      | None => ret tt
      end
    else ret tt.

Fixpoint process_paths (a : args) (inpaths : list string) : M unit :=
  match inpaths with
  | [] => ret tt
  | inpath :: rest => process_path a inpath ;;; process_paths a rest
  end.
End Run.

(** The options of a run that sets one field, and of a run that shows
    one. *)
Definition set_args (inplace : bool) : args :=
  Args (Some ["subject=s02"%string]) None None ".processed" inplace false false.

Definition show_args : args :=
  Args None None (Some ["subject"%string]) ".processed" false false false.

(** ** Documents as trees

    An [xml.etree] element: its tag, attributes, text, tail and
    children. *)
#[local] Unset Elimination Schemes.

Inductive element : Type :=
  Element {
    e_tag : string;
    e_attrib : list (string * string);
    e_text : option string;
    e_tail : option string;
    e_children : list element
  }.

(** [et.Element(tag)] *)
Definition new_element (tag : string) : element := Element tag [] None None [].

(** What [xml2dict] gives for the content of an element: its text, or
    a [defaultdict] of lists, in the order in which its keys were first
    used. *)
Inductive xvalue : Type :=
| XText (t : option string)
| XDict (items : list (string * list xvalue)).

#[local] Set Elimination Schemes.

(** [dd[k].append(v)] *)
Fixpoint dd_append (k : string) (v : xvalue) (dd : list (string * list xvalue))
  : list (string * list xvalue) :=
  match dd with
  | [] => [(k, [v])]
  | (k', vs) :: dd' =>
      if String.eqb k' k then (k', vs ++ [v]) :: dd'
      else (k', vs) :: dd_append k v dd'
  end.

(** [dd[k]] of a [defaultdict(list)] *)
Fixpoint dd_get (k : string) (dd : list (string * list xvalue)) : list xvalue :=
  match dd with
  | [] => []
  | (k', vs) :: dd' => if String.eqb k' k then vs else dd_get k dd'
  end.

(** [xml2dict(t)] is a dict with the one key [t.tag]: the key and its
    value. *)
Fixpoint xml2dict (t : element) : string * xvalue :=
  let dd :=
    fold_left (fun dd (dc : string * xvalue) => dd_append dc.1 dc.2 dd)
      (map xml2dict (e_children t)) [] in
  (e_tag t, match dd with [] => XText (e_text t) | _ :: _ => XDict dd end).

(** [xml2dict(root)['info'][f][0]], as the locator asks it: [None] when
    the expression raises (the root is not [info], it has no children,
    or none with the tag [f]), [Some None] when the value is not a
    string, [Some (Some s)] when it is the string [s]. *)
Definition header_field (f : string) (root : element) : option (option string) :=
  let hdr := xml2dict root in
  if String.eqb hdr.1 "info" then
    match hdr.2 with
    | XText _ => None
    | XDict dd =>
        match dd_get f dd with
        | [] => None
        | XText (Some s) :: _ => Some (Some s)
        | _ :: _ => Some None
        end
    end
  else None.

(** ** Editing the document

    A reference to a node of the tree that is being edited is the
    position of the node: the indices of the children on the way from
    the root.  It stays good while nothing is removed to the left of
    that way. *)
Definition position : Type := list nat.

Fixpoint node_at (pos : position) (t : element) : option element :=
  match pos with
  | [] => Some t
  | i :: pos' => c ← e_children t !! i; node_at pos' c
  end.

Definition with_children (cs : list element) (t : element) : element :=
  Element (e_tag t) (e_attrib t) (e_text t) (e_tail t) cs.

(** [node.text = v] *)
Definition with_text (v : string) (t : element) : element :=
  Element (e_tag t) (e_attrib t) (Some v) (e_tail t) (e_children t).

(** [node.append(c)] *)
Definition append_child (c : element) (t : element) : element :=
  with_children (e_children t ++ [c]) t.

Fixpoint update_at (pos : position) (f : element -> element) (t : element) : element :=
  match pos with
  | [] => f t
  | i :: pos' => with_children (alter (update_at pos' f) i (e_children t)) t
  end.

(** The tags of the children of the node at a position: all that a
    path of tags looks at. *)
Definition tags_at (root : element) (q : position) : option (list string) :=
  (fun e => map e_tag (e_children e)) <$> node_at q root.

(** The indices, counted from [i], of the elements of [cs] with the tag
    [tag]. *)
Fixpoint tagged_from (i : nat) (tag : string) (cs : list element) : list nat :=
  match cs with
  | [] => []
  | c :: cs' =>
      if String.eqb (e_tag c) tag then i :: tagged_from (S i) tag cs'
      else tagged_from (S i) tag cs'
  end.

Definition tagged (tag : string) (cs : list element) : list nat := tagged_from 0 tag cs.

(** One step of a path, as [ElementPath] selects it: the children with
    the tag [tag] of the nodes of [result], in that order. *)
Definition select_child (root : element) (tag : string) (result : list position)
  : list position :=
  flat_map
    (fun p =>
       match node_at p root with
       | Some e => map (fun i => p ++ [i]) (tagged tag (e_children e))
       | None => []
       end)
    result.

(** [elem.findall(path)] for a path of tags, [elem] being at [start]. *)
Definition iterfind (root : element) (start : position) (steps : list string)
  : list position :=
  fold_left (fun result tag => select_child root tag result) steps [start].

(** The step ['..']: the parents of the nodes of [result], each once,
    in the order in which they are met. *)
Fixpoint first_seen (seen : list position) (l : list position) : list position :=
  match l with
  | [] => []
  | x :: l' =>
      if decide (x ∈ seen) then first_seen seen l'
      else x :: first_seen (x :: seen) l'
  end.

Definition parent_of (n : position) : position := take (length n - 1) n.

Definition select_parent (result : list position) : list position :=
  first_seen [] (map parent_of result).

(** [s.split(sep)] for a separator of one character *)
Fixpoint split_on (sep : ascii) (s : string) : list string :=
  match s with
  | EmptyString => [EmptyString]
  | String c s' =>
      if Ascii.eqb c sep then EmptyString :: split_on sep s'
      else match split_on sep s' with
           | h :: t => String c h :: t
           | [] => [String c EmptyString]
           end
  end.

(** The tags that the model takes as steps of a path: letters, digits,
    '_' and '-' of ASCII, at least one.  [ElementPath] reads such a
    step as a tag; other characters may be syntax of its own. *)
Definition plain_char (c : ascii) : bool :=
  let n := nat_of_ascii c in
  ((48 <=? n) && (n <=? 57) || (65 <=? n) && (n <=? 90)
   || (97 <=? n) && (n <=? 122) || (n =? 95) || (n =? 45))%nat.

Fixpoint all_plain (s : string) : bool :=
  match s with
  | EmptyString => true
  | String c s' => plain_char c && all_plain s'
  end.

Definition plain_tag (s : string) : bool := str_truthy s && all_plain s.

(** The steps of a path whose parts are plain tags; [None] for any
    other path, which the model does not cover. *)
Definition path_steps (path : string) : option (list string) :=
  let parts := split_on "/" path in
  if forallb plain_tag parts then Some parts else None.

(** What a statement of the editing gives: a value, an exception, or
    nothing that the model can tell, for a path that is not made of
    plain tags. *)
Inductive outcome (A : Type) : Type :=
| Done (a : A)
| Raised (e : exn)
| Unmodelled.
Arguments Done {A} a.
Arguments Raised {A} e.
Arguments Unmodelled {A}.

(** ['%s' % n.text] *)
Definition format_text (t : option string) : string := default "None"%string t.

(** The loop over [to_show]: the lines printed, and how the loop
    ended. *)
Fixpoint show_loop (root : element) (desc : option position) (names : list string)
  : list string * outcome unit :=
  match names with
  | [] => ([], Done tt)
  | name :: rest =>
      match desc with
      | None => ([], Raised AttributeError)
      | Some d =>
          match path_steps (str_replace "." "/" name) with
          | None => ([], Unmodelled)
          | Some steps =>
              let nodes := iterfind root d steps in
              let lines :=
                map (fun n => name +:+ ": " +:+ format_text (node_at n root ≫= e_text))
                  nodes in
              let '(more, r) := show_loop root desc rest in
              (lines ++ more, r)
          end
      end
  end.

(** [n = parent ++ [i]]: the node at [n] is the child [i] of the node
    at [parent]. *)
Fixpoint child_index (parent n : position) : option nat :=
  match parent, n with
  | [], [i] => Some i
  | p :: parent', m :: n' => if (p =? m)%nat then child_index parent' n' else None
  | _, _ => None
  end.

(** [for n in nodes: parent.remove(n)].  The nodes come in the order of
    the document and [remove] goes by identity: a node that is not a
    child of [parent] raises [ValueError]; one that is has moved to the
    left by the number of nodes removed before it. *)
Fixpoint remove_nodes (parent : position) (removed : nat) (nodes : list position)
    (root : element) : outcome element :=
  match nodes with
  | [] => Done root
  | n :: rest =>
      match child_index parent n with
      | Some i =>
          remove_nodes parent (S removed) rest
            (update_at parent
               (fun e => with_children (delete (i - removed)%nat (e_children e)) e) root)
      | None => Raised ValueError
      end
  end.

(** The loop over [to_clear]. *)
Fixpoint clear_loop (desc : option position) (names : list string) (root : element)
  : outcome element :=
  match names with
  | [] => Done root
  | name :: rest =>
      match desc with
      | None => Raised AttributeError
      | Some d =>
          match path_steps (str_replace "." "/" name) with
          | None => Unmodelled
          | Some steps =>
              let nodes := iterfind root d steps in
              let parent := head (select_parent nodes) in
              match nodes, parent with
              | [], _ => clear_loop desc rest root
              | _ :: _, None => Raised AttributeError
              | _ :: _, Some p =>
                  match remove_nodes p 0 nodes root with
                  | Done root' => clear_loop desc rest root'
                  | Raised e => Raised e
                  | Unmodelled => Unmodelled
                  end
              end
          end
      end
  end.

(** The loop that creates the path of a field that does not exist:
    the node it ends at, and the tree. *)
Fixpoint create_path (parts : list string) (cur : position) (root : element)
  : position * element :=
  match parts with
  | [] => (cur, root)
  | part :: rest =>
      match node_at cur root with
      | None => (cur, root)
      | Some e =>
          match tagged part (e_children e) with
          | i :: _ => create_path rest (cur ++ [i]) root
          | [] =>
              create_path rest (cur ++ [length (e_children e)])
                (update_at cur (append_child (new_element part)) root)
          end
      end
  end.

(** The loop over [to_set]. *)
Fixpoint set_loop (desc : option position) (assignments : list string) (root : element)
  : outcome element :=
  match assignments with
  | [] => Done root
  | assignment :: rest =>
      match split_on "=" assignment with
      | [name; value] =>
          let name := str_replace "." "/" name in
          match desc with
          | None => Raised AttributeError
          | Some d =>
              match path_steps name with
              | None => Unmodelled
              | Some steps =>
                  match iterfind root d steps with
                  | node :: _ => set_loop desc rest (update_at node (with_text value) root)
                  | [] =>
                      let '(cur_node, root') := create_path steps d root in
                      set_loop desc rest (update_at cur_node (with_text value) root')
                  end
              end
          end
      | _ => Raised ValueError
      end
  end.

(** The parser and the serializer of [xml.etree], on the texts of the
    documents: [fromstring] is [None] when [et.fromstring] raises;
    [tostring] is [et.tostring(root).decode('utf-8')]. *)
Class XmlCodec {D : Documents} := {
  fromstring : text -> option element;
  tostring : element -> text
}.

Section Editing.
Context {D : Documents} {X : XmlCodec}.

(** [process_metadata_content(content, to_set=, to_clear=, to_show=)]:
    the lines it prints and the new content. *)
Definition process_metadata_content (content : text)
    (to_set to_clear to_show : option (list string)) : list string * outcome text :=
  match fromstring content with
  | None => ([], Raised DocumentError)
  | Some root =>
      let desc := (fun i => [i]) <$> head (tagged "desc" (e_children root)) in
      let '(lines, shown) := show_loop root desc (default [] to_show) in
      match shown with
      | Done _ =>
          match clear_loop desc (default [] to_clear) root with
          | Done root1 =>
              match set_loop desc (default [] to_set) root1 with
              | Done root2 => (lines, Done (tostring root2))
              | Raised e => (lines, Raised e)
              | Unmodelled => (lines, Unmodelled)
              end
          | Raised e => (lines, Raised e)
          | Unmodelled => (lines, Unmodelled)
          end
      | Raised e => (lines, Raised e)
      | Unmodelled => (lines, Unmodelled)
      end
  end.

(** The argument that [process_file] gets for its [transform]. *)
Definition transform_of (to_set to_clear to_show : option (list string))
  : text -> option text :=
  fun content =>
    match (process_metadata_content content to_set to_clear to_show).2 with
    | Done new_content => Some new_content
    | _ => None
    end.
End Editing.

(** ** Concrete documents

    A stand-in for the parser and the serializer, for running the
    editing on small documents: elements without attributes, texts
    without markup characters, no declaration, comments or entities.
    An element without text and without children is written
    [<tag />]. *)
Definition some_text (bs : list byte) : option string :=
  match bs with
  | [] => None
  | _ :: _ => Some (string_of_list_byte bs)
  end.

(** The elements up to the next closing tag or the end, and what
    follows them. *)
Fixpoint parse_elements (fuel : nat) (bs : list byte) : option (list element * list byte) :=
  match fuel with
  | O => None
  | S fuel' =>
      match bs with
      | [] => Some ([], [])
      | _ :: after =>
          if starts_with [x3c; x2f] bs then Some ([], bs)
          else if starts_with [x3c] bs then
            let name := text_until x3e after in
            let tag := string_of_list_byte (text_until x2f (text_until x20 name)) in
            let rest := drop (S (length name)) after in
            if starts_with [x2f] (drop (length name - 1) name) then
              let tail := text_until x3c rest in
              '(sibs, rest') ← parse_elements fuel' (drop (length tail) rest);
              Some (Element tag [] None (some_text tail) [] :: sibs, rest')
            else
              let txt := text_until x3c rest in
              '(kids, rest1) ← parse_elements fuel' (drop (length txt) rest);
              let closing := [x3c; x2f] ++ name ++ [x3e] in
              if starts_with closing rest1 then
                let rest2 := drop (length closing) rest1 in
                let tail := text_until x3c rest2 in
                '(sibs, rest3) ← parse_elements fuel' (drop (length tail) rest2);
                Some (Element tag [] (some_text txt) (some_text tail) kids :: sibs, rest3)
              else None
          else None
      end
  end.

Definition sample_fromstring (bs : list byte) : option element :=
  match parse_elements (S (length bs)) bs with
  | Some ([root], []) => Some root
  | _ => None
  end.

Fixpoint sample_tostring (e : element) : list byte :=
  let tag := list_byte_of_string (e_tag e) in
  let inner :=
    list_byte_of_string (default EmptyString (e_text e))
    ++ flat_map sample_tostring (e_children e) in
  match inner with
  | [] => [x3c] ++ tag ++ [x20; x2f; x3e]
  | _ :: _ => [x3c] ++ tag ++ [x3e] ++ inner ++ [x3c; x2f] ++ tag ++ [x3e]
  end ++ list_byte_of_string (default EmptyString (e_tail e)).

Definition sample_codec : @XmlCodec sample_documents :=
  @Build_XmlCodec sample_documents sample_fromstring sample_tostring.

(** A document with two subjects, one of them with two ages. *)
Definition subjects_doc : string :=
  "<info><name>Metadata</name><desc><subject><age>31</age></subject><note>first</note><subject><age>27</age><age>28</age></subject></desc></info>".

(** A document with one subject that has two ages. *)
Definition one_subject_doc : string :=
  "<info><name>Metadata</name><desc><subject><age>27</age><id>s01</id><age>28</age></subject></desc></info>".

(** The processing of the document that a run on the sample files
    uses. *)
Definition sample_processing :
  list byte -> option (list string) -> option (list string) -> option (list string) ->
  option (list byte) :=
  fun content to_set to_clear to_show =>
    @transform_of sample_documents sample_codec to_set to_clear to_show content.

(** The transform of a run that sets the subject. *)
Definition sample_transform : list byte -> option (list byte) :=
  fun content => sample_processing content (Some ["subject=s02"%string]) None None.

(** A content of 2^32 - 6 bytes, all spaces: with the four bytes of the
    stream id and the two of the tag it makes a chunk whose length
    field has to hold 2^32. *)
Definition long_content : list byte := repeat x20 (Z.to_nat (2 ^ 32 - 6)).

(** * Properties *)

Lemma byte_to_Z_range b : 0 <= byte_to_Z b < 256.
Proof.
  unfold byte_to_Z. pose proof (Byte.to_N_bounded b). lia.
Qed.

Lemma byte_to_of_Z z : byte_to_Z (byte_of_Z z) = z mod 256.
Proof.
  unfold byte_to_Z, byte_of_Z.
  pose proof (Z.mod_pos_bound z 256 ltac:(lia)) as Hm.
  destruct (Byte.of_N (Z.to_N (z mod 256))) as [b|] eqn:E.
  - apply Byte.to_of_N in E. rewrite E. lia.
  - apply Byte.of_N_None_iff in E. lia.
Qed.

Lemma byte_of_to_Z b : byte_of_Z (byte_to_Z b) = b.
Proof.
  unfold byte_of_Z. pose proof (byte_to_Z_range b).
  rewrite Z.mod_small by lia. unfold byte_to_Z.
  rewrite N2Z.id, Byte.of_to_N. reflexivity.
Qed.

Lemma length_Z_to_le n v : length (Z_to_le n v) = n.
Proof. revert v. induction n as [|n IH]; intros v; simpl; [done|]. by rewrite IH. Qed.

Lemma le_to_Z_to_le n v :
  0 <= v < 2 ^ (8 * Z.of_nat n) -> le_to_Z (Z_to_le n v) = v.
Proof.
  revert v. induction n as [|n IH]; intros v Hv.
  - simpl in *. lia.
  - cbn [Z_to_le le_to_Z]. rewrite byte_to_of_Z.
    replace (8 * Z.of_nat (S n)) with (8 + 8 * Z.of_nat n) in Hv by lia.
    rewrite Z.pow_add_r in Hv by lia. change (2 ^ 8) with 256 in Hv.
    rewrite IH.
    + pose proof (Z.div_mod v 256 ltac:(lia)). lia.
    + split; [apply Z.div_pos; lia|].
      apply Z.div_lt_upper_bound; lia.
Qed.

Lemma le_to_Z_range bs : 0 <= le_to_Z bs < 2 ^ (8 * Z.of_nat (length bs)).
Proof.
  induction bs as [|b bs IH]; [simpl; lia|].
  cbn [le_to_Z length]. pose proof (byte_to_Z_range b).
  replace (8 * Z.of_nat (S (length bs))) with (8 + 8 * Z.of_nat (length bs)) by lia.
  rewrite Z.pow_add_r by lia. change (2 ^ 8) with 256. lia.
Qed.

Lemma unpack_pack_uint n v bs : pack_uint n v = Some bs -> unpack_uint n bs = Some v.
Proof.
  unfold pack_uint, unpack_uint. intros H.
  destruct (0 <=? v) eqn:E1; destruct (v <? 2 ^ (8 * Z.of_nat n)) eqn:E2;
    simpl in H; try discriminate.
  injection H as <-. rewrite length_Z_to_le.
  rewrite decide_True by done. f_equal. apply le_to_Z_to_le. lia.
Qed.

(** ** Running the primitives *)

Ltac mstep :=
  repeat (progress
    (unfold bind, tell, emit, ret, raise, lift_struct, try_except;
     cbn [w_fs w_inf w_outf w_log w_rng r_data r_pos
          set_inf set_log set_fs set_outf set_rng fst snd])).

Ltac world_eq :=
  repeat match goal with
         | |- (_, _) = (_, _) => f_equal
         | |- Ret _ = Ret _ => f_equal
         | |- World _ _ _ _ _ = World _ _ _ _ _ => f_equal
         | |- Reader _ _ = Reader _ _ => f_equal
         end; try lia; try done.

Lemma read_nonneg fs data pos outf log rng n :
  0 <= n ->
  read n (World fs (Reader data pos) outf log rng)
  = (Ret (take (Z.to_nat n) (drop pos data)),
     World fs (Reader data (pos + length (take (Z.to_nat n) (drop pos data)))) outf log rng).
Proof.
  intros Hn. unfold read. cbn [w_inf r_pos r_data set_inf w_fs w_outf w_log w_rng].
  destruct (n <? -1) eqn:E1; [lia|].
  destruct (n =? -1) eqn:E2; [lia|]. reflexivity.
Qed.

Lemma read_prefix fs data pos outf log rng bs rest n :
  drop pos data = bs ++ rest -> n = Z.of_nat (length bs) ->
  read n (World fs (Reader data pos) outf log rng)
  = (Ret bs, World fs (Reader data (pos + length bs)) outf log rng).
Proof.
  intros Hd ->. rewrite read_nonneg by lia. rewrite Hd, Nat2Z.id.
  by rewrite take_app_length.
Qed.

Lemma read_at_end fs data pos outf log rng n :
  drop pos data = [] -> -1 <= n ->
  read n (World fs (Reader data pos) outf log rng)
  = (Ret [], World fs (Reader data pos) outf log rng).
Proof.
  intros Hd Hn. unfold read. cbn [w_inf r_pos r_data set_inf w_fs w_outf w_log w_rng].
  destruct (n <? -1) eqn:E1; [lia|]. rewrite Hd.
  destruct (n =? -1); rewrite ?take_nil; cbn [length]; by rewrite Nat.add_0_r.
Qed.

Lemma read_to_end fs data pos outf log rng :
  read (-1) (World fs (Reader data pos) outf log rng)
  = (Ret (drop pos data),
     World fs (Reader data (pos + length (drop pos data))) outf log rng).
Proof. reflexivity. Qed.

Lemma read_negative fs data pos outf log rng n :
  n < -1 ->
  read n (World fs (Reader data pos) outf log rng)
  = (Raise ValueError, World fs (Reader data pos) outf log rng).
Proof.
  intros Hn. unfold read. cbn [w_inf]. destruct (n <? -1) eqn:E; [done|lia].
Qed.

Lemma seek_nonneg fs data pos outf log rng p :
  0 <= p ->
  seek p (World fs (Reader data pos) outf log rng)
  = (Ret tt, World fs (Reader data (Z.to_nat p)) outf log rng).
Proof.
  intros Hp. unfold seek. destruct (Z.ltb_spec p 0); [lia|]. reflexivity.
Qed.

Lemma tell_eq fs data pos outf log rng :
  tell (World fs (Reader data pos) outf log rng)
  = (Ret (Z.of_nat pos), World fs (Reader data pos) outf log rng).
Proof. reflexivity. Qed.

Lemma emit_eq fs inf outf log rng l m :
  emit l m (World fs inf outf log rng)
  = (Ret tt, World fs inf outf (log ++ [(l, m)]) rng).
Proof. reflexivity. Qed.

Lemma getsize_eq fs inf outf log rng path bs :
  fs !! path = Some bs ->
  getsize path (World fs inf outf log rng)
  = (Ret (Z.of_nat (length bs)), World fs inf outf log rng).
Proof. intros H. unfold getsize. cbn [w_fs]. by rewrite H. Qed.

Lemma drop_past data pos (bs rest : list byte) :
  drop pos data = bs ++ rest -> drop (pos + length bs) data = rest.
Proof. intros H. by rewrite <- drop_drop, H, drop_app_length. Qed.

Lemma drop_some_lt (data : list byte) pos b rest :
  drop pos data = b :: rest -> (pos < length data)%nat.
Proof.
  intros H. destruct (decide (pos < length data)%nat); [done|].
  rewrite drop_ge in H by lia. discriminate.
Qed.

(** ** Variable-length integers *)

Lemma unpack_uint_exact n bs :
  length bs = n -> unpack_uint n bs = Some (le_to_Z bs).
Proof. intros H. unfold unpack_uint. by rewrite decide_True. Qed.

Lemma unpack_uint_short n bs :
  length bs <> n -> unpack_uint n bs = None.
Proof. intros H. unfold unpack_uint. by rewrite decide_False. Qed.

Lemma read_varlen_int_frame fs data pos outf log rng lb L rest :
  varlen_frame lb L -> drop pos data = lb ++ rest ->
  read_varlen_int (World fs (Reader data pos) outf log rng)
  = (Ret L, World fs (Reader data (pos + length lb)) outf log rng).
Proof.
  intros HF Hd. unfold read_varlen_int.
  destruct HF as [b|bs Hl|bs Hl]; unfold bind.
  - rewrite (read_prefix _ _ _ _ _ _ [x01] (b :: rest)) by done.
    change (unpack_uint 1 [x01]) with (Some 1). mstep. change (1 =? 1) with true.
    cbv iota beta.
    rewrite (read_prefix _ _ _ _ _ _ [b] rest);
      [|by apply (drop_past _ _ [x01])|done].
    rewrite unpack_uint_exact by done. mstep.
    cbn [le_to_Z length]. world_eq.
  - rewrite (read_prefix _ _ _ _ _ _ [x04] (bs ++ rest)) by done.
    change (unpack_uint 1 [x04]) with (Some 4). mstep.
    change (4 =? 1) with false. change (4 =? 4) with true. cbv iota beta.
    rewrite (read_prefix _ _ _ _ _ _ bs rest);
      [|by apply (drop_past _ _ [x04])|by rewrite Hl].
    rewrite unpack_uint_exact by done. mstep.
    cbn [length]. world_eq.
  - rewrite (read_prefix _ _ _ _ _ _ [x08] (bs ++ rest)) by done.
    change (unpack_uint 1 [x08]) with (Some 8). mstep.
    change (8 =? 1) with false. change (8 =? 4) with false.
    change (8 =? 8) with true. cbv iota beta.
    rewrite (read_prefix _ _ _ _ _ _ bs rest);
      [|by apply (drop_past _ _ [x08])|by rewrite Hl].
    rewrite unpack_uint_exact by done. mstep.
    cbn [length]. world_eq.
Qed.

Lemma read_varlen_int_eof fs data pos outf log rng :
  drop pos data = [] ->
  read_varlen_int (World fs (Reader data pos) outf log rng)
  = (Raise StructError, World fs (Reader data pos) outf log rng).
Proof.
  intros Hd. unfold read_varlen_int, bind.
  rewrite read_at_end by (done || lia). reflexivity.
Qed.

Lemma pack_uint_in_range n v :
  0 <= v < 2 ^ (8 * Z.of_nat n) -> pack_uint n v = Some (Z_to_le n v).
Proof.
  intros H. unfold pack_uint.
  destruct (0 <=? v) eqn:E1; [|lia].
  destruct (v <? 2 ^ (8 * Z.of_nat n)) eqn:E2; [done|lia].
Qed.

Lemma pack_uint_out_of_range n v :
  v < 0 \/ 2 ^ (8 * Z.of_nat n) <= v -> pack_uint n v = None.
Proof.
  intros H. unfold pack_uint.
  destruct (0 <=? v) eqn:E1; [|done].
  destruct (v <? 2 ^ (8 * Z.of_nat n)) eqn:E2; [lia|done].
Qed.

(** What the encoder produces, tier by tier. *)
Lemma varlen_bytes_tier1 v :
  0 <= v <= 255 -> varlen_bytes v = Some [x01; byte_of_Z v].
Proof.
  intros H. unfold varlen_bytes. destruct (v <=? 255) eqn:E; [|lia].
  rewrite (pack_uint_in_range 1 v) by (change (2 ^ (8 * Z.of_nat 1)) with 256; lia).
  reflexivity.
Qed.

Lemma varlen_bytes_tier4 v :
  255 < v < 2 ^ 32 -> varlen_bytes v = Some (x04 :: Z_to_le 4 v).
Proof.
  intros H. unfold varlen_bytes. destruct (v <=? 255) eqn:E; [lia|].
  destruct (v <=? 68719476735) eqn:E'; [|lia].
  rewrite (pack_uint_in_range 4 v) by (change (2 ^ (8 * Z.of_nat 4)) with (2 ^ 32); lia).
  reflexivity.
Qed.

Lemma varlen_bytes_gap v :
  2 ^ 32 <= v <= 68719476735 -> varlen_bytes v = None.
Proof.
  intros H. unfold varlen_bytes. destruct (v <=? 255) eqn:E; [lia|].
  destruct (v <=? 68719476735) eqn:E'; [|lia].
  rewrite (pack_uint_out_of_range 4 v) by (change (2 ^ (8 * Z.of_nat 4)) with (2 ^ 32); lia).
  reflexivity.
Qed.

Lemma varlen_bytes_tier8 v :
  68719476735 < v < 2 ^ 64 -> varlen_bytes v = Some (x08 :: Z_to_le 8 v).
Proof.
  intros H. unfold varlen_bytes. destruct (v <=? 255) eqn:E; [lia|].
  destruct (v <=? 68719476735) eqn:E'; [lia|].
  rewrite (pack_uint_in_range 8 v) by (change (2 ^ (8 * Z.of_nat 8)) with (2 ^ 64); lia).
  reflexivity.
Qed.

Lemma varlen_bytes_negative v : v < 0 -> varlen_bytes v = None.
Proof.
  intros H. unfold varlen_bytes. destruct (v <=? 255) eqn:E; [|lia].
  rewrite (pack_uint_out_of_range 1 v) by lia. reflexivity.
Qed.

Lemma varlen_bytes_too_big v : 2 ^ 64 <= v -> varlen_bytes v = None.
Proof.
  intros H. unfold varlen_bytes. destruct (v <=? 255) eqn:E; [lia|].
  destruct (v <=? 68719476735) eqn:E'; [lia|].
  rewrite (pack_uint_out_of_range 8 v) by (change (2 ^ (8 * Z.of_nat 8)) with (2 ^ 64); lia).
  reflexivity.
Qed.

(** Whatever the encoder produces is a frame that decodes to the value. *)
Lemma varlen_bytes_frame v bs : varlen_bytes v = Some bs -> varlen_frame bs v.
Proof.
  intros H.
  destruct (Z_lt_le_dec v 0); [by rewrite varlen_bytes_negative in H|].
  destruct (Z_le_gt_dec v 255).
  { rewrite varlen_bytes_tier1 in H by lia. injection H as <-.
    pose proof (varlen_frame_1 (byte_of_Z v)) as F.
    rewrite byte_to_of_Z, Z.mod_small in F by lia. exact F. }
  destruct (Z_lt_le_dec v (2 ^ 32)).
  { rewrite varlen_bytes_tier4 in H by lia. injection H as <-.
    pose proof (varlen_frame_4 (Z_to_le 4 v) (length_Z_to_le 4 v)) as F.
    rewrite le_to_Z_to_le in F; [exact F|].
    change (2 ^ (8 * Z.of_nat 4)) with (2 ^ 32). lia. }
  destruct (Z_le_gt_dec v 68719476735); [rewrite varlen_bytes_gap in H; [done|lia]|].
  destruct (Z_lt_le_dec v (2 ^ 64)); [|rewrite varlen_bytes_too_big in H; [done|lia]].
  rewrite varlen_bytes_tier8 in H by lia. injection H as <-.
  pose proof (varlen_frame_8 (Z_to_le 8 v) (length_Z_to_le 8 v)) as F.
  rewrite le_to_Z_to_le in F; [exact F|].
  change (2 ^ (8 * Z.of_nat 8)) with (2 ^ 64). lia.
Qed.

(** Decoding what was encoded gives the value back, wherever the encoder
    does produce bytes. *)
Lemma read_varlen_int_varlen_bytes fs data pos outf log rng v bs rest :
  varlen_bytes v = Some bs -> drop pos data = bs ++ rest ->
  read_varlen_int (World fs (Reader data pos) outf log rng)
  = (Ret v, World fs (Reader data (pos + length bs)) outf log rng).
Proof.
  intros H Hd. eapply read_varlen_int_frame; [by apply varlen_bytes_frame|done].
Qed.

(** ** [bytes.find] *)

Lemma starts_with_app sub rest : starts_with sub (sub ++ rest) = true.
Proof. induction sub as [|a sub IH]; [done|]. cbn. by rewrite decide_True. Qed.

Lemma starts_with_inv sub s :
  starts_with sub s = true -> exists rest, s = sub ++ rest.
Proof.
  revert s. induction sub as [|a sub IH]; intros s H; [by exists s|].
  destruct s as [|b s]; [done|]. cbn in H.
  destruct (decide (a = b)) as [->|]; [|done].
  destruct (IH _ H) as [rest ->]. by exists rest.
Qed.

Lemma find_from_bounds i sub s :
  find_from i sub s = -1 \/ i <= find_from i sub s.
Proof.
  revert i. induction s as [|b s IH]; intros i; cbn [find_from].
  - destruct (starts_with sub []); lia.
  - destruct (starts_with sub (b :: s)); [lia|]. specialize (IH (i + 1)). lia.
Qed.

(** A match is an occurrence, and the first one. *)
Lemma find_from_found i sub s m :
  0 <= i -> find_from i sub s = m -> m <> -1 ->
  exists pre post,
    s = pre ++ sub ++ post /\ m = i + Z.of_nat (length pre) /\
    forall pre' post', s = pre' ++ sub ++ post' -> (length pre <= length pre')%nat.
Proof.
  revert i m. induction s as [|b s IH]; intros i m Hi Hf Hm; cbn [find_from] in Hf.
  - destruct (starts_with sub []) eqn:E; [|congruence].
    apply starts_with_inv in E as [rest E]. exists [], rest.
    repeat split; [done|cbn; lia|intros; cbn; lia].
  - destruct (starts_with sub (b :: s)) eqn:E.
    + apply starts_with_inv in E as [rest E]. exists [], rest.
      repeat split; [done|cbn; lia|intros; cbn; lia].
    + destruct (IH (i + 1) m ltac:(lia) Hf Hm) as (pre & post & -> & -> & Hmin).
      exists (b :: pre), post. repeat split; [cbn [length]; lia|].
      intros pre' post' Heq. destruct pre' as [|b' pre'].
      * cbn in Heq. rewrite Heq, starts_with_app in E. discriminate.
      * cbn in Heq. injection Heq as -> Heq. specialize (Hmin _ _ Heq). cbn. lia.
Qed.

(** No match: there is no occurrence. *)
Lemma find_from_none i sub s :
  0 <= i -> find_from i sub s = -1 ->
  forall pre post, s <> pre ++ sub ++ post.
Proof.
  revert i. induction s as [|b s IH]; intros i Hi Hf pre post Heq; cbn [find_from] in Hf.
  - destruct (starts_with sub []) eqn:E; [lia|].
    destruct pre; [|done]. cbn in Heq. rewrite Heq, starts_with_app in E. done.
  - destruct (starts_with sub (b :: s)) eqn:E; [lia|].
    destruct pre as [|b' pre].
    + cbn in Heq. rewrite Heq, starts_with_app in E. done.
    + cbn in Heq. injection Heq as -> Heq. by apply (IH (i + 1) ltac:(lia) Hf pre post).
Qed.

Lemma bytes_find_bounds s sub : bytes_find s sub = -1 \/ 0 <= bytes_find s sub.
Proof. apply find_from_bounds. Qed.

(** The signature does not start with a zero byte, so leading zeros are
    stepped over one at a time. *)
Lemma find_from_zeros i k l :
  find_from i signature (replicate k x00 ++ l) = find_from (i + Z.of_nat k) signature l.
Proof.
  revert i. induction k as [|k IH]; intros i.
  - cbn [replicate app]. f_equal. lia.
  - cbn [replicate app find_from]. change (starts_with signature (x00 :: _)) with false.
    cbv iota. rewrite IH. f_equal. lia.
Qed.

(** ** The scanner *)

Lemma blocklen_pos : 16 < blocklen.
Proof. reflexivity. Qed.

Lemma scan_forward_loop_found f fs data pos outf log rng m :
  bytes_find (take (Z.to_nat blocklen) (drop pos data)) signature = m ->
  m <> -1 ->
  scan_forward_loop (S f) (World fs (Reader data pos) outf log rng)
  = (Ret tt, World fs (Reader data (Z.to_nat (Z.of_nat pos + m + 15))) outf
               (log ++ [(DEBUG, Msg_scan_found)]) rng).
Proof.
  intros Hm Hne. pose proof blocklen_pos as Hb.
  cbn [scan_forward_loop]. mstep.
  rewrite read_nonneg by lia. rewrite Hm.
  destruct (Z.eqb_spec m (-1)); [lia|]. cbn [negb]. mstep.
  unfold seek. mstep.
  pose proof (bytes_find_bounds (take (Z.to_nat blocklen) (drop pos data)) signature).
  destruct (Z.ltb_spec (Z.of_nat pos + m + 15) 0); [lia|]. reflexivity.
Qed.

Lemma scan_forward_loop_eof f fs data pos outf log rng :
  bytes_find (take (Z.to_nat blocklen) (drop pos data)) signature = -1 ->
  (length (drop pos data) < Z.to_nat blocklen)%nat ->
  scan_forward_loop (S f) (World fs (Reader data pos) outf log rng)
  = (Ret tt, World fs (Reader data (pos + length (drop pos data))) outf
               (log ++ [(DEBUG, Msg_scan_eof)]) rng).
Proof.
  intros Hm Hl. pose proof blocklen_pos as Hb.
  cbn [scan_forward_loop]. mstep.
  rewrite read_nonneg by lia. rewrite Hm. cbn [Z.eqb negb]. cbv iota.
  rewrite take_ge by lia.
  destruct (Z.ltb_spec (Z.of_nat (length (drop pos data))) blocklen); [|lia].
  reflexivity.
Qed.

(** The next window starts where the last one ended: nothing is read twice. *)
Lemma scan_forward_loop_next f fs data pos outf log rng :
  bytes_find (take (Z.to_nat blocklen) (drop pos data)) signature = -1 ->
  (Z.to_nat blocklen <= length (drop pos data))%nat ->
  scan_forward_loop (S f) (World fs (Reader data pos) outf log rng)
  = scan_forward_loop f (World fs (Reader data (pos + Z.to_nat blocklen)) outf log rng).
Proof.
  intros Hm Hl. pose proof blocklen_pos as Hb.
  cbn [scan_forward_loop]. mstep.
  rewrite read_nonneg by lia. rewrite Hm. cbn [Z.eqb negb]. cbv iota.
  rewrite length_take_le by lia.
  destruct (Z.ltb_spec (Z.of_nat (Z.to_nat blocklen)) blocklen); [lia|].
  reflexivity.
Qed.

Lemma bytes_find_found s sub m :
  bytes_find s sub = m -> m <> -1 ->
  exists pre post,
    s = pre ++ sub ++ post /\ m = Z.of_nat (length pre) /\
    forall pre' post', s = pre' ++ sub ++ post' -> (length pre <= length pre')%nat.
Proof.
  intros H Hm. destruct (find_from_found 0 sub s m ltac:(lia) H Hm)
    as (pre & post & ? & ? & ?).
  exists pre, post. repeat split; [done|lia|done].
Qed.

Lemma bytes_find_none s sub :
  bytes_find s sub = -1 -> forall pre post, s <> pre ++ sub ++ post.
Proof. apply find_from_none. lia. Qed.

Lemma bytes_find_occurrence s sub pre post :
  s = pre ++ sub ++ post -> bytes_find s sub <> -1.
Proof. intros H E. by apply (bytes_find_none _ _ E pre post). Qed.

Lemma length_signature : length signature = 16%nat.
Proof. reflexivity. Qed.

Opaque blocklen.

(** Without an occurrence ahead of the cursor the scan ends at the end
    of the file, and says so; it does not raise. *)
Lemma scan_forward_loop_no_occurrence f fs data pos outf log rng :
  (length data - pos < f)%nat ->
  (forall pre post, drop pos data <> pre ++ signature ++ post) ->
  scan_forward_loop f (World fs (Reader data pos) outf log rng)
  = (Ret tt, World fs (Reader data (pos + length (drop pos data))) outf
               (log ++ [(DEBUG, Msg_scan_eof)]) rng).
Proof.
  pose proof blocklen_pos as Hb.
  revert pos. induction f as [|f IH]; intros pos Hf Hno; [lia|].
  assert (bytes_find (take (Z.to_nat blocklen) (drop pos data)) signature = -1) as Hm.
  { destruct (decide (bytes_find (take (Z.to_nat blocklen) (drop pos data)) signature = -1))
      as [|Hne]; [done|].
    destruct (bytes_find_found _ _ _ eq_refl Hne) as (pre & post & Heq & _).
    exfalso. apply (Hno pre (post ++ drop (Z.to_nat blocklen) (drop pos data))).
    rewrite <- (take_drop (Z.to_nat blocklen) (drop pos data)) at 1.
    rewrite Heq. by rewrite <- !app_assoc. }
  destruct (decide (length (drop pos data) < Z.to_nat blocklen)%nat) as [Hl|Hl].
  - by apply scan_forward_loop_eof.
  - rewrite scan_forward_loop_next by (done || lia).
    rewrite length_drop in Hl.
    rewrite IH.
    + world_eq. rewrite !length_drop. lia.
    + lia.
    + intros pre post Heq. rewrite <- drop_drop in Heq.
      apply (Hno (take (Z.to_nat blocklen) (drop pos data) ++ pre) post).
      rewrite <- (take_drop (Z.to_nat blocklen) (drop pos data)) at 1.
      rewrite Heq. by rewrite <- !app_assoc.
Qed.

Lemma scan_forward_no_occurrence fs data pos outf log rng :
  (forall pre post, drop pos data <> pre ++ signature ++ post) ->
  scan_forward (World fs (Reader data pos) outf log rng)
  = (Ret tt, World fs (Reader data (pos + length (drop pos data))) outf
               (log ++ [(DEBUG, Msg_scan_eof)]) rng).
Proof.
  intros H. unfold scan_forward. cbn [w_inf r_data].
  apply scan_forward_loop_no_occurrence; [lia|done].
Qed.

(** The scan always returns, with the cursor no further back than it was
    and within the file. *)
Lemma scan_forward_loop_returns f fs data pos outf log rng :
  (length data - pos < f)%nat ->
  exists pos' log',
    scan_forward_loop f (World fs (Reader data pos) outf log rng)
    = (Ret tt, World fs (Reader data pos') outf log' rng)
    /\ (pos <= pos')%nat /\ (pos' <= pos `max` length data)%nat.
Proof.
  pose proof blocklen_pos as Hb.
  revert pos. induction f as [|f IH]; intros pos Hf; [lia|].
  destruct (decide (bytes_find (take (Z.to_nat blocklen) (drop pos data)) signature = -1))
    as [Hm|Hne].
  - destruct (decide (length (drop pos data) < Z.to_nat blocklen)%nat) as [Hl|Hl].
    + eexists _, _. split; [by apply scan_forward_loop_eof|].
      rewrite length_drop. lia.
    + rewrite scan_forward_loop_next by (done || lia).
      rewrite length_drop in Hl.
      destruct (IH (pos + Z.to_nat blocklen)%nat ltac:(lia)) as (pos' & log' & -> & ? & ?).
      eexists _, _. split; [done|]. lia.
  - eexists _, _. split; [by eapply scan_forward_loop_found|].
    destruct (bytes_find_found _ _ _ eq_refl Hne) as (pre & post & Heq & Hm & _).
    apply (f_equal length) in Heq.
    rewrite length_take, length_drop, !length_app, length_signature in Heq.
    lia.
Qed.

Lemma scan_forward_returns fs data pos outf log rng :
  exists pos' log',
    scan_forward (World fs (Reader data pos) outf log rng)
    = (Ret tt, World fs (Reader data pos') outf log' rng)
    /\ (pos <= pos')%nat /\ (pos' <= pos `max` length data)%nat.
Proof.
  unfold scan_forward. cbn [w_inf r_data].
  apply scan_forward_loop_returns. lia.
Qed.

(** ** C2 *)

(** C2, a defect of the code.  The encoder guards its four-byte tier with the
    bound 0xFFFFFFFFF, nine hexadecimal digits: at 4294967296, one of the
    values of the round-trip property, [struct.pack('<BL', 4, i)] raises
    on every output handle, open or closed, and nothing is written,
    where the property asks for selector 8 and a round trip. *)
Theorem write_varlen_int_rejects_4294967296 fs inf o log rng :
  varlen_bytes 4294967296 = None /\
  write_varlen_int 4294967296 (World fs inf (Some o) log rng)
  = (Raise StructError, World fs inf (Some o) log rng).
Proof. split; reflexivity. Qed.

(** ** C4 *)

(** C4, a defect of the code.  On a match at offset [m] of the window the
    scanner seeks to [curpos + m + 15]: the cursor is left on the last
    byte of the signature, 0xE4, one byte short of the end of the
    marker. *)
Theorem scan_forward_stops_on_last_signature_byte fs data pos outf log rng m :
  bytes_find (take (Z.to_nat blocklen) (drop pos data)) signature = m ->
  m <> -1 ->
  exists pos',
    scan_forward (World fs (Reader data pos) outf log rng)
    = (Ret tt, World fs (Reader data pos') outf (log ++ [(DEBUG, Msg_scan_found)]) rng)
    /\ Z.of_nat pos' = Z.of_nat pos + m + 15
    /\ take 15 (drop (pos' - 15) data) = take 15 signature
    /\ data !! pos' = Some xe4.
Proof.
  intros Hm Hne. exists (Z.to_nat (Z.of_nat pos + m + 15)).
  destruct (bytes_find_found _ _ _ Hm Hne) as (pre & post & Heq & Hpre & _).
  assert (drop pos data
          = pre ++ signature ++ post ++ drop (Z.to_nat blocklen) (drop pos data)) as Hd.
  { rewrite <- (take_drop (Z.to_nat blocklen) (drop pos data)) at 1.
    rewrite Heq. by rewrite <- !app_assoc. }
  split; [|split; [lia|]].
  - unfold scan_forward. cbn [w_inf r_data]. by apply scan_forward_loop_found.
  - replace (Z.to_nat (Z.of_nat pos + m + 15)) with (pos + length pre + 15)%nat by lia.
    split.
    + replace (pos + length pre + 15 - 15)%nat with (pos + length pre)%nat by lia.
      rewrite (drop_past _ _ _ _ Hd). reflexivity.
    + rewrite <- (Nat.add_0_r (pos + length pre + 15)), <- lookup_drop.
      rewrite <- drop_drop, (drop_past _ _ _ _ Hd). reflexivity.
Qed.

Lemma scan_forward_stops_on_last_signature_byte_witness :
  bytes_find (take (Z.to_nat blocklen) (drop 0 (x00 :: signature ++ [x01]))) signature = 1
  /\ 1 <> -1
  /\ exists pos',
    scan_forward (World ∅ (Reader (x00 :: signature ++ [x01]) 0) None [] [])
    = (Ret tt, World ∅ (Reader (x00 :: signature ++ [x01]) pos') None
                 ([] ++ [(DEBUG, Msg_scan_found)]) [])
    /\ Z.of_nat pos' = Z.of_nat 0 + 1 + 15
    /\ take 15 (drop (pos' - 15) (x00 :: signature ++ [x01])) = take 15 signature
    /\ (x00 :: signature ++ [x01]) !! pos' = Some xe4.
Proof.
  split; [vm_compute; reflexivity|]. split; [lia|].
  apply (scan_forward_stops_on_last_signature_byte
           ∅ (x00 :: signature ++ [x01]) 0 None [] [] 1);
    [vm_compute; reflexivity | lia].
Defined.

(** ** C9 *)

Lemma length_straddling_source :
  length straddling_source = (Z.to_nat blocklen + 8)%nat.
Proof.
  pose proof blocklen_pos. unfold straddling_source.
  rewrite length_app, length_replicate, length_signature. lia.
Qed.

Lemma straddling_first_window :
  take (Z.to_nat blocklen) straddling_source
  = replicate (Z.to_nat (blocklen - 8)) x00 ++ take 8 signature.
Proof.
  pose proof blocklen_pos. unfold straddling_source.
  rewrite take_app, length_replicate, take_ge by (rewrite length_replicate; lia).
  replace (Z.to_nat blocklen - Z.to_nat (blocklen - 8))%nat with 8%nat by lia.
  reflexivity.
Qed.

Lemma straddling_second_window :
  drop (Z.to_nat blocklen) straddling_source = drop 8 signature.
Proof.
  pose proof blocklen_pos. unfold straddling_source.
  rewrite drop_app, length_replicate, drop_ge by (rewrite length_replicate; lia).
  cbn [app]. replace (Z.to_nat blocklen - Z.to_nat (blocklen - 8))%nat with 8%nat by lia.
  reflexivity.
Qed.

(** C9.  The windows of the scanner do not overlap: in
    [straddling_source] the signature lies across the end of the first
    window, neither window holds a whole occurrence, and the scan ends at
    the end of the file reporting no match. *)
Theorem scan_forward_misses_straddling_signature :
  exists data,
    (exists pre post, data = pre ++ signature ++ post)
    /\ bytes_find (take (Z.to_nat blocklen) data) signature = -1
    /\ bytes_find (take (Z.to_nat blocklen) (drop (Z.to_nat blocklen) data)) signature = -1
    /\ forall fs outf log rng,
         scan_forward (World fs (Reader data 0) outf log rng)
         = (Ret tt, World fs (Reader data (length data)) outf
                      (log ++ [(DEBUG, Msg_scan_eof)]) rng).
Proof.
  pose proof blocklen_pos as Hb.
  assert (bytes_find (take (Z.to_nat blocklen) straddling_source) signature = -1) as H1.
  { rewrite straddling_first_window. unfold bytes_find. rewrite find_from_zeros.
    generalize (0 + Z.of_nat (Z.to_nat (blocklen - 8))). intros i. reflexivity. }
  assert (bytes_find (take (Z.to_nat blocklen) (drop (Z.to_nat blocklen) straddling_source))
            signature = -1) as H2.
  { rewrite straddling_second_window, take_ge by (cbn; lia). reflexivity. }
  exists straddling_source. split; [|split; [exact H1|split; [exact H2|]]].
  { exists (replicate (Z.to_nat (blocklen - 8)) x00), [].
    unfold straddling_source. rewrite app_nil_r. reflexivity. }
  intros fs outf log rng. unfold scan_forward. cbn [w_inf r_data].
  rewrite scan_forward_loop_next;
    [|rewrite drop_0; exact H1|rewrite drop_0, length_straddling_source; lia].
  rewrite length_straddling_source.
  replace (Z.to_nat blocklen + 8)%nat with (S (Z.to_nat blocklen + 7)) at 1 by lia.
  rewrite Nat.add_0_l.
  rewrite scan_forward_loop_eof;
    [|rewrite straddling_second_window in H2 |- *;
      rewrite take_ge; [reflexivity|cbn [length drop signature]; lia]
     |rewrite straddling_second_window; cbn [length drop signature]; lia].
  rewrite straddling_second_window. cbn [length drop signature].
  world_eq.
Qed.

(** ** What a statement leaves alone *)

#[global] Instance same_files_refl : Reflexive same_files.
Proof. by intros w. Qed.

#[global] Instance same_files_trans : Transitive same_files.
Proof.
  intros w1 w2 w3 (H1 & H2 & H3) (H4 & H5 & H6). repeat split; congruence.
Qed.

Section Preserves.
Context (R : world -> world -> Prop) `{!Reflexive R, !Transitive R}.

Lemma preserves_ret {A} (a : A) : preserves R (ret a).
Proof. intros w. reflexivity. Qed.

Lemma preserves_raise {A} e : preserves R (@raise A e).
Proof. intros w. reflexivity. Qed.

Lemma preserves_out_of_fuel {A} : preserves R (@out_of_fuel A).
Proof. intros w. reflexivity. Qed.

Lemma preserves_bind {A B} (m : M A) (k : A -> M B) :
  preserves R m -> (forall a, preserves R (k a)) -> preserves R (bind m k).
Proof.
  intros Hm Hk w. unfold bind. specialize (Hm w).
  destruct (m w) as [[a|e| |] w1]; cbn [snd] in *; try done.
  etrans; [exact Hm|apply Hk].
Qed.

Lemma preserves_try_except {A} (m h : M A) :
  preserves R m -> preserves R h -> preserves R (try_except m h).
Proof.
  intros Hm Hh w. unfold try_except. specialize (Hm w).
  destruct (m w) as [[a|e| |] w1]; cbn [snd] in *; try done.
  etrans; [exact Hm|apply Hh].
Qed.

Lemma preserves_lift_struct {A} (o : option A) : preserves R (lift_struct o).
Proof. destruct o; [apply preserves_ret|apply preserves_raise]. Qed.

Lemma preserves_lift_doc {A} (o : option A) : preserves R (lift_doc o).
Proof. destruct o; [apply preserves_ret|apply preserves_raise]. Qed.
End Preserves.

Lemma tell_same_files : preserves same_files tell.
Proof. by intros w. Qed.

Lemma seek_same_files p : preserves same_files (seek p).
Proof. intros w. unfold seek. by destruct (p <? 0). Qed.

Lemma read_same_files n : preserves same_files (read n).
Proof. intros w. unfold read. by destruct (n <? -1). Qed.

Lemma emit_same_files l m : preserves same_files (emit l m).
Proof. by intros w. Qed.

Lemma getsize_same_files p : preserves same_files (getsize p).
Proof. intros w. unfold getsize. by destruct (w_fs w !! p). Qed.

Lemma fresh_stream_id_same_files ids : preserves same_files (fresh_stream_id ids).
Proof.
  intros w. unfold fresh_stream_id. by destruct (draw_fresh (w_rng w) ids) as [[k rest]|].
Qed.

Create HintDb frame.

#[global] Hint Resolve tell_same_files seek_same_files read_same_files emit_same_files
  getsize_same_files fresh_stream_id_same_files : frame.

Ltac frame_step :=
  first
    [ apply preserves_ret; typeclasses eauto
    | apply preserves_raise; typeclasses eauto
    | apply preserves_out_of_fuel; typeclasses eauto
    | apply preserves_lift_struct; typeclasses eauto
    | apply preserves_lift_doc; typeclasses eauto
    | solve [auto 1 with frame nocore]
    | apply preserves_bind; [typeclasses eauto | | intros ?]
    | apply preserves_try_except; [typeclasses eauto | | ]
    | match goal with
      | |- preserves _ (if ?b then _ else _) => destruct b
      | |- preserves _ (match ?x with _ => _ end) => destruct x
      end ].

Ltac frame := repeat frame_step.

Lemma read_varlen_int_same_files : preserves same_files read_varlen_int.
Proof. unfold read_varlen_int. frame. Qed.

Lemma scan_forward_loop_same_files f : preserves same_files (scan_forward_loop f).
Proof. induction f as [|f IH]; cbn [scan_forward_loop]; frame. Qed.

Lemma scan_forward_same_files : preserves same_files scan_forward.
Proof. intros w. unfold scan_forward. apply scan_forward_loop_same_files. Qed.

#[global] Hint Resolve read_varlen_int_same_files scan_forward_same_files : frame.

Section LocatorFrame.
Context {D : Documents}.

Lemma is_metadata_header_same_files name doc :
  preserves same_files (is_metadata_header name doc).
Proof. unfold is_metadata_header. frame. Qed.

Lemma log_found_stream_same_files name : preserves same_files (log_found_stream name).
Proof. unfold log_found_stream. frame. Qed.

Hint Resolve is_metadata_header_same_files log_found_stream_same_files : frame.

Lemma on_stream_header_same_files b c st :
  preserves same_files (on_stream_header b c st).
Proof. unfold on_stream_header. frame. Qed.

Lemma on_data_chunk_same_files st : preserves same_files (on_data_chunk st).
Proof. unfold on_data_chunk. frame. Qed.

Hint Resolve on_stream_header_same_files on_data_chunk_same_files : frame.

Lemma chunk_round_same_files fsz st : preserves same_files (chunk_round fsz st).
Proof. unfold chunk_round. frame. Qed.

Lemma traverse_same_files f fsz st : preserves same_files (traverse f fsz st).
Proof.
  revert st. induction f as [|f IH]; intros st; cbn [traverse]; [frame|].
  apply preserves_bind; [typeclasses eauto|apply chunk_round_same_files|].
  intros [[] st']; [apply IH|frame].
Qed.

Lemma traverse_chunks_same_files fsz : preserves same_files (traverse_chunks fsz).
Proof. intros w. unfold traverse_chunks. apply traverse_same_files. Qed.

Hint Resolve traverse_chunks_same_files : frame.

Lemma get_metadata_content_same_files p :
  preserves same_files (get_metadata_content p).
Proof. unfold get_metadata_content. frame. Qed.

End LocatorFrame.

Section Rounds.
Context {D : Documents}.

Lemma matches_metadata_inv doc b :
  matches_metadata doc = Some b ->
  exists name,
    info_field "name" doc = Some (Some name)
    /\ forall w, is_metadata_header (Some name) doc w = (Ret b, w).
Proof.
  unfold matches_metadata, is_metadata_header.
  destruct (info_field "name" doc) as [[name|]|]; [|done..].
  intros H. exists name. split; [done|]. intros w.
  destruct (decide (name = metadata_chunkname)) as [->|Hn].
  - rewrite decide_True by done. unfold bind, lift_doc.
    destruct (info_field "type" doc) as [ty|]; [|done]. by injection H as <-.
  - rewrite decide_False by congruence. by injection H as <-.
Qed.

(** A round on a frame header that decodes: the cursor is past the
    length field and the tag, and the tag decides what is run. *)
Lemma chunk_round_tagged fs data pos outf log rng fsz st lb L tagb rest :
  drop pos data = lb ++ tagb ++ rest -> varlen_frame lb L -> length tagb = 2%nat ->
  chunk_round fsz st (World fs (Reader data pos) outf log rng)
  = (if le_to_Z tagb =? ChunkTags.STREAM_HEADER_TAG then
       st' <- on_stream_header (Z.of_nat pos) L st ;; ret (Continue, st')
     else if (le_to_Z tagb =? ChunkTags.SAMPLES_TAG)
             || (le_to_Z tagb =? ChunkTags.STREAM_FOOTER_TAG) then
       st' <- on_data_chunk st ;; ret (Break, st')
     else
       read (L - 2) ;;; ret (Continue, st))
      (World fs (Reader data (pos + length lb + 2)) outf
         (log ++ [(DEBUG, Msg_read_tag (le_to_Z tagb)
                            (Z.of_nat (pos + length lb + 2)) L)]) rng).
Proof.
  intros Hd HF Ht. unfold chunk_round.
  unfold bind at 1. unfold tell at 1. cbn [w_inf r_pos].
  unfold bind at 1. unfold try_except. unfold bind at 1.
  rewrite (read_varlen_int_frame _ _ _ _ _ _ lb L (tagb ++ rest) HF Hd).
  unfold ret at 1.
  unfold bind at 1.
  rewrite (read_prefix _ _ _ _ _ _ tagb rest);
    [|by apply drop_past|by rewrite Ht].
  unfold bind at 1. rewrite unpack_uint_exact by done.
  unfold lift_struct, ret at 1.
  unfold bind at 1. unfold tell at 1. cbn [w_inf r_pos].
  unfold bind at 1. unfold emit at 1.
  cbn [set_log w_fs w_inf w_outf w_log w_rng]. rewrite Ht. reflexivity.
Qed.

Lemma chunk_round_eof fs data pos outf log rng fsz st :
  drop pos data = [] -> fsz - 1024 <= Z.of_nat pos ->
  chunk_round fsz st (World fs (Reader data pos) outf log rng)
  = (Ret (Break, st),
     World fs (Reader data pos) outf (log ++ [(DEBUG, Msg_reached_eof)]) rng).
Proof.
  intros Hd Hs. unfold chunk_round.
  unfold bind at 1. unfold tell at 1. cbn [w_inf r_pos].
  unfold bind at 1. unfold try_except. unfold bind at 1.
  rewrite read_varlen_int_eof by done.
  unfold bind at 1. unfold tell at 1. cbn [w_inf r_pos].
  destruct (Z.ltb_spec (Z.of_nat pos) (fsz - 1024)); [lia|].
  reflexivity.
Qed.

(** Skipping the content of a chunk with any other tag. *)
Lemma chunk_round_skip fs data pos outf log rng fsz st lb L tagb content rest :
  drop pos data = lb ++ tagb ++ content ++ rest ->
  varlen_frame lb L -> length tagb = 2%nat ->
  L = Z.of_nat (length content) + 2 ->
  le_to_Z tagb <> ChunkTags.STREAM_HEADER_TAG ->
  le_to_Z tagb <> ChunkTags.SAMPLES_TAG ->
  le_to_Z tagb <> ChunkTags.STREAM_FOOTER_TAG ->
  chunk_round fsz st (World fs (Reader data pos) outf log rng)
  = (Ret (Continue, st),
     World fs (Reader data (pos + length (lb ++ tagb ++ content))) outf
       (log ++ [(DEBUG, Msg_read_tag (le_to_Z tagb)
                          (Z.of_nat (pos + length lb + 2)) L)]) rng).
Proof.
  intros Hd HF Ht HL H2 H3 H6.
  rewrite (chunk_round_tagged _ _ _ _ _ _ _ _ lb L tagb (content ++ rest)) by done.
  destruct (Z.eqb_spec (le_to_Z tagb) ChunkTags.STREAM_HEADER_TAG); [done|].
  destruct (Z.eqb_spec (le_to_Z tagb) ChunkTags.SAMPLES_TAG); [done|].
  destruct (Z.eqb_spec (le_to_Z tagb) ChunkTags.STREAM_FOOTER_TAG); [done|].
  cbn [orb]. unfold bind.
  rewrite (read_prefix _ _ _ _ _ _ content rest).
  - unfold ret. world_eq. rewrite !length_app. lia.
  - replace (pos + length lb + 2)%nat with (pos + length (lb ++ tagb))%nat
      by (rewrite length_app; lia).
    apply drop_past. by rewrite <- app_assoc.
  - lia.
Qed.

(** A [Samples] or [StreamFooter] chunk ends the traversal. *)
Lemma chunk_round_data fs data pos outf log rng fsz st lb L tagb rest :
  drop pos data = lb ++ tagb ++ rest -> varlen_frame lb L -> length tagb = 2%nat ->
  le_to_Z tagb = ChunkTags.SAMPLES_TAG \/ le_to_Z tagb = ChunkTags.STREAM_FOOTER_TAG ->
  chunk_round fsz st (World fs (Reader data pos) outf log rng)
  = (st' <- on_data_chunk st ;; ret (Break, st'))
      (World fs (Reader data (pos + length lb + 2)) outf
         (log ++ [(DEBUG, Msg_read_tag (le_to_Z tagb)
                            (Z.of_nat (pos + length lb + 2)) L)]) rng).
Proof.
  intros Hd HF Ht Htag.
  rewrite (chunk_round_tagged _ _ _ _ _ _ _ _ lb L tagb rest) by done.
  destruct Htag as [-> | ->]; reflexivity.
Qed.

Lemma le_to_Z_tag tag : 0 <= tag < 65536 -> le_to_Z (Z_to_le 2 tag) = tag.
Proof. intros H. apply le_to_Z_to_le. change (2 ^ (8 * Z.of_nat 2)) with 65536. lia. Qed.

(** A round on a chunk of the header region. *)
Lemma chunk_round_region_chunk fs data pos outf log rng fsz st c rest :
  header_region_chunk c -> drop pos data = chunk_bytes c ++ rest ->
  exists log',
    chunk_round fsz st (World fs (Reader data pos) outf log rng)
    = (Ret (Continue, scan_chunk (Z.of_nat pos) c st),
       World fs (Reader data (pos + length (chunk_bytes c))) outf log' rng).
Proof.
  intros ((HF & Htag) & H3 & H6 & Hh) Hd. unfold chunk_bytes in *.
  rewrite <- !app_assoc in Hd.
  pose proof (le_to_Z_tag _ Htag) as Htg.
  pose proof (length_Z_to_le 2 (c_tag c)) as Hlt.
  destruct (decide (c_tag c = ChunkTags.STREAM_HEADER_TAG)) as [H2|H2].
  - destruct (Hh H2) as [Hlen [b Hb]].
    rewrite (chunk_round_tagged _ _ _ _ _ _ _ _ _ _ _ _ Hd HF Hlt).
    rewrite Htg. unfold scan_chunk.
    destruct (Z.eqb_spec (c_tag c) ChunkTags.STREAM_HEADER_TAG) as [_|]; [|done].
    assert (drop (pos + length (c_len c) + 2) data
            = take 4 (c_content c) ++ drop 4 (c_content c) ++ rest) as Hd'.
    { replace (pos + length (c_len c) + 2)%nat
        with (pos + length (c_len c ++ Z_to_le 2 (c_tag c)))%nat
        by (rewrite length_app; lia).
      rewrite (drop_past _ _ (c_len c ++ Z_to_le 2 (c_tag c))
                 (c_content c ++ rest)) by (by rewrite <- app_assoc).
      by rewrite app_assoc, take_drop. }
    assert (length (take 4 (c_content c)) = 4%nat) as Hl4
      by (rewrite length_take; lia).
    unfold on_stream_header. unfold bind at 1. unfold bind at 1.
    rewrite (read_prefix _ _ _ _ _ _ _ _ 4 Hd') by (rewrite Hl4; lia).
    unfold bind at 1. rewrite unpack_uint_exact by done.
    unfold lift_struct, ret at 1. unfold bind at 1.
    rewrite (read_prefix _ _ _ _ _ _ (drop 4 (c_content c)) rest);
      [|by apply drop_past|rewrite length_drop; lia].
    fold (document_of c). fold (stream_id_of c).
    destruct (matches_metadata_inv _ _ Hb) as (name & Hname & Htest).
    rewrite Hb.
    unfold bind at 1. rewrite Hname. unfold lift_doc, ret at 1.
    unfold bind at 1. rewrite Htest.
    assert (Z.of_nat (pos + length (c_len c) + 2 + length (take 4 (c_content c))
                      + length (drop 4 (c_content c))) - Z.of_nat pos
            = Z.of_nat (length (c_len c ++ Z_to_le 2 (c_tag c) ++ c_content c))) as Hspan.
    { rewrite !length_app, length_take, length_drop. lia. }
    assert ((pos + length (c_len c) + 2 + length (take 4 (c_content c))
             + length (drop 4 (c_content c)))%nat
            = (pos + length (c_len c ++ Z_to_le 2 (c_tag c) ++ c_content c))%nat) as Hpos.
    { rewrite !length_app, length_take, length_drop. lia. }
    destruct b; destruct st as [sb mb ml mc mi oi hm];
      destruct sb, mb; eexists; unfold log_found_stream, bind, ret, tell, emit;
      cbn [streamheaders_begin metadata_begin metadata_len metadata_content
           metadata_id other_ids has_more_than_one
           w_fs w_inf w_outf w_log w_rng r_data r_pos set_log];
      rewrite ?Hspan, Hpos; reflexivity.
  - eexists.
    rewrite (chunk_round_skip _ _ _ _ _ _ _ _ (c_len c)
               (Z.of_nat (length (c_content c)) + 2) (Z_to_le 2 (c_tag c))
               (c_content c) rest); try done; try congruence.
    unfold scan_chunk. destruct (Z.eqb_spec (c_tag c) ChunkTags.STREAM_HEADER_TAG); done.
Qed.
End Rounds.

Section Region.
Context {D : Documents}.

Lemma frames_cons c cs : frames (c :: cs) = chunk_bytes c ++ frames cs.
Proof. reflexivity. Qed.

Lemma frames_app a b : frames (a ++ b) = frames a ++ frames b.
Proof. unfold frames. by rewrite map_app, concat_app. Qed.

Lemma varlen_frame_length lb L : varlen_frame lb L -> (2 <= length lb)%nat.
Proof. intros [b|bs H|bs H]; cbn [length]; lia. Qed.

Lemma chunk_bytes_length c : well_framed c -> (4 <= length (chunk_bytes c))%nat.
Proof.
  intros [HF _]. apply varlen_frame_length in HF.
  unfold chunk_bytes. rewrite !length_app, length_Z_to_le. lia.
Qed.

Lemma frames_length cs :
  Forall header_region_chunk cs -> (length cs <= length (frames cs))%nat.
Proof.
  induction 1 as [|c cs [Hc _] _ IH]; [done|].
  rewrite frames_cons, length_app. cbn [length].
  pose proof (chunk_bytes_length c Hc). lia.
Qed.

(** The rounds over the chunks of a header region amount to
    [scan_region]. *)
Lemma traverse_region fs data outf rng fsz tail cs :
  Forall header_region_chunk cs ->
  forall st pos log f,
    drop pos data = frames cs ++ tail ->
    exists log',
      traverse (length cs + f) fsz st (World fs (Reader data pos) outf log rng)
      = traverse f fsz (scan_region (Z.of_nat pos) cs st)
          (World fs (Reader data (pos + length (frames cs))) outf log' rng).
Proof.
  induction 1 as [|c cs Hc _ IH]; intros st pos log f Hd.
  - exists log. cbn [length frames map concat scan_region Nat.add].
    by rewrite Nat.add_0_r.
  - rewrite frames_cons, <- app_assoc in Hd.
    destruct (chunk_round_region_chunk fs data pos outf log rng fsz st c _ Hc Hd)
      as [log1 Hr].
    destruct (IH (scan_chunk (Z.of_nat pos) c st) (pos + length (chunk_bytes c))%nat
                log1 f (drop_past _ _ _ _ Hd)) as [log2 Ht].
    exists log2. cbn [length Nat.add traverse]. unfold bind at 1. rewrite Hr.
    cbv iota beta. rewrite Ht. cbn [scan_region].
    rewrite frames_cons, length_app, Nat2Z.inj_add, Nat.add_assoc. reflexivity.
Qed.

(** At the end of the region with a metadata chunk on record, the
    traversal stops and keeps its variables. *)
Lemma traverse_boundary_recorded fs data outf rng pos log f st tail c :
  data_boundary tail -> drop pos data = tail ->
  metadata_content st = Some c ->
  exists pos' log',
    traverse (S f) (Z.of_nat (length data)) st (World fs (Reader data pos) outf log rng)
    = (Ret st, World fs (Reader data pos') outf log' rng).
Proof.
  intros [->|(lb & L & tagb & rest & -> & HF & Ht & Htag)] Hd Hc.
  - eexists _, _. cbn [traverse]. unfold bind.
    rewrite chunk_round_eof; [reflexivity|done|].
    apply (f_equal length) in Hd. rewrite length_drop in Hd. cbn [length] in Hd. lia.
  - eexists _, _. cbn [traverse]. unfold bind at 1.
    rewrite (chunk_round_data _ _ _ _ _ _ _ _ _ _ _ _ Hd HF Ht Htag).
    unfold on_data_chunk. rewrite Hc. reflexivity.
Qed.
End Region.

Section Duplicates.
Context {D : Documents}.

Lemma scan_region_app p a b st :
  scan_region p (a ++ b) st
  = scan_region (p + Z.of_nat (length (frames a))) b (scan_region p a st).
Proof.
  revert p st. induction a as [|c a IH]; intros p st.
  - cbn. by rewrite Z.add_0_r.
  - cbn [app scan_region]. rewrite IH, frames_cons, length_app, Nat2Z.inj_add, Z.add_assoc.
    reflexivity.
Qed.

(** Chunks that are not metadata headers leave the record empty. *)
Lemma scan_region_nothing_recorded p cs st :
  Forall header_region_chunk cs ->
  Forall (fun c => ~ is_metadata_chunk c) cs ->
  metadata_begin st = None ->
  metadata_begin (scan_region p cs st) = None
  /\ has_more_than_one (scan_region p cs st) = has_more_than_one st.
Proof.
  intros Hr. revert p st. induction Hr as [|c cs Hc _ IH]; intros p st Hn Hb; [done|].
  apply Forall_cons in Hn as [Hnc Hn]. cbn [scan_region].
  destruct Hc as (_ & _ & _ & Hh).
  assert (metadata_begin (scan_chunk p c st) = None
          /\ has_more_than_one (scan_chunk p c st) = has_more_than_one st) as [H1 H2].
  { unfold scan_chunk.
    destruct (Z.eqb_spec (c_tag c) ChunkTags.STREAM_HEADER_TAG) as [Ht|]; [|done].
    destruct (Hh Ht) as [_ [b Hb']]. rewrite Hb', Hb.
    destruct b; [|done]. exfalso. by apply Hnc. }
  destruct (IH (p + Z.of_nat (length (chunk_bytes c))) _ Hn H1) as [H3 H4].
  split; congruence.
Qed.

(** The first metadata header is put on record, with its span. *)
Lemma scan_chunk_first p c st :
  is_metadata_chunk c -> metadata_begin st = None ->
  let st' := scan_chunk p c st in
  metadata_begin st' = Some p
  /\ metadata_len st' = Some (Z.of_nat (length (chunk_bytes c)))
  /\ metadata_content st' = Some (document_of c)
  /\ metadata_id st' = Some (stream_id_of c)
  /\ has_more_than_one st' = has_more_than_one st.
Proof.
  intros [Ht Hm] Hb. unfold scan_chunk. rewrite Ht, Hm, Hb. cbn. done.
Qed.

(** Once a metadata header is on record, a chunk changes at most the
    flag and the other ids; a further metadata header sets the flag and
    adds its id. *)
Lemma scan_chunk_recorded p c st b :
  metadata_begin st = Some b ->
  let st' := scan_chunk p c st in
  metadata_begin st' = metadata_begin st
  /\ metadata_len st' = metadata_len st
  /\ metadata_content st' = metadata_content st
  /\ metadata_id st' = metadata_id st
  /\ (has_more_than_one st = true -> has_more_than_one st' = true)
  /\ (forall i, i ∈ other_ids st -> i ∈ other_ids st')
  /\ (is_metadata_chunk c ->
      has_more_than_one st' = true
      /\ other_ids st' = other_ids st ++ [stream_id_of c]).
Proof.
  intros Hb. unfold scan_chunk, is_metadata_chunk.
  destruct (Z.eqb_spec (c_tag c) ChunkTags.STREAM_HEADER_TAG) as [Ht|Ht].
  - rewrite Hb.
    destruct (matches_metadata (document_of c)) as [[]|];
      cbn [metadata_begin metadata_len metadata_content metadata_id
           has_more_than_one other_ids];
      (split; [done|split; [done|split; [done|split; [done|]]]]);
      (split; [done|split; [intros i Hi; apply elem_of_app; by left|]]);
      intros [_ Hm]; first [discriminate Hm | by split].
  - cbn. do 6 (split; [done|]). by intros [? _].
Qed.

Lemma scan_region_recorded p cs st b :
  metadata_begin st = Some b ->
  let st' := scan_region p cs st in
  metadata_begin st' = metadata_begin st
  /\ metadata_len st' = metadata_len st
  /\ metadata_content st' = metadata_content st
  /\ metadata_id st' = metadata_id st
  /\ (has_more_than_one st = true -> has_more_than_one st' = true)
  /\ (forall i, i ∈ other_ids st -> i ∈ other_ids st')
  /\ (forall c, c ∈ cs -> is_metadata_chunk c ->
      has_more_than_one st' = true /\ stream_id_of c ∈ other_ids st').
Proof.
  revert p st. induction cs as [|c cs IH]; intros p st Hb; cbn [scan_region].
  - do 6 (split; [done|]). intros c' Hc'. by apply elem_of_nil in Hc'.
  - destruct (scan_chunk_recorded p c st b Hb) as (H1 & H2 & H3 & H4 & H5 & H6 & H7).
    destruct (IH (p + Z.of_nat (length (chunk_bytes c))) (scan_chunk p c st))
      as (I1 & I2 & I3 & I4 & I5 & I6 & I7); [congruence|].
    do 4 (split; [congruence|]).
    split; [tauto|]. split; [intros i Hi; by auto|].
    intros c' Hc' Hm. apply elem_of_cons in Hc' as [->|Hc'].
    + destruct (H7 Hm) as [Hf Ho]. split; [tauto|].
      apply I6. rewrite Ho. apply elem_of_app. right. by apply list_elem_of_singleton.
    + apply (I7 c' Hc' Hm).
Qed.
End Duplicates.

Section DuplicateHeaders.
Context {D : Documents}.

(** The traversal of a header region with a first metadata header
    [c1] and a later one [c2]. *)
Lemma traverse_chunks_duplicate fs outf log rng pre c1 mid c2 post tail :
  let cs := pre ++ c1 :: mid ++ c2 :: post in
  let data := magic ++ frames cs ++ tail in
  Forall header_region_chunk cs ->
  Forall (fun c => ~ is_metadata_chunk c) pre ->
  is_metadata_chunk c1 -> is_metadata_chunk c2 ->
  data_boundary tail ->
  exists st pos' log',
    traverse_chunks (Z.of_nat (length data)) (World fs (Reader data 4) outf log rng)
    = (Ret st, World fs (Reader data pos') outf log' rng)
    /\ metadata_begin st = Some (4 + Z.of_nat (length (frames pre)))
    /\ metadata_len st = Some (Z.of_nat (length (chunk_bytes c1)))
    /\ metadata_content st = Some (document_of c1)
    /\ metadata_id st = Some (stream_id_of c1)
    /\ has_more_than_one st = true
    /\ forall c, c ∈ mid ++ c2 :: post -> is_metadata_chunk c ->
                 stream_id_of c ∈ other_ids st.
Proof.
  intros cs data Hcs Hpre Hc1 Hc2 Htail.
  assert (Forall header_region_chunk pre) as Hrpre.
  { unfold cs in Hcs. by apply Forall_app in Hcs as [? _]. }
  assert (drop 4 data = frames cs ++ tail) as Hd by reflexivity.
  assert (length cs <= length data)%nat as Hlen.
  { pose proof (frames_length cs Hcs). unfold data. rewrite !length_app. lia. }
  unfold traverse_chunks. cbn [w_inf r_data].
  replace (S (length data)) with (length cs + S (length data - length cs))%nat by lia.
  destruct (traverse_region fs data outf rng (Z.of_nat (length data)) tail cs Hcs
              scan_init 4%nat log (S (length data - length cs)) Hd) as [log1 ->].
  (* the variables after the region *)
  set (st_pre := scan_region (Z.of_nat 4) pre scan_init).
  set (p1 := Z.of_nat 4 + Z.of_nat (length (frames pre))).
  set (st_c1 := scan_chunk p1 c1 st_pre).
  assert (scan_region (Z.of_nat 4) cs scan_init
          = scan_region (p1 + Z.of_nat (length (chunk_bytes c1))) (mid ++ c2 :: post) st_c1)
    as Hreg.
  { unfold cs. by rewrite scan_region_app. }
  destruct (scan_region_nothing_recorded (Z.of_nat 4) pre scan_init Hrpre Hpre eq_refl)
    as [Hb0 Hf0]. fold st_pre in Hb0, Hf0.
  destruct (scan_chunk_first p1 c1 st_pre Hc1 Hb0) as (B1 & B2 & B3 & B4 & B5).
  fold st_c1 in B1, B2, B3, B4, B5.
  destruct (scan_region_recorded (p1 + Z.of_nat (length (chunk_bytes c1)))
              (mid ++ c2 :: post) st_c1 p1 B1) as (R1 & R2 & R3 & R4 & _ & _ & R7).
  rewrite <- Hreg in R1, R2, R3, R4, R7.
  set (st := scan_region (Z.of_nat 4) cs scan_init) in *.
  destruct (traverse_boundary_recorded fs data outf rng (4 + length (frames cs)) log1
              (length data - length cs) st tail (document_of c1) Htail)
    as (pos' & log' & Ht).
  { apply (drop_past _ _ _ _ Hd). }
  { congruence. }
  exists st, pos', log'. split; [exact Ht|].
  split; [rewrite R1, B1; unfold p1; f_equal; lia|].
  do 3 (split; [congruence|]).
  split.
  - apply (R7 c2); [|done]. apply elem_of_app. right. apply elem_of_cons. by left.
  - intros c Hc Hm. by apply (R7 c).
Qed.

(** ** C8 *)

End DuplicateHeaders.

Lemma two_metadata_headers_region :
  Forall (@header_region_chunk sample_documents) two_metadata_headers.
Proof.
  unfold two_metadata_headers.
  repeat (apply List.Forall_cons; [|try apply List.Forall_nil]);
    (split; [split; [vm_compute; constructor|cbn; lia]|]);
    (split; [intros [=]|split; [intros [=]|]]);
    intros H;
    first [ vm_compute in H; discriminate H
          | split; [vm_compute; lia|eexists; vm_compute; reflexivity] ].
Qed.



Lemma draw_fresh_spec draws ids k rest :
  draw_fresh draws ids = Some (k, rest) -> (k ∉ ids) /\ k ∈ draws.
Proof.
  induction draws as [|d draws IH]; cbn [draw_fresh]; [done|].
  destruct (decide (d ∈ ids)) as [Hd|Hd].
  - intros H. destruct (IH H) as [? ?]. split; [done|]. apply elem_of_cons. by right.
  - intros [= <- <-]. split; [done|]. apply elem_of_cons. by left.
Qed.

Section ShortAndData.
Context {D : Documents}.

(** Synthesis at a [Samples] or [StreamFooter] chunk: the insertion
    offset is whatever [streamheaders_begin] holds. *)
Lemma chunk_round_synthesizes fs data pos outf log rng fsz st lb L tagb rest k rng' :
  drop pos data = lb ++ tagb ++ rest -> varlen_frame lb L -> length tagb = 2%nat ->
  le_to_Z tagb = ChunkTags.SAMPLES_TAG \/ le_to_Z tagb = ChunkTags.STREAM_FOOTER_TAG ->
  metadata_content st = None ->
  draw_fresh rng (other_ids st) = Some (k, rng') ->
  chunk_round fsz st (World fs (Reader data pos) outf log rng)
  = (Ret (Break,
          Scan (streamheaders_begin st) (streamheaders_begin st) (Some 0)
            (Some metadata_default) (Some k) (other_ids st) (has_more_than_one st)),
     World fs (Reader data (pos + length lb + 2)) outf
       (log ++ [(DEBUG, Msg_read_tag (le_to_Z tagb)
                          (Z.of_nat (pos + length lb + 2)) L)]) rng').
Proof.
  intros Hd HF Ht Htag Hc Hk.
  rewrite (chunk_round_data _ _ _ _ _ _ _ _ _ _ _ _ Hd HF Ht Htag).
  unfold on_data_chunk. rewrite Hc. unfold bind, fresh_stream_id. cbn [w_rng].
  rewrite Hk. reflexivity.
Qed.

(** A round on a chunk with any other tag: the skip is
    [read(chunklen - 2)], whatever [chunklen] is. *)
Lemma chunk_round_other_tag fs data pos outf log rng fsz st lb L tagb rest :
  drop pos data = lb ++ tagb ++ rest -> varlen_frame lb L -> length tagb = 2%nat ->
  le_to_Z tagb <> ChunkTags.STREAM_HEADER_TAG ->
  le_to_Z tagb <> ChunkTags.SAMPLES_TAG ->
  le_to_Z tagb <> ChunkTags.STREAM_FOOTER_TAG ->
  chunk_round fsz st (World fs (Reader data pos) outf log rng)
  = (read (L - 2) ;;; ret (Continue, st))
      (World fs (Reader data (pos + length lb + 2)) outf
         (log ++ [(DEBUG, Msg_read_tag (le_to_Z tagb)
                            (Z.of_nat (pos + length lb + 2)) L)]) rng).
Proof.
  intros Hd HF Ht H2 H3 H6.
  rewrite (chunk_round_tagged _ _ _ _ _ _ _ _ lb L tagb rest) by done.
  destruct (Z.eqb_spec (le_to_Z tagb) ChunkTags.STREAM_HEADER_TAG); [done|].
  destruct (Z.eqb_spec (le_to_Z tagb) ChunkTags.SAMPLES_TAG); [done|].
  destruct (Z.eqb_spec (le_to_Z tagb) ChunkTags.STREAM_FOOTER_TAG); [done|].
  reflexivity.
Qed.

(** ** C10 *)

(** C10.  No round checks that the decoded length is at least 2.  For
    a chunk with any other tag and the decoded length 1 the skip is
    [read(-1)]: it reads up to the end of the file, nothing is raised,
    and the next round ends the traversal as at a clean end of file.
    For the decoded length 0 the skip is [read(-2)], which the buffered
    reader refuses: the round raises [ValueError]. *)
Theorem skip_of_short_chunk fs data pos outf log rng st lb L tagb rest :
  drop pos data = lb ++ tagb ++ rest -> varlen_frame lb L -> length tagb = 2%nat ->
  le_to_Z tagb <> ChunkTags.STREAM_HEADER_TAG ->
  le_to_Z tagb <> ChunkTags.SAMPLES_TAG ->
  le_to_Z tagb <> ChunkTags.STREAM_FOOTER_TAG ->
  let fsz := Z.of_nat (length data) in
  let seen := (DEBUG, Msg_read_tag (le_to_Z tagb) (Z.of_nat (pos + length lb + 2)) L) in
  (L = 1 ->
   chunk_round fsz st (World fs (Reader data pos) outf log rng)
   = (Ret (Continue, st), World fs (Reader data (length data)) outf (log ++ [seen]) rng)
   /\ forall f,
        traverse (S (S f)) fsz st (World fs (Reader data pos) outf log rng)
        = (Ret st, World fs (Reader data (length data)) outf
                     ((log ++ [seen]) ++ [(DEBUG, Msg_reached_eof)]) rng))
  /\ (L = 0 ->
      chunk_round fsz st (World fs (Reader data pos) outf log rng)
      = (Raise ValueError,
         World fs (Reader data (pos + length lb + 2)) outf (log ++ [seen]) rng)).
Proof.
  intros Hd HF Ht H2 H3 H6 fsz seen.
  pose proof (chunk_round_other_tag fs data pos outf log rng fsz st lb L tagb rest
                Hd HF Ht H2 H3 H6) as Hround.
  fold seen in Hround.
  assert (pos + length lb + 2 + length (drop (pos + length lb + 2) data)
          = length data)%nat as Hend.
  { apply (f_equal length) in Hd. rewrite length_drop, !length_app in Hd.
    rewrite length_drop. lia. }
  split.
  - intros ->.
    assert (chunk_round fsz st (World fs (Reader data pos) outf log rng)
            = (Ret (Continue, st),
               World fs (Reader data (length data)) outf (log ++ [seen]) rng)) as Hr.
    { rewrite Hround. unfold bind. change (1 - 2) with (-1).
      rewrite read_to_end, Hend. reflexivity. }
    split; [exact Hr|]. intros f. cbn [traverse]. unfold bind at 1. rewrite Hr.
    cbv iota beta. unfold bind at 1. rewrite chunk_round_eof.
    + reflexivity.
    + by apply drop_all.
    + unfold fsz. lia.
  - intros ->. rewrite Hround. unfold bind. change (0 - 2) with (-2).
    rewrite read_negative by lia. reflexivity.
Qed.
End ShortAndData.

Lemma skip_of_short_chunk_witness :
  drop 4 one_length_chunk = [x01; x01] ++ [x05; x00] ++ [x01; x02]
  /\ varlen_frame [x01; x01] 1
  /\ length [x05; x00] = 2%nat
  /\ le_to_Z [x05; x00] <> ChunkTags.STREAM_HEADER_TAG
  /\ le_to_Z [x05; x00] <> ChunkTags.SAMPLES_TAG
  /\ le_to_Z [x05; x00] <> ChunkTags.STREAM_FOOTER_TAG
  /\ (@chunk_round sample_documents (Z.of_nat (length one_length_chunk)) scan_init
        (World ∅ (Reader one_length_chunk 4) None [] [])
      = (Ret (Continue, scan_init),
         World ∅ (Reader one_length_chunk (length one_length_chunk)) None
           ([] ++ [(DEBUG, Msg_read_tag 5 8 1)]) [])).
Proof.
  split; [reflexivity|]. split; [exact (varlen_frame_1 x01)|]. split; [reflexivity|].
  split; [by vm_compute|]. split; [by vm_compute|]. split; [by vm_compute|].
  exact (proj1 (proj1 (@skip_of_short_chunk sample_documents ∅ one_length_chunk 4 None
                         [] [] scan_init [x01; x01] 1 [x05; x00] [x01; x02]
                         eq_refl (varlen_frame_1 x01) eq_refl
                         ltac:(by vm_compute) ltac:(by vm_compute) ltac:(by vm_compute))
                  eq_refl)).
Defined.

(** The decoded length 0 does not read to the end of the file: on
    [zero_length_chunk], whose only chunk has tag 5 and the length field
    0, the round raises, and so does the locator. *)
Lemma skip_of_zero_length_chunk_raises :
  varlen_frame [x01; x00] 0
  /\ le_to_Z [x05; x00] = 5
  /\ drop 4 zero_length_chunk = [x01; x00] ++ [x05; x00] ++ [x01; x02]
  /\ (@chunk_round sample_documents (Z.of_nat (length zero_length_chunk)) scan_init
        (World ∅ (Reader zero_length_chunk 4) None [] [])).1 = Raise ValueError
  /\ (@get_metadata_content sample_documents "in.xdf"
        (start_world "in.xdf" zero_length_chunk [])).1 = Raise ValueError
  /\ ~ exists r w,
         @chunk_round sample_documents (Z.of_nat (length zero_length_chunk)) scan_init
           (World ∅ (Reader zero_length_chunk 4) None [] []) = (Ret r, w).
Proof.
  split; [exact (varlen_frame_1 x00)|]. split; [reflexivity|]. split; [reflexivity|].
  split; [vm_compute; reflexivity|]. split; [vm_compute; reflexivity|].
  intros (r & w & H).
  rewrite (@chunk_round_other_tag sample_documents ∅ zero_length_chunk 4 None [] []
             (Z.of_nat (length zero_length_chunk)) scan_init
             [x01; x00] 0 [x05; x00] [x01; x02]) in H;
    [|reflexivity|exact (varlen_frame_1 x00)|reflexivity|by vm_compute..].
  unfold bind in H. rewrite read_negative in H by lia. discriminate H.
Qed.

(** ** C3 *)

(** C3, a defect of the code.  On [samples_only], where the first chunk
    after the file header is a [Samples] chunk, at offset 43, and no
    stream header came before it, the synthesized location has [None]
    for its begin offset, not 43: the insertion offset is taken from
    [streamheaders_begin], which was never set.  The splice that follows
    fails on it with [TypeError]. *)
Theorem samples_first_has_no_insertion_offset :
  drop 43 samples_only = samples_chunk
  /\ (@get_metadata_content sample_documents "in.xdf"
        (start_world "in.xdf" samples_only [12345])).1
     = Ret (Some (@metadata_default sample_documents), None, Some 0, Some 12345)
  /\ (@process_file sample_documents "in.xdf" (Some "out.xdf"%string)
        (fun _ => Some (list_byte_of_string edited_doc)) false
        (start_world "in.xdf" samples_only [12345])).1
     = Raise TypeError.
Proof. split; [reflexivity|]. split; vm_compute; reflexivity. Qed.

(** ** Copying *)

Lemma blocksize_pos : 0 < blocksize.
Proof. reflexivity. Qed.

Opaque blocksize.

Lemma write_eq fs inf p log rng written bs :
  fs !! p = Some written ->
  write bs (World fs inf (Some (Writer p false)) log rng)
  = (Ret tt, World (<[p := written ++ bs]> fs) inf (Some (Writer p false)) log rng).
Proof. intros H. unfold write. cbn [w_outf wr_closed wr_path w_fs]. by rewrite H. Qed.

Lemma write_read_eq fs data pos p log rng written n :
  fs !! p = Some written -> 0 <= n ->
  write_read n (World fs (Reader data pos) (Some (Writer p false)) log rng)
  = (Ret tt,
     World (<[p := written ++ take (Z.to_nat n) (drop pos data)]> fs)
       (Reader data (pos + length (take (Z.to_nat n) (drop pos data))))
       (Some (Writer p false)) log rng).
Proof.
  intros H Hn. unfold write_read. unfold bind at 1. cbn [w_outf].
  unfold bind at 1. rewrite read_nonneg by done.
  by apply write_eq.
Qed.

(** [copy_range] appends the next [n] bytes of the input to the output
    file, block by block. *)
Lemma copy_range_loop_spec f :
  forall n fs data pos p log rng written,
    0 <= n -> (pos + Z.to_nat n <= length data)%nat ->
    (Z.to_nat (n / blocksize) < f)%nat ->
    fs !! p = Some written ->
    copy_range_loop f n (World fs (Reader data pos) (Some (Writer p false)) log rng)
    = (Ret tt,
       World (<[p := written ++ take (Z.to_nat n) (drop pos data)]> fs)
         (Reader data (pos + Z.to_nat n)) (Some (Writer p false)) log rng).
Proof.
  pose proof blocksize_pos as Hb.
  induction f as [|f IH]; intros n fs data pos p log rng written Hn Hlen Hf Hp; [lia|].
  cbn [copy_range_loop].
  destruct (Z.geb_spec n blocksize) as [Hge|Hlt].
  - unfold bind. rewrite (write_read_eq _ _ _ _ _ _ written) by (done || lia).
    assert (length (take (Z.to_nat blocksize) (drop pos data)) = Z.to_nat blocksize) as Hl.
    { rewrite length_take, length_drop. lia. }
    rewrite Hl.
    assert ((n - blocksize) / blocksize = n / blocksize - 1) as Hdiv.
    { replace (n - blocksize) with (n + (-1) * blocksize) by lia.
      rewrite Z.div_add by lia. lia. }
    assert (0 <= n / blocksize - 1).
    { rewrite <- Hdiv. apply Z.div_pos; lia. }
    rewrite (IH (n - blocksize) _ _ _ _ _ _
               (written ++ take (Z.to_nat blocksize) (drop pos data)));
      [|lia|lia|rewrite Hdiv; lia|apply lookup_insert_eq].
    rewrite insert_insert_eq, <- app_assoc, <- drop_drop, take_take_drop.
    replace (Z.to_nat blocksize + Z.to_nat (n - blocksize))%nat with (Z.to_nat n) by lia.
    world_eq.
  - destruct (Z.eqb_spec n 0) as [->|Hne]; cbn [negb].
    + cbn [Z.to_nat]. rewrite take_0, app_nil_r, insert_id by done.
      unfold ret. world_eq.
    + rewrite (write_read_eq _ _ _ _ _ _ written) by (done || lia).
      rewrite length_take, length_drop. world_eq.
Qed.

Lemma open_rb_eq fs inf outf log rng path bs :
  fs !! path = Some bs ->
  open_rb path (World fs inf outf log rng)
  = (Ret tt, World fs (Reader bs 0) outf log rng).
Proof. intros H. unfold open_rb. cbn [w_fs]. by rewrite H. Qed.

Lemma open_wb_eq fs inf outf log rng path :
  open_wb path (World fs inf outf log rng)
  = (Ret tt, World (<[path := []]> fs) inf (Some (Writer path false)) log rng).
Proof. reflexivity. Qed.

Lemma path_exists_eq fs inf outf log rng path :
  path_exists path (World fs inf outf log rng)
  = (Ret (bool_decide (is_Some (fs !! path))), World fs inf outf log rng).
Proof. reflexivity. Qed.

Section ProcessFile.
Context {D : Documents}.

(** Up to the call of the locator, with an output path that may be
    written. *)
Lemma process_file_opened inpath p transform overwrite w data :
  w_fs w !! inpath = Some data -> p <> inpath -> p <> EmptyString ->
  overwrite = true \/ w_fs w !! p = None ->
  process_file inpath (Some p) transform overwrite w
  = try_finally
      (loc <- get_metadata_content inpath ;;
       splice inpath (Some p) transform (Z.of_nat (length data)) loc)
      close_if_open
      (opened_world inpath p data w).
Proof.
  intros Hin Hne Hnz Hok. destruct w as [fs inf outf log rng]. cbn [w_fs] in *.
  unfold process_file, opened_world. cbn [w_fs w_log w_rng].
  unfold bind at 1. rewrite emit_eq.
  unfold bind at 1. rewrite (getsize_eq _ _ _ _ _ _ _ Hin).
  unfold bind at 1. unfold set_outf. cbn [w_fs w_inf w_outf w_log w_rng].
  unfold try_finally, process_file_body.
  unfold bind at 1. rewrite (open_rb_eq _ _ _ _ _ _ _ Hin).
  unfold bind at 1. rewrite bool_decide_eq_false_2 by congruence. unfold ret at 1.
  unfold bind at 1. unfold path_truthy. rewrite bool_decide_eq_false_2 by done.
  cbn [negb]. unfold bind at 1. rewrite path_exists_eq.
  assert (negb overwrite && bool_decide (is_Some (fs !! p)) = false) as ->.
  { destruct Hok as [-> | Hnone]; [done|]. rewrite Hnone.
    rewrite bool_decide_eq_false_2; [by destruct overwrite|]. by intros [? [=]]. }
  rewrite open_wb_eq. reflexivity.
Qed.

(** Without an output path the locator is called on the input as it is. *)
Lemma process_file_no_output inpath outpath transform overwrite w data :
  w_fs w !! inpath = Some data -> path_truthy outpath = false ->
  outpath <> Some inpath ->
  process_file inpath outpath transform overwrite w
  = try_finally
      (loc <- get_metadata_content inpath ;;
       splice inpath outpath transform (Z.of_nat (length data)) loc)
      close_if_open
      (World (w_fs w) (Reader data 0) None
         (w_log w ++ [(INFO, Msg_processing inpath)]) (w_rng w)).
Proof.
  intros Hin Hp Hne. destruct w as [fs inf outf log rng]. cbn [w_fs w_log w_rng] in *.
  unfold process_file.
  unfold bind at 1. rewrite emit_eq.
  unfold bind at 1. rewrite (getsize_eq _ _ _ _ _ _ _ Hin).
  unfold bind at 1. unfold set_outf. cbn [w_fs w_inf w_outf w_log w_rng].
  unfold try_finally, process_file_body.
  unfold bind at 1. rewrite (open_rb_eq _ _ _ _ _ _ _ Hin).
  unfold bind at 1. rewrite bool_decide_eq_false_2 by done. unfold ret at 1.
  unfold bind at 1. rewrite Hp. unfold ret at 1. reflexivity.
Qed.

(** The locator on a file that does not start with the magic. *)
Lemma get_metadata_content_bad_magic filepath fs data pos outf log rng bs :
  fs !! filepath = Some bs -> take 4 data <> magic ->
  get_metadata_content filepath (World fs (Reader data pos) outf log rng)
  = (Raise InvalidContainer,
     World fs (Reader data (length (take 4 data))) outf log rng).
Proof.
  intros Hfs Hm. unfold get_metadata_content.
  unfold bind at 1. rewrite (getsize_eq _ _ _ _ _ _ _ Hfs).
  unfold bind at 1. rewrite tell_eq.
  unfold bind at 1. rewrite seek_nonneg by lia. change (Z.to_nat 0) with 0%nat.
  unfold bind at 1. rewrite read_nonneg by lia. change (Z.to_nat 4) with 4%nat.
  rewrite drop_0, bool_decide_eq_false_2 by done. reflexivity.
Qed.

(** An input that does not start with 'XDF:' (a shorter one
    included), processed with an output path that may be written or
    with none: [process_file] raises the exception of the locator;
    the input file is as it was, and the output file, which was
    opened before the locator ran, is empty. *)
Lemma process_file_bad_magic_opened inpath outpath transform overwrite w data :
  w_fs w !! inpath = Some data ->
  take 4 data <> magic ->
  outpath <> Some inpath ->
  (forall p, outpath = Some p -> overwrite = true \/ w_fs w !! p = None) ->
  exists w',
    process_file inpath outpath transform overwrite w = (Raise InvalidContainer, w')
    /\ w_fs w' !! inpath = Some data
    /\ w_fs w' = (if path_truthy outpath
                  then match outpath with
                       | Some p => <[p := []]> (w_fs w)
                       | None => w_fs w
                       end
                  else w_fs w).
Proof.
  intros Hin Hm Hne Hok.
  destruct (path_truthy outpath) eqn:Hp.
  - destruct outpath as [p|]; [|done].
    assert (p <> EmptyString) as Hnz.
    { intros ->. discriminate Hp. }
    assert (p <> inpath) as Hne' by congruence.
    rewrite (process_file_opened inpath p transform overwrite w data)
      by (done || by apply Hok).
    unfold try_finally, opened_world. unfold bind.
    rewrite (get_metadata_content_bad_magic _ _ _ _ _ _ _ data);
      [|by rewrite lookup_insert_ne|done].
    unfold close_if_open, close_outf, set_outf.
    cbn [w_fs w_inf w_outf w_log w_rng wr_closed wr_path].
    eexists. split; [reflexivity|]. cbn [w_fs].
    split; [by rewrite lookup_insert_ne|done].
  - rewrite (process_file_no_output inpath outpath transform overwrite w data) by done.
    unfold try_finally, bind.
    rewrite (get_metadata_content_bad_magic _ _ _ _ _ _ _ data) by done.
    unfold close_if_open. cbn [w_outf].
    eexists. split; [reflexivity|]. cbn [w_fs]. done.
Qed.
End ProcessFile.

(** ** The cursor during the traversal *)

#[global] Instance advances_refl : Reflexive advances.
Proof. intros w. unfold advances. auto. Qed.

#[global] Instance advances_trans : Transitive advances.
Proof.
  intros w1 w2 w3 (H1 & H2 & H3) (H4 & H5 & H6). unfold advances.
  rewrite H1 in *. repeat split; [congruence|lia|]. intros H. auto.
Qed.

Lemma tell_advances : preserves advances tell.
Proof. intros w. reflexivity. Qed.

Lemma emit_advances l m : preserves advances (emit l m).
Proof. intros w. unfold advances. cbn. auto. Qed.

Lemma getsize_advances p : preserves advances (getsize p).
Proof. intros w. unfold getsize. destruct (w_fs w !! p); reflexivity. Qed.

Lemma fresh_stream_id_advances ids : preserves advances (fresh_stream_id ids).
Proof.
  intros w. unfold fresh_stream_id, advances.
  destruct (draw_fresh (w_rng w) ids) as [[k rest]|]; cbn; auto.
Qed.

Lemma read_advances n : preserves advances (read n).
Proof.
  intros [fs [data pos] outf log rng]. unfold read, advances.
  cbn [w_inf r_data r_pos].
  destruct (n <? -1); cbn [snd w_inf r_data r_pos set_inf]; [auto|].
  split; [done|]. split; [lia|]. intros Hp.
  destruct (n =? -1); rewrite ?length_take, length_drop; lia.
Qed.

Lemma scan_forward_advances : preserves advances scan_forward.
Proof.
  intros [fs [data pos] outf log rng].
  destruct (scan_forward_returns fs data pos outf log rng) as (pos' & log' & -> & H1 & H2).
  unfold advances. cbn. split; [done|]. split; [done|]. lia.
Qed.

Create HintDb cursor.

#[global] Hint Resolve tell_advances emit_advances getsize_advances
  fresh_stream_id_advances read_advances scan_forward_advances : cursor.

Ltac cursor_step :=
  first
    [ apply preserves_ret; typeclasses eauto
    | apply preserves_raise; typeclasses eauto
    | apply preserves_out_of_fuel; typeclasses eauto
    | apply preserves_lift_struct; typeclasses eauto
    | apply preserves_lift_doc; typeclasses eauto
    | solve [auto 1 with cursor nocore]
    | apply preserves_bind; [typeclasses eauto | | intros ?]
    | apply preserves_try_except; [typeclasses eauto | | ]
    | match goal with
      | |- preserves _ (if ?b then _ else _) => destruct b
      | |- preserves _ (match ?x with _ => _ end) => destruct x
      end ].

Ltac cursor := repeat cursor_step.

Lemma read_varlen_int_advances : preserves advances read_varlen_int.
Proof. unfold read_varlen_int. cursor. Qed.

#[global] Hint Resolve read_varlen_int_advances : cursor.

(** ** Reading a result backwards *)

Lemma bind_ret_inv {A B} (m : M A) (k : A -> M B) w b w' :
  bind m k w = (Ret b, w') ->
  exists a w1, m w = (Ret a, w1) /\ k a w1 = (Ret b, w').
Proof.
  unfold bind. destruct (m w) as [[a|e| |] w1]; try done. intros H. by exists a, w1.
Qed.

Lemma try_except_ret_inv {A} (m h : M A) w a w' :
  try_except m h w = (Ret a, w') ->
  m w = (Ret a, w') \/ exists e w1, m w = (Raise e, w1) /\ h w1 = (Ret a, w').
Proof.
  unfold try_except. destruct (m w) as [[a'|e| |] w1]; try done.
  - intros [= -> ->]. by left.
  - intros H. right. by exists e, w1.
Qed.

Lemma ret_inv {A} (a b : A) w w' : ret a w = (Ret b, w') -> a = b /\ w = w'.
Proof. by intros [= -> ->]. Qed.

Lemma lift_struct_ret_inv {A} (o : option A) w a w' :
  lift_struct o w = (Ret a, w') -> o = Some a /\ w = w'.
Proof. destruct o; [by intros [= -> ->]|done]. Qed.

Lemma lift_doc_ret_inv {A} (o : option A) w a w' :
  lift_doc o w = (Ret a, w') -> o = Some a /\ w = w'.
Proof. destruct o; [by intros [= -> ->]|done]. Qed.

Lemma preserves_run {A} R (m : M A) w r w' :
  preserves R m -> m w = (r, w') -> R w w'.
Proof. intros H E. specialize (H w). by rewrite E in H. Qed.

Section SpanInvariant.
Context {D : Documents}.

Lemma is_metadata_header_advances name doc :
  preserves advances (is_metadata_header name doc).
Proof. unfold is_metadata_header. cursor. Qed.

Lemma log_found_stream_advances name : preserves advances (log_found_stream name).
Proof. unfold log_found_stream. cursor. Qed.

Hint Resolve is_metadata_header_advances log_found_stream_advances : cursor.

Lemma on_stream_header_advances b c st : preserves advances (on_stream_header b c st).
Proof. unfold on_stream_header. cursor. Qed.

Lemma on_data_chunk_advances st : preserves advances (on_data_chunk st).
Proof. unfold on_data_chunk. cursor. Qed.

Hint Resolve on_stream_header_advances on_data_chunk_advances : cursor.

Lemma chunk_round_advances fsz st : preserves advances (chunk_round fsz st).
Proof. unfold chunk_round. cursor. Qed.

Lemma traverse_advances f fsz st : preserves advances (traverse f fsz st).
Proof.
  revert st. induction f as [|f IH]; intros st; cbn [traverse]; [cursor|].
  apply preserves_bind; [typeclasses eauto|apply chunk_round_advances|].
  intros [[] st']; [apply IH|cursor].
Qed.

Lemma span_ok_init n : span_ok n scan_init.
Proof. split; intros b [=]. Qed.

Lemma on_stream_header_span b c st w st' w' :
  on_stream_header b c st w = (Ret st', w') ->
  0 <= b <= Z.of_nat (r_pos (w_inf w)) ->
  (r_pos (w_inf w) <= length (r_data (w_inf w)))%nat ->
  span_ok (length (r_data (w_inf w))) st ->
  span_ok (length (r_data (w_inf w))) st'.
Proof.
  intros H Hb Hp [Hs Hm]. unfold on_stream_header in H.
  apply bind_ret_inv in H as (idb & w1 & E1 & H).
  apply bind_ret_inv in H as (sid & w1' & E2 & H).
  apply lift_struct_ret_inv in E2 as [_ <-].
  apply bind_ret_inv in H as (xml & w2 & E3 & H).
  apply bind_ret_inv in H as (name & w2' & E3' & H).
  apply lift_doc_ret_inv in E3' as [_ <-].
  apply bind_ret_inv in H as (is_meta & w3 & E4 & H).
  apply bind_ret_inv in H as (st2 & w4 & E5 & H).
  apply bind_ret_inv in H as ([] & w5 & _ & H).
  apply ret_inv in H as [-> _].
  pose proof (preserves_run _ _ _ _ _ (read_advances 4) E1) as A1.
  pose proof (preserves_run _ _ _ _ _ (read_advances _) E3) as A2.
  pose proof (preserves_run _ _ _ _ _ (is_metadata_header_advances _ _) E4) as A3.
  assert (advances w w3) as (_ & A4 & A5) by (do 2 (etrans; [eassumption|]); done).
  specialize (A5 Hp).
  assert (forall b0, streamheaders_begin st = Some b0 \/ (Some b = Some b0) ->
                     0 <= b0 <= Z.of_nat (length (r_data (w_inf w)))) as Hs''.
  { intros b0 [Hb0|[= <-]]; [by apply Hs|lia]. }
  destruct is_meta.
  - destruct (streamheaders_begin st) as [b1|] eqn:Eb;
      cbn [metadata_begin streamheaders_begin] in E5;
      destruct (metadata_begin st) as [mb|] eqn:Em.
    + apply ret_inv in E5 as [<- _]. split; cbn.
      * intros b0 Hb0. apply Hs''. left. congruence.
      * intros b0 Hb0. apply Hm. congruence.
    + apply bind_ret_inv in E5 as (p & w3' & Et & E5).
      apply ret_inv in E5 as [<- _]. injection Et as <- _.
      split; cbn.
      * intros b0 Hb0. apply Hs''. left. congruence.
      * intros b0 [= <-]. eexists. split; [done|]. lia.
    + apply ret_inv in E5 as [<- _]. split; cbn.
      * intros b0 Hb0. apply Hs''. by right.
      * intros b0 Hb0. apply Hm. congruence.
    + apply bind_ret_inv in E5 as (p & w3' & Et & E5).
      apply ret_inv in E5 as [<- _]. injection Et as <- _.
      split; cbn.
      * intros b0 Hb0. apply Hs''. by right.
      * intros b0 [= <-]. eexists. split; [done|]. lia.
  - apply ret_inv in E5 as [<- _].
    destruct (streamheaders_begin st) as [b1|] eqn:Eb; split; cbn.
    + intros b0 Hb0. apply Hs''. left. congruence.
    + exact Hm.
    + intros b0 Hb0. apply Hs''. by right.
    + exact Hm.
Qed.

Lemma on_data_chunk_span n st w st' w' :
  on_data_chunk st w = (Ret st', w') -> span_ok n st -> span_ok n st'.
Proof.
  intros H [Hs Hm]. unfold on_data_chunk in H.
  destruct (metadata_content st).
  - apply ret_inv in H as [<- _]. by split.
  - apply bind_ret_inv in H as (k & w1 & _ & H). apply ret_inv in H as [<- _].
    split; cbn; [exact Hs|]. intros b Hb. exists 0. split; [done|].
    specialize (Hs b Hb). lia.
Qed.

Lemma chunk_round_span fsz st w fl st' w' :
  chunk_round fsz st w = (Ret (fl, st'), w') ->
  (r_pos (w_inf w) <= length (r_data (w_inf w)))%nat ->
  span_ok (length (r_data (w_inf w))) st ->
  span_ok (length (r_data (w_inf w))) st'.
Proof.
  intros H Hp Hok. unfold chunk_round in H.
  apply bind_ret_inv in H as (bp & w0 & Et & H). injection Et as <- <-.
  apply bind_ret_inv in H as (r & w1 & E1 & H).
  destruct r as [chunklen|f]; [|by apply ret_inv in H as [[= _ <-] _]].
  apply try_except_ret_inv in E1 as [E1|(e & w1' & _ & E1)].
  2:{ apply bind_ret_inv in E1 as (p & w2 & _ & E1).
      destruct (p <? fsz - 1024).
      - apply bind_ret_inv in E1 as (? & ? & _ & E1).
        apply bind_ret_inv in E1 as (? & ? & _ & E1).
        by apply ret_inv in E1 as [[=] _].
      - apply bind_ret_inv in E1 as (? & ? & _ & E1).
        by apply ret_inv in E1 as [[=] _]. }
  apply bind_ret_inv in E1 as (c & w1' & E1 & Er).
  apply ret_inv in Er as [[= ->] ->].
  apply bind_ret_inv in H as (tagb & w2 & E2 & H).
  apply bind_ret_inv in H as (tag & w2' & E3 & H).
  apply lift_struct_ret_inv in E3 as [_ <-].
  apply bind_ret_inv in H as (p & w2' & Et & H). injection Et as <- <-.
  apply bind_ret_inv in H as ([] & w3 & E4 & H).
  pose proof (preserves_run _ _ _ _ _ read_varlen_int_advances E1) as A1.
  pose proof (preserves_run _ _ _ _ _ (read_advances _) E2) as A2.
  pose proof (preserves_run _ _ _ _ _ (emit_advances _ _) E4) as A3.
  assert (advances w w3) as (Ad & A4 & A5) by (do 2 (etrans; [eassumption|]); done).
  specialize (A5 Hp).
  destruct (tag =? ChunkTags.STREAM_HEADER_TAG).
  - apply bind_ret_inv in H as (st1 & w4 & E5 & H).
    apply ret_inv in H as [[= _ <-] _].
    rewrite <- Ad in *. eapply on_stream_header_span; [exact E5|lia|lia|done].
  - destruct ((tag =? ChunkTags.SAMPLES_TAG) || (tag =? ChunkTags.STREAM_FOOTER_TAG)).
    + apply bind_ret_inv in H as (st1 & w4 & E5 & H).
      apply ret_inv in H as [[= _ <-] _].
      by eapply on_data_chunk_span.
    + apply bind_ret_inv in H as (? & w4 & _ & H).
      by apply ret_inv in H as [[= _ <-] _].
Qed.

Lemma traverse_span f fsz : forall st w st' w',
  traverse f fsz st w = (Ret st', w') ->
  (r_pos (w_inf w) <= length (r_data (w_inf w)))%nat ->
  span_ok (length (r_data (w_inf w))) st ->
  span_ok (length (r_data (w_inf w))) st'.
Proof.
  induction f as [|f IH]; intros st w st' w' H Hp Hok; cbn [traverse] in H; [done|].
  apply bind_ret_inv in H as ([fl st1] & w1 & E1 & H).
  pose proof (chunk_round_span _ _ _ _ _ _ E1 Hp Hok) as Hok1.
  pose proof (preserves_run _ _ _ _ _ (chunk_round_advances _ _) E1) as (Ad & _ & A).
  destruct fl.
  - rewrite <- Ad in *. eapply IH; [exact H|by apply A|done].
  - by apply ret_inv in H as [<- _].
Qed.

(** A span that the locator returns lies within the file. *)
Lemma get_metadata_content_span filepath w c b l i w' :
  get_metadata_content filepath w = (Ret (c, Some b, Some l, i), w') ->
  0 <= b /\ 0 <= l /\ b + l <= Z.of_nat (length (r_data (w_inf w))).
Proof.
  intros H. unfold get_metadata_content in H.
  apply bind_ret_inv in H as (fsz & w1 & E1 & H).
  apply bind_ret_inv in H as (oldpos & w1' & Et & H). injection Et as <- <-.
  apply bind_ret_inv in H as ([] & w2 & E2 & H).
  apply bind_ret_inv in H as (m & w3 & E3 & H).
  destruct (negb (bool_decide (m = magic))); [done|].
  apply bind_ret_inv in H as (st & w4 & E4 & H).
  apply bind_ret_inv in H as ([] & w5 & _ & H).
  apply bind_ret_inv in H as ([] & w6 & _ & H).
  apply ret_inv in H as [[= Hc Hb Hl Hi] _].
  assert (r_data (w_inf w2) = r_data (w_inf w) /\ r_pos (w_inf w2) = 0%nat) as [D2 P2].
  { pose proof (preserves_run _ _ _ _ _ (getsize_advances _) E1) as (D1 & _).
    unfold seek in E2. cbn [Z.ltb Z.compare] in E2. injection E2 as <-. by cbn. }
  pose proof (preserves_run _ _ _ _ _ (read_advances _) E3) as (D3 & _ & P3).
  unfold traverse_chunks in E4.
  assert (span_ok (length (r_data (w_inf w3))) st) as [_ Hm].
  { eapply traverse_span; [exact E4| |apply span_ok_init].
    rewrite D3. apply P3. lia. }
  destruct (Hm b Hb) as (l' & Hl' & ?). rewrite D3, D2 in *.
  assert (l' = l) as -> by congruence. done.
Qed.

(** When the locator returns, the reading handle is as it was. *)
Lemma get_metadata_content_reader filepath w loc w' :
  get_metadata_content filepath w = (Ret loc, w') -> w_inf w' = w_inf w.
Proof.
  intros H.
  pose proof (preserves_run _ _ _ _ _ (get_metadata_content_same_files filepath) H)
    as (_ & _ & Hdata).
  unfold get_metadata_content in H.
  apply bind_ret_inv in H as (fsz & w1 & E1 & H).
  apply bind_ret_inv in H as (oldpos & w1' & Et & H). injection Et as <- <-.
  apply bind_ret_inv in H as ([] & w2 & E2 & H).
  apply bind_ret_inv in H as (m & w3 & E3 & H).
  destruct (negb (bool_decide (m = magic))); [done|].
  apply bind_ret_inv in H as (st & w4 & E4 & H).
  apply bind_ret_inv in H as ([] & w5 & _ & H).
  apply bind_ret_inv in H as ([] & w6 & E6 & H).
  apply ret_inv in H as [_ <-].
  assert (r_pos (w_inf w1) = r_pos (w_inf w)) as P1.
  { unfold getsize in E1. destruct (w_fs w !! filepath); [|done]. by injection E1 as _ <-. }
  unfold seek in E6. destruct (Z.of_nat (r_pos (w_inf w1)) <? 0); [done|].
  injection E6 as <-. cbn [w_inf set_inf] in *.
  destruct (w_inf w) as [d p]. cbn in *. rewrite Nat2Z.id. congruence.
Qed.
End SpanInvariant.

Section Splice.
Context {D : Documents}.

(** ** C5 *)

(** C5.  Whenever the locator returns, the cursor of the reading handle
    is where it was before the call, however far the traversal read;
    the handle as a whole is as it was. *)
Theorem get_metadata_content_restores_cursor filepath w loc w' :
  get_metadata_content filepath w = (Ret loc, w') ->
  (tell w').1 = (tell w).1 /\ w_inf w' = w_inf w.
Proof.
  intros H. pose proof (get_metadata_content_reader _ _ _ _ H) as Hr.
  split; [|exact Hr]. unfold tell. cbn [fst]. by rewrite Hr.
Qed.

(** The world in which the locator returns to [process_file]. *)
Lemma get_metadata_content_opened inpath p data w loc w1 :
  get_metadata_content inpath (opened_world inpath p data w) = (Ret loc, w1) ->
  w1 = World (<[p := []]> (w_fs w)) (Reader data 0) (Some (Writer p false))
         (w_log w1) (w_rng w1).
Proof.
  intros H.
  pose proof (preserves_run _ _ _ _ _ (get_metadata_content_same_files inpath) H)
    as (Hfs & Hout & _).
  pose proof (get_metadata_content_reader _ _ _ _ H) as Hinf.
  destruct w1 as [fs1 inf1 outf1 log1 rng1]. cbn in *. congruence.
Qed.

(** ** C6 *)

(** C6.  When the transform gives back the content that the locator
    found, the output file is the input file, byte for byte: it is
    copied whole and no chunk is framed. *)
Theorem unchanged_content_copies_file inpath p transform overwrite w data c b l i w1 :
  w_fs w !! inpath = Some data -> p <> inpath -> p <> EmptyString ->
  overwrite = true \/ w_fs w !! p = None ->
  get_metadata_content inpath (opened_world inpath p data w)
  = (Ret (Some c, b, l, i), w1) ->
  transform c = Some c ->
  exists w',
    process_file inpath (Some p) transform overwrite w = (Ret tt, w')
    /\ w_fs w' !! p = Some data
    /\ w_fs w' = <[p := data]> (w_fs w).
Proof.
  intros Hin Hne Hnz Hok Hloc Ht.
  rewrite (process_file_opened inpath p transform overwrite w data) by done.
  unfold try_finally. unfold bind at 1. rewrite Hloc.
  rewrite (get_metadata_content_opened _ _ _ _ _ _ Hloc).
  unfold splice. unfold bind at 1. rewrite Ht. unfold lift_doc, ret at 1.
  rewrite bool_decide_eq_true_2 by done. cbn [negb].
  unfold bind at 1. unfold close_outf at 1. cbn [w_outf wr_path]. unfold set_outf.
  cbn [w_fs w_inf w_outf w_log w_rng].
  unfold copyfile. cbn [w_fs]. rewrite lookup_insert_ne by done. rewrite Hin.
  unfold set_fs. cbn [w_fs w_inf w_outf w_log w_rng].
  unfold close_if_open. cbn [w_outf wr_closed].
  eexists. split; [reflexivity|]. cbn [w_fs].
  rewrite insert_insert_eq. split; [apply lookup_insert_eq|done].
Qed.
End Splice.

(** ** Fuel

    The loops of the model are given enough fuel: no statement ends in
    [OutOfFuel]. *)

Lemma fueled_ret {A} (a : A) : fueled (ret a).
Proof. by intros w. Qed.

Lemma fueled_raise {A} e : fueled (@raise A e).
Proof. by intros w. Qed.

Lemma fueled_bind {A B} (m : M A) (k : A -> M B) :
  fueled m -> (forall a, fueled (k a)) -> fueled (bind m k).
Proof.
  intros Hm Hk w. unfold bind. specialize (Hm w).
  destruct (m w) as [[a|e| |] w1]; cbn [fst] in *; [apply Hk|done..].
Qed.

Lemma fueled_try_except {A} (m h : M A) :
  fueled m -> fueled h -> fueled (try_except m h).
Proof.
  intros Hm Hh w. unfold try_except. specialize (Hm w).
  destruct (m w) as [[a|e| |] w1]; cbn [fst] in *; [done|apply Hh|done..].
Qed.

Lemma fueled_lift_struct {A} (o : option A) : fueled (lift_struct o).
Proof. destruct o; [apply fueled_ret|apply fueled_raise]. Qed.

Lemma fueled_lift_doc {A} (o : option A) : fueled (lift_doc o).
Proof. destruct o; [apply fueled_ret|apply fueled_raise]. Qed.

Lemma fueled_tell : fueled tell.
Proof. by intros w. Qed.

Lemma fueled_seek p : fueled (seek p).
Proof. intros w. unfold seek. by destruct (p <? 0). Qed.

Lemma fueled_read n : fueled (read n).
Proof. intros w. unfold read. by destruct (n <? -1). Qed.

Lemma fueled_emit l m : fueled (emit l m).
Proof. by intros w. Qed.

Lemma fueled_getsize p : fueled (getsize p).
Proof. intros w. unfold getsize. by destruct (w_fs w !! p). Qed.

Lemma fueled_fresh_stream_id ids : fueled (fresh_stream_id ids).
Proof.
  intros w. unfold fresh_stream_id. by destruct (draw_fresh (w_rng w) ids) as [[k rest]|].
Qed.

Lemma fueled_scan_forward : fueled scan_forward.
Proof.
  intros [fs [data pos] outf log rng].
  by destruct (scan_forward_returns fs data pos outf log rng) as (pos' & log' & -> & _).
Qed.

Create HintDb fuel.

#[global] Hint Resolve fueled_ret fueled_raise fueled_lift_struct fueled_lift_doc
  fueled_tell fueled_seek fueled_read fueled_emit fueled_getsize
  fueled_fresh_stream_id fueled_scan_forward : fuel.

Ltac fuel_step :=
  first
    [ solve [auto 1 with fuel nocore]
    | apply fueled_bind; [ | intros ?]
    | apply fueled_try_except
    | match goal with
      | |- fueled (if ?b then _ else _) => destruct b
      | |- fueled (match ?x with _ => _ end) => destruct x
      end ].

Ltac fuel := repeat fuel_step.

Lemma fueled_read_varlen_int : fueled read_varlen_int.
Proof. unfold read_varlen_int. fuel. Qed.

#[global] Hint Resolve fueled_read_varlen_int : fuel.

Lemma bind_raise_inv {A B} (m : M A) (k : A -> M B) w e w' :
  bind m k w = (Raise e, w') ->
  m w = (Raise e, w') \/ exists a w1, m w = (Ret a, w1) /\ k a w1 = (Raise e, w').
Proof.
  unfold bind. destruct (m w) as [[a|e'| |] w1]; try done.
  - intros H. right. by exists a, w1.
  - intros [= -> ->]. by left.
Qed.

(** A length field that was read took at least one byte. *)
Lemma read_varlen_int_moves w c w1 :
  read_varlen_int w = (Ret c, w1) -> (r_pos (w_inf w) < r_pos (w_inf w1))%nat.
Proof.
  intros H. unfold read_varlen_int in H.
  apply bind_ret_inv in H as (b & w0 & E1 & H).
  apply bind_ret_inv in H as (n & w0' & E2 & H).
  apply lift_struct_ret_inv in E2 as [Eb <-].
  assert (advances w0 w1) as (_ & A & _).
  { eapply (preserves_run advances
              (if n =? 1 then b0 <- read 1 ;; lift_struct (unpack_uint 1 b0)
               else if n =? 4 then b0 <- read 4 ;; lift_struct (unpack_uint 4 b0)
               else if n =? 8 then b0 <- read 8 ;; lift_struct (unpack_uint 8 b0)
               else raise RuntimeError)); [cursor|exact H]. }
  assert (length b = 1%nat) as Hl.
  { unfold unpack_uint in Eb. by destruct (decide (length b = 1%nat)). }
  destruct w as [fs [data pos] outf log rng].
  rewrite read_nonneg in E1 by lia. injection E1 as <- <-.
  cbn [w_inf r_pos] in *. lia.
Qed.

(** A failed read of a length field that leaves the cursor short of the
    end of the file took at least one byte. *)
Lemma read_varlen_int_failed_moves w e w1 :
  read_varlen_int w = (Raise e, w1) ->
  (r_pos (w_inf w1) < length (r_data (w_inf w)))%nat ->
  (r_pos (w_inf w) < r_pos (w_inf w1))%nat.
Proof.
  intros H Hlt.
  pose proof (preserves_run _ _ _ _ _ read_varlen_int_advances H) as (_ & A & _).
  destruct w as [fs [data pos] outf log rng]. cbn [w_inf r_pos r_data] in *.
  assert (pos < length data)%nat as Hp by lia.
  unfold read_varlen_int, bind in H. rewrite read_nonneg in H by lia.
  change (Z.to_nat 1) with 1%nat in H.
  assert (length (take 1 (drop pos data)) = 1%nat) as Hl.
  { rewrite length_take, length_drop. lia. }
  rewrite Hl in H.
  set (w0 := World fs (Reader data (pos + 1)) outf log rng) in H.
  destruct (lift_struct (unpack_uint 1 (take 1 (drop pos data))) w0)
    as [[n|e'| |] w0'] eqn:E2.
  - apply lift_struct_ret_inv in E2 as [_ <-].
    eassert (advances w0 w1) as (_ & A' & _).
    { eapply (preserves_run advances
                (if n =? 1 then b0 <- read 1 ;; lift_struct (unpack_uint 1 b0)
                 else if n =? 4 then b0 <- read 4 ;; lift_struct (unpack_uint 4 b0)
                 else if n =? 8 then b0 <- read 8 ;; lift_struct (unpack_uint 8 b0)
                 else raise RuntimeError)); [cursor|exact H]. }
    cbn in A'. lia.
  - unfold unpack_uint in E2. rewrite decide_True in E2 by done. discriminate E2.
  - unfold unpack_uint in E2. rewrite decide_True in E2 by done. discriminate E2.
  - unfold unpack_uint in E2. rewrite decide_True in E2 by done. discriminate E2.
Qed.

Section Termination.
Context {D : Documents}.

Lemma fueled_on_stream_header b c st : fueled (on_stream_header b c st).
Proof. unfold on_stream_header, is_metadata_header, log_found_stream. fuel. Qed.

Lemma fueled_on_data_chunk st : fueled (on_data_chunk st).
Proof. unfold on_data_chunk. fuel. Qed.

Hint Resolve fueled_on_stream_header fueled_on_data_chunk : fuel.
Hint Resolve on_stream_header_advances on_data_chunk_advances
  is_metadata_header_advances log_found_stream_advances : cursor.

Lemma fueled_chunk_round fsz st : fueled (chunk_round fsz st).
Proof. unfold chunk_round. fuel. Qed.

(** A round that goes on has moved the cursor, when [fsz] is not more
    than 1024 bytes beyond the size of the file that is read. *)
Lemma chunk_round_moves fsz st w st' w' :
  chunk_round fsz st w = (Ret (Continue, st'), w') ->
  fsz - 1024 <= Z.of_nat (length (r_data (w_inf w))) ->
  (r_pos (w_inf w) < r_pos (w_inf w'))%nat.
Proof.
  intros H Hsz. unfold chunk_round in H.
  apply bind_ret_inv in H as (bp & w0 & Et & H). injection Et as <- <-.
  apply bind_ret_inv in H as (r & w1 & E1 & H).
  apply try_except_ret_inv in E1 as [E1|(e & w1' & E1 & Eh)].
  - apply bind_ret_inv in E1 as (c & w1' & E1 & Er).
    apply ret_inv in Er as [<- ->].
    pose proof (read_varlen_int_moves _ _ _ E1) as Hmv.
    eassert (advances w1 w') as (_ & A & _); [|lia].
    eapply preserves_run; [|exact H]. cursor.
  - apply bind_raise_inv in E1 as [E1|(c & w2 & _ & E1)]; [|done].
    apply bind_ret_inv in Eh as (p & w2 & Et & Eh). injection Et as <- <-.
    pose proof (preserves_run _ _ _ _ _ read_varlen_int_advances E1) as (Ad & _).
    destruct (Z.ltb_spec (Z.of_nat (r_pos (w_inf w1'))) (fsz - 1024)) as [Hlt|Hge].
    + pose proof (read_varlen_int_failed_moves _ _ _ E1 ltac:(lia)) as Hmv.
      apply bind_ret_inv in Eh as ([] & w3 & E3 & Eh).
      apply bind_ret_inv in Eh as ([] & w4 & E4 & Eh).
      apply ret_inv in Eh as [<- <-]. apply ret_inv in H as [_ <-].
      pose proof (preserves_run _ _ _ _ _ (emit_advances _ _) E3) as (_ & A3 & _).
      pose proof (preserves_run _ _ _ _ _ scan_forward_advances E4) as (_ & A4 & _).
      lia.
    + apply bind_ret_inv in Eh as ([] & w3 & E3 & Eh).
      apply ret_inv in Eh as [<- _]. by apply ret_inv in H as [[=] _].
Qed.

Lemma traverse_fueled f fsz : forall st w,
  (r_pos (w_inf w) <= length (r_data (w_inf w)))%nat ->
  (length (r_data (w_inf w)) - r_pos (w_inf w) < f)%nat ->
  fsz - 1024 <= Z.of_nat (length (r_data (w_inf w))) ->
  (traverse f fsz st w).1 <> OutOfFuel.
Proof.
  induction f as [|f IH]; intros st w Hp Hf Hsz; [lia|].
  cbn [traverse]. unfold bind.
  pose proof (fueled_chunk_round fsz st w) as Hr.
  destruct (chunk_round fsz st w) as [[[[] st1]|e| |] w1] eqn:E; cbn [fst] in *;
    try done.
  pose proof (chunk_round_moves _ _ _ _ _ E Hsz) as Hmv.
  pose proof (preserves_run _ _ _ _ _ (chunk_round_advances _ _) E) as (Ad & _ & A).
  specialize (A Hp).
  apply IH; rewrite Ad; [lia|lia|done].
Qed.

(** The locator returns or raises, on a handle over the file of the
    path (a file of up to 1024 bytes more would do). *)
Lemma get_metadata_content_fueled filepath w bs :
  w_fs w !! filepath = Some bs ->
  (length bs <= length (r_data (w_inf w)) + 1024)%nat ->
  (get_metadata_content filepath w).1 <> OutOfFuel.
Proof.
  intros Hfs Hsz. destruct w as [fs [data pos] outf log rng].
  cbn [w_fs w_inf r_data] in *. unfold get_metadata_content.
  unfold bind at 1. rewrite (getsize_eq _ _ _ _ _ _ _ Hfs).
  unfold bind at 1. rewrite tell_eq.
  unfold bind at 1. rewrite seek_nonneg by lia.
  unfold bind at 1. rewrite read_nonneg by lia.
  destruct (negb (bool_decide (take (Z.to_nat 4) (drop (Z.to_nat 0) data) = magic)));
    [done|].
  unfold bind at 1.
  match goal with
  | |- context [traverse_chunks ?z ?w0] =>
      pose proof (traverse_fueled (S (length data)) z scan_init w0) as Ht;
      change (traverse (S (length data)) z scan_init w0) with (traverse_chunks z w0) in Ht;
      destruct (traverse_chunks z w0) as [[st|e| |] w1] eqn:E
  end; cbn [fst] in *; try done.
  - apply fueled_bind; [destruct (has_more_than_one st); fuel|].
    intros _. fuel.
  - exfalso. apply Ht; cbn [w_inf r_pos r_data]; [|lia|lia|done].
    rewrite length_take, length_drop. lia.
Qed.
End Termination.

Lemma bind_fueled_at {A B} (m : M A) (k : A -> M B) w :
  (m w).1 <> OutOfFuel -> (forall a, fueled (k a)) -> (bind m k w).1 <> OutOfFuel.
Proof.
  intros Hm Hk. unfold bind.
  destruct (m w) as [[a|e| |] w1]; cbn [fst] in *; [apply Hk|done..].
Qed.

Lemma try_finally_fueled_at {A} (m : M A) (f : M unit) w :
  (m w).1 <> OutOfFuel -> fueled f -> (try_finally m f w).1 <> OutOfFuel.
Proof.
  intros Hm Hf. unfold try_finally.
  destruct (m w) as [r w1]. specialize (Hf w1).
  destruct (f w1) as [[[]|e| |] w2]; cbn [fst] in *; done.
Qed.

Lemma fueled_write bs : fueled (write bs).
Proof.
  intros w. unfold write. destruct (w_outf w) as [o|]; [|done]. by destruct (wr_closed o).
Qed.

Lemma fueled_close_outf : fueled close_outf.
Proof. intros w. unfold close_outf. by destruct (w_outf w). Qed.

Lemma fueled_copyfile src dst : fueled (copyfile src dst).
Proof.
  intros w. unfold copyfile. destruct dst; [|done]. by destruct (w_fs w !! src).
Qed.

Lemma fueled_lookup_write : fueled lookup_write.
Proof. intros w. unfold lookup_write. by destruct (w_outf w). Qed.

#[global] Hint Resolve fueled_write fueled_close_outf fueled_copyfile
  fueled_lookup_write : fuel.

Lemma fueled_write_chunk tag content : fueled (write_chunk tag content).
Proof. unfold write_chunk, write_varlen_int. fuel. Qed.

Section ProcessFileTermination.
Context {D : Documents}.

Lemma fueled_write_read n : fueled (write_read n).
Proof.
  unfold write_read. apply fueled_bind; [|intros _; fuel].
  intros w. by destruct (w_outf w).
Qed.

Lemma fueled_copy_range_loop f : forall n,
  (Z.to_nat (n / blocksize) < f)%nat -> fueled (copy_range_loop f n).
Proof.
  pose proof blocksize_pos as Hb.
  induction f as [|f IH]; intros n Hf; [lia|]. cbn [copy_range_loop].
  destruct (Z.geb_spec n blocksize) as [Hge|Hlt].
  - apply fueled_bind; [apply fueled_write_read|]. intros _. apply IH.
    replace (n - blocksize) with (n + (-1) * blocksize) by lia.
    rewrite Z.div_add by lia.
    assert (1 <= n / blocksize) by (apply Z.div_le_lower_bound; lia). lia.
  - destruct (negb (n =? 0)); [apply fueled_write_read|apply fueled_ret].
Qed.

Lemma fueled_copy_range len : fueled (copy_range len).
Proof.
  destruct len as [n|]; [|apply fueled_raise].
  apply fueled_copy_range_loop. lia.
Qed.

Hint Resolve fueled_write_chunk fueled_copy_range : fuel.

Lemma fueled_splice inpath outpath transform in_size loc :
  fueled (splice inpath outpath transform in_size loc).
Proof.
  destruct loc as [[[c b] l] i]. unfold splice, add_opt, sub_opt. fuel.
Qed.

Lemma fueled_close_if_open : fueled close_if_open.
Proof.
  intros w. unfold close_if_open. destruct (w_outf w) as [o|] eqn:E; [|done].
  destruct (wr_closed o); [done|]. apply fueled_close_outf.
Qed.

(** [process_file] returns or raises. *)
Lemma process_file_fueled inpath outpath transform overwrite w :
  (process_file inpath outpath transform overwrite w).1 <> OutOfFuel.
Proof.
  destruct w as [fs inf outf log rng]. unfold process_file.
  unfold bind at 1. rewrite emit_eq. unfold bind at 1.
  destruct (fs !! inpath) as [data|] eqn:Hin;
    [|unfold getsize; cbn [w_fs]; by rewrite Hin].
  rewrite (getsize_eq _ _ _ _ _ _ _ Hin).
  unfold bind at 1. unfold set_outf. cbn [w_fs w_inf w_outf w_log w_rng].
  apply try_finally_fueled_at; [|apply fueled_close_if_open].
  unfold process_file_body.
  unfold bind at 1. rewrite (open_rb_eq _ _ _ _ _ _ _ Hin).
  unfold bind at 1.
  destruct (bool_decide (outpath = Some inpath)) eqn:Hne; [done|].
  apply bool_decide_eq_false in Hne. unfold ret at 1.
  unfold bind at 1.
  destruct (path_truthy outpath); [destruct outpath as [p|]|]; try unfold ret at 1.
  - unfold bind at 1. rewrite path_exists_eq.
    destruct (negb overwrite && bool_decide (is_Some (fs !! p))); [done|].
    rewrite open_wb_eq.
    apply bind_fueled_at; [|intros loc; apply fueled_splice].
    apply (get_metadata_content_fueled _ _ data); cbn [w_fs w_inf r_data]; [|lia].
    rewrite lookup_insert_ne; [done|congruence].
  - apply bind_fueled_at; [|intros loc; apply fueled_splice].
    apply (get_metadata_content_fueled _ _ data); cbn [w_fs w_inf r_data]; [done|lia].
  - apply bind_fueled_at; [|intros loc; apply fueled_splice].
    apply (get_metadata_content_fueled _ _ data); cbn [w_fs w_inf r_data]; [done|lia].
Qed.
End ProcessFileTermination.

(** ** Runs on the sample files *)

Lemma get_metadata_content_restores_cursor_witness :
  let w := World {[ "in.xdf"%string := samples_only ]} (Reader samples_only 3) None []
             [12345] in
  let r := @get_metadata_content sample_documents "in.xdf" w in
  r = (Ret (Some (list_byte_of_string sample_default), None, Some 0, Some 12345), r.2)
  /\ (tell r.2).1 = (tell w).1 /\ w_inf r.2 = w_inf w.
Proof.
  intros w r.
  assert (r = (Ret (Some (list_byte_of_string sample_default), None, Some 0, Some 12345),
               r.2)) as H
    by (vm_compute; reflexivity).
  split; [exact H|].
  exact (@get_metadata_content_restores_cursor sample_documents "in.xdf" w _ _ H).
Defined.

Lemma unchanged_content_copies_file_witness :
  let w := start_world "in.xdf" two_metadata_file [] in
  let r := @get_metadata_content sample_documents "in.xdf"
             (opened_world "in.xdf" "out.xdf" two_metadata_file w) in
  r = (Ret (Some (list_byte_of_string metadata_doc), Some 128, Some 98, Some 8), r.2)
  /\ exists w',
       @process_file sample_documents "in.xdf" (Some "out.xdf"%string)
         (fun t => Some t) false w = (Ret tt, w')
       /\ w_fs w' !! "out.xdf"%string = Some two_metadata_file
       /\ w_fs w' = <["out.xdf"%string := two_metadata_file]> (w_fs w).
Proof.
  intros w r.
  assert (r = (Ret (Some (list_byte_of_string metadata_doc), Some 128, Some 98, Some 8),
               r.2)) as H
    by (vm_compute; reflexivity).
  split; [exact H|].
  apply (@unchanged_content_copies_file sample_documents "in.xdf" "out.xdf"
           (fun t => Some t) false w two_metadata_file
           (list_byte_of_string metadata_doc) (Some 128) (Some 98) (Some 8) r.2).
  - apply lookup_singleton_eq.
  - discriminate.
  - discriminate.
  - right. by apply lookup_singleton_ne.
  - exact H.
  - reflexivity.
Defined.

(** * Further properties

    ** The codec of variable-length integers *)

(** Reading a field of [k] bytes: the value when [k] bytes are left,
    [struct.error] on what is left otherwise, the cursor being at the
    end of the file then. *)
Lemma read_payload (k : nat) fs data pos outf log rng :
  (b <- read (Z.of_nat k) ;; lift_struct (unpack_uint k b))
    (World fs (Reader data pos) outf log rng)
  = if decide (k <= length (drop pos data))%nat
    then (Ret (le_to_Z (take k (drop pos data))),
          World fs (Reader data (pos + k)) outf log rng)
    else (Raise StructError,
          World fs (Reader data (pos + length (drop pos data))) outf log rng).
Proof.
  unfold bind. rewrite read_nonneg by lia. rewrite Nat2Z.id.
  destruct (decide (k <= length (drop pos data))%nat) as [Hk|Hk].
  - rewrite unpack_uint_exact by (rewrite length_take; lia).
    cbn [lift_struct]. unfold ret. rewrite length_take.
    repeat f_equal. lia.
  - rewrite take_ge by lia.
    rewrite unpack_uint_short by lia. reflexivity.
Qed.

(** The first byte of the field selects the width. *)
Lemma read_varlen_int_selector fs data pos outf log rng b rest :
  drop pos data = b :: rest ->
  read_varlen_int (World fs (Reader data pos) outf log rng)
  = (if byte_to_Z b =? 1 then b <- read 1 ;; lift_struct (unpack_uint 1 b)
     else if byte_to_Z b =? 4 then b <- read 4 ;; lift_struct (unpack_uint 4 b)
     else if byte_to_Z b =? 8 then b <- read 8 ;; lift_struct (unpack_uint 8 b)
     else raise RuntimeError)
      (World fs (Reader data (pos + 1)) outf log rng).
Proof.
  intros Hd. unfold read_varlen_int. unfold bind at 1.
  rewrite (read_prefix _ _ _ _ _ _ [b] rest) by done.
  unfold bind at 1. rewrite unpack_uint_exact by done.
  cbn [lift_struct le_to_Z length]. unfold ret at 1.
  rewrite Z.mul_0_r, Z.add_0_r. reflexivity.
Qed.

Lemma selector_byte b n : byte_to_Z b = n -> b = byte_of_Z n.
Proof. intros <-. by rewrite byte_of_to_Z. Qed.

(** What [read_varlen_int] does on every input. *)
Lemma read_varlen_int_cases fs data pos outf log rng :
  let w p := World fs (Reader data p) outf log rng in
  read_varlen_int (w pos)
  = match drop pos data with
    | [] => (Raise StructError, w pos)
    | b :: rest =>
        let k := Z.to_nat (byte_to_Z b) in
        if bool_decide (k = 1 \/ k = 4 \/ k = 8)%nat then
          if decide (k <= length rest)%nat
          then (Ret (le_to_Z (take k rest)), w (pos + 1 + k)%nat)
          else (Raise StructError, w (pos + 1 + length rest)%nat)
        else (Raise RuntimeError, w (pos + 1)%nat)
    end.
Proof.
  intros w. subst w. cbv beta.
  destruct (drop pos data) as [|b rest] eqn:Hd.
  - by apply read_varlen_int_eof.
  - rewrite (read_varlen_int_selector _ _ _ _ _ _ b rest Hd).
    assert (drop (pos + 1) data = rest) as Hr by (by apply (drop_past _ _ [b])).
    pose proof (byte_to_Z_range b) as Hb. cbv zeta.
    destruct (Z.eqb_spec (byte_to_Z b) 1) as [E1|N1].
    { rewrite E1. change (Z.to_nat 1) with 1%nat.
      rewrite bool_decide_eq_true_2 by auto.
      change 1 with (Z.of_nat 1) at 1. rewrite read_payload, Hr. reflexivity. }
    destruct (Z.eqb_spec (byte_to_Z b) 4) as [E4|N4].
    { rewrite E4. change (Z.to_nat 4) with 4%nat.
      rewrite bool_decide_eq_true_2 by auto.
      change 4 with (Z.of_nat 4) at 1. rewrite read_payload, Hr. reflexivity. }
    destruct (Z.eqb_spec (byte_to_Z b) 8) as [E8|N8].
    { rewrite E8. change (Z.to_nat 8) with 8%nat.
      rewrite bool_decide_eq_true_2 by auto.
      change 8 with (Z.of_nat 8) at 1. rewrite read_payload, Hr. reflexivity. }
    rewrite bool_decide_eq_false_2 by lia. reflexivity.
Qed.

Lemma write_open fs inf p log rng bs :
  write bs (World fs inf (Some (Writer p false)) log rng)
  = (Ret tt,
     World (<[p := default [] (fs !! p) ++ bs]> fs) inf (Some (Writer p false)) log rng).
Proof. reflexivity. Qed.

Lemma write_varlen_int_open fs inf p log rng i :
  write_varlen_int i (World fs inf (Some (Writer p false)) log rng)
  = match varlen_bytes i with
    | Some bs =>
        (Ret tt,
         World (<[p := default [] (fs !! p) ++ bs]> fs) inf (Some (Writer p false))
           log rng)
    | None => (Raise StructError, World fs inf (Some (Writer p false)) log rng)
    end.
Proof.
  unfold write_varlen_int, bind. destruct (varlen_bytes i) as [bs|]; reflexivity.
Qed.

Lemma varlen_bytes_none_iff i :
  varlen_bytes i = None <-> i < 0 \/ 2 ^ 32 <= i < 2 ^ 36 \/ 2 ^ 64 <= i.
Proof.
  split.
  - intros H.
    destruct (Z_lt_le_dec i 0) as [?|H0]; [by left|].
    destruct (Z_le_gt_dec i 255) as [?|H1];
      [rewrite varlen_bytes_tier1 in H by lia; discriminate H|].
    destruct (Z_lt_le_dec i (2 ^ 32)) as [?|H2];
      [rewrite varlen_bytes_tier4 in H by lia; discriminate H|].
    destruct (Z_lt_le_dec i (2 ^ 36)) as [?|H3]; [right; left; lia|].
    destruct (Z_lt_le_dec i (2 ^ 64)) as [?|H4]; [|right; right; lia].
    rewrite varlen_bytes_tier8 in H by lia. discriminate H.
  - intros [H|[H|H]].
    + by apply varlen_bytes_negative.
    + apply varlen_bytes_gap. lia.
    + by apply varlen_bytes_too_big.
Qed.

(** X1.  Round trip of the codec.  For every [i] in [0, 2^32) or in
    [2^36, 2^64), [write_varlen_int] appends to the output file a field
    of 2, 5 or 9 bytes, and [read_varlen_int], on a handle whose cursor
    is at such a field, returns [i] and leaves the cursor just after
    it. *)
Theorem varlen_int_round_trip fs inf p log rng written i :
  0 <= i < 2 ^ 32 \/ 2 ^ 36 <= i < 2 ^ 64 ->
  fs !! p = Some written ->
  exists bs,
    write_varlen_int i (World fs inf (Some (Writer p false)) log rng)
    = (Ret tt, World (<[p := written ++ bs]> fs) inf (Some (Writer p false)) log rng)
    /\ length bs = (if i <=? 255 then 2%nat else if i <? 2 ^ 32 then 5%nat else 9%nat)
    /\ forall fs' data pos outf' log' rng' rest,
         drop pos data = bs ++ rest ->
         read_varlen_int (World fs' (Reader data pos) outf' log' rng')
         = (Ret i, World fs' (Reader data (pos + length bs)) outf' log' rng').
Proof.
  intros Hi Hp.
  destruct (varlen_bytes i) as [bs|] eqn:Hb;
    [|apply varlen_bytes_none_iff in Hb; lia].
  exists bs. split; [|split].
  - by rewrite write_varlen_int_open, Hb, Hp.
  - destruct (Z.leb_spec i 255).
    + rewrite varlen_bytes_tier1 in Hb by lia. by injection Hb as <-.
    + destruct (Z.ltb_spec i (2 ^ 32)).
      * rewrite varlen_bytes_tier4 in Hb by lia. injection Hb as <-.
        cbn [length]. by rewrite ?length_Z_to_le.
      * rewrite varlen_bytes_tier8 in Hb by lia. injection Hb as <-.
        cbn [length]. by rewrite ?length_Z_to_le.
  - intros fs' data pos outf' log' rng' rest Hd.
    by apply (read_varlen_int_varlen_bytes _ _ _ _ _ _ i bs rest).
Qed.

Lemma varlen_int_round_trip_witness :
  exists bs,
    write_varlen_int 70000
      (World {[ "out.xdf"%string := magic ]} (Reader [] 0)
         (Some (Writer "out.xdf" false)) [] [])
    = (Ret tt,
       World (<["out.xdf"%string := magic ++ bs]> {[ "out.xdf"%string := magic ]})
         (Reader [] 0) (Some (Writer "out.xdf" false)) [] [])
    /\ length bs = 5%nat
    /\ forall fs' data pos outf' log' rng' rest,
         drop pos data = bs ++ rest ->
         read_varlen_int (World fs' (Reader data pos) outf' log' rng')
         = (Ret 70000, World fs' (Reader data (pos + length bs)) outf' log' rng').
Proof.
  apply (varlen_int_round_trip {[ "out.xdf"%string := magic ]} (Reader [] 0)
           "out.xdf" [] [] magic 70000).
  - left. lia.
  - apply lookup_singleton_eq.
Defined.

(** X2.  The values that [write_varlen_int] cannot encode.  On an open
    handle it raises [struct.error], with nothing written, exactly for
    the negative values, the values from 2^32 to 2^36 - 1, which the
    middle guard sends to the four-byte format, and the values from
    2^64 on. *)
Theorem write_varlen_int_raises_iff fs inf p log rng i :
  write_varlen_int i (World fs inf (Some (Writer p false)) log rng)
  = (Raise StructError, World fs inf (Some (Writer p false)) log rng)
  <-> i < 0 \/ 2 ^ 32 <= i < 2 ^ 36 \/ 2 ^ 64 <= i.
Proof.
  rewrite write_varlen_int_open, <- varlen_bytes_none_iff.
  destruct (varlen_bytes i) as [bs|]; split; try done.
Qed.

(** X3.  What [read_varlen_int] accepts.  It returns [L] exactly when
    the bytes at the cursor begin with a width byte 1, 4 or 8 followed
    by that many bytes whose little-endian value is [L]; the cursor is
    then just after the field and nothing else has changed.  The width
    need not be the shortest one for [L]. *)
Theorem read_varlen_int_returns_iff fs data pos outf log rng L w' :
  read_varlen_int (World fs (Reader data pos) outf log rng) = (Ret L, w')
  <-> exists lb rest,
        varlen_frame lb L /\ drop pos data = lb ++ rest
        /\ w' = World fs (Reader data (pos + length lb)) outf log rng.
Proof.
  split.
  - rewrite read_varlen_int_cases.
    destruct (drop pos data) as [|b rest] eqn:Hd; [intros [=]|].
    cbv zeta. pose proof (byte_to_Z_range b) as Hb.
    case_bool_decide as Hk; [|intros [=]].
    destruct (decide (Z.to_nat (byte_to_Z b) <= length rest)%nat) as [Hl|];
      [|intros [=]].
    intros [= <- <-].
    exists (b :: take (Z.to_nat (byte_to_Z b)) rest),
           (drop (Z.to_nat (byte_to_Z b)) rest).
    split; [|split].
    + destruct Hk as [Hk|[Hk|Hk]]; rewrite Hk.
      * rewrite (selector_byte b 1) by lia.
        destruct rest as [|c rest]; [simpl in Hl; lia|].
        cbn [take le_to_Z]. rewrite Z.mul_0_r, Z.add_0_r.
        exact (varlen_frame_1 c).
      * rewrite (selector_byte b 4) by lia.
        apply varlen_frame_4. rewrite length_take. lia.
      * rewrite (selector_byte b 8) by lia.
        apply varlen_frame_8. rewrite length_take. lia.
    + cbn [app]. by rewrite take_drop.
    + cbn [length]. rewrite length_take. world_eq.
  - intros (lb & rest & HF & Hd & ->). by apply (read_varlen_int_frame _ _ _ _ _ _ lb L rest).
Qed.

(** X4.  A width byte other than 1, 4 and 8 is refused:
    [read_varlen_int] raises [RuntimeError] and has consumed that one
    byte. *)
Theorem read_varlen_int_invalid_width fs data pos outf log rng b rest :
  drop pos data = b :: rest ->
  byte_to_Z b <> 1 -> byte_to_Z b <> 4 -> byte_to_Z b <> 8 ->
  read_varlen_int (World fs (Reader data pos) outf log rng)
  = (Raise RuntimeError, World fs (Reader data (pos + 1)) outf log rng).
Proof.
  intros Hd H1 H4 H8. rewrite read_varlen_int_cases, Hd. cbv zeta.
  pose proof (byte_to_Z_range b). by rewrite bool_decide_eq_false_2 by lia.
Qed.

Lemma read_varlen_int_invalid_width_witness :
  read_varlen_int (World ∅ (Reader (magic ++ [x00; x05; x00]) 4) None [] [])
  = (Raise RuntimeError, World ∅ (Reader (magic ++ [x00; x05; x00]) (4 + 1)) None [] []).
Proof.
  apply (read_varlen_int_invalid_width ∅ (magic ++ [x00; x05; x00]) 4 None [] []
           x00 [x05; x00]); [reflexivity|by vm_compute..].
Defined.

(** ** Chunk frames *)

Lemma write_chunk_open fs inf p log rng written tag content lb :
  varlen_bytes (Z.of_nat (length content) + 2) = Some lb ->
  fs !! p = Some written ->
  write_chunk tag content (World fs inf (Some (Writer p false)) log rng)
  = match pack_uint 2 tag with
    | Some tb =>
        (Ret tt,
         World (<[p := written ++ lb ++ tb ++ content]> fs) inf (Some (Writer p false))
           log rng)
    | None =>
        (Raise StructError,
         World (<[p := written ++ lb]> fs) inf (Some (Writer p false)) log rng)
    end.
Proof.
  intros Hlb Hp. unfold write_chunk. unfold bind at 1.
  rewrite write_varlen_int_open, Hlb, Hp. cbn [default].
  unfold bind at 1. unfold bind at 1. unfold lookup_write at 1. cbn [w_outf].
  unfold bind at 1.
  destruct (pack_uint 2 tag) as [tb|]; cbn [lift_struct]; [|reflexivity].
  unfold ret at 1.
  rewrite (write_eq _ _ _ _ _ (written ++ lb)) by apply lookup_insert_eq.
  rewrite insert_insert_eq.
  rewrite (write_eq _ _ _ _ _ ((written ++ lb) ++ tb)) by apply lookup_insert_eq.
  rewrite insert_insert_eq. by rewrite <- !app_assoc.
Qed.

Section ChunkRoundTrip.
Context {D : Documents}.

(** X5.  What [write_chunk] writes is read back as one chunk.  For a
    tag of two bytes and a content of less than 2^32 - 2 bytes,
    [write_chunk] appends to the output file a well-framed chunk, the
    length field, the tag and the content; and when that chunk is one
    that may stand in a header region, a round of the locator whose
    cursor is at these bytes consumes exactly them. *)
Theorem write_chunk_read_back fs inf p log rng written tag content :
  0 <= tag < 65536 -> Z.of_nat (length content) + 2 < 2 ^ 32 ->
  fs !! p = Some written ->
  exists lb,
    let c := Chunk lb tag content in
    write_chunk tag content (World fs inf (Some (Writer p false)) log rng)
    = (Ret tt,
       World (<[p := written ++ chunk_bytes c]> fs) inf (Some (Writer p false)) log rng)
    /\ well_framed c
    /\ forall fs' data pos outf' log' rng' fsz st rest,
         header_region_chunk c -> drop pos data = chunk_bytes c ++ rest ->
         exists log'',
           chunk_round fsz st (World fs' (Reader data pos) outf' log' rng')
           = (Ret (Continue, scan_chunk (Z.of_nat pos) c st),
              World fs' (Reader data (pos + length (chunk_bytes c))) outf' log'' rng').
Proof.
  intros Htag Hlen Hp.
  destruct (varlen_bytes (Z.of_nat (length content) + 2)) as [lb|] eqn:Hlb;
    [|apply varlen_bytes_none_iff in Hlb; lia].
  exists lb. cbv zeta. split; [|split].
  - rewrite (write_chunk_open _ _ _ _ _ written _ _ lb) by done.
    rewrite pack_uint_in_range by (change (2 ^ (8 * Z.of_nat 2)) with 65536; lia).
    reflexivity.
  - split; [by apply varlen_bytes_frame|done].
  - intros fs' data pos outf' log' rng' fsz st rest Hc Hd.
    by apply (chunk_round_region_chunk _ _ _ _ _ _ _ _ _ rest).
Qed.
End ChunkRoundTrip.

Lemma write_chunk_read_back_witness :
  let content := [x08; x00; x00; x00] ++ list_byte_of_string edited_doc in
  exists lb,
    let c := Chunk lb 2 content in
    write_chunk 2 content
      (World {[ "out.xdf"%string := magic ]} (Reader [] 0)
         (Some (Writer "out.xdf" false)) [] [])
    = (Ret tt,
       World (<["out.xdf"%string := magic ++ chunk_bytes c]> {[ "out.xdf"%string := magic ]})
         (Reader [] 0) (Some (Writer "out.xdf" false)) [] [])
    /\ well_framed c
    /\ forall fs' data pos outf' log' rng' fsz st rest,
         @header_region_chunk sample_documents c ->
         drop pos data = chunk_bytes c ++ rest ->
         exists log'',
           @chunk_round sample_documents fsz st
             (World fs' (Reader data pos) outf' log' rng')
           = (Ret (Continue, @scan_chunk sample_documents (Z.of_nat pos) c st),
              World fs' (Reader data (pos + length (chunk_bytes c))) outf' log'' rng').
Proof.
  intros content.
  apply (@write_chunk_read_back sample_documents {[ "out.xdf"%string := magic ]}
           (Reader [] 0) "out.xdf" [] [] magic 2 content).
  - lia.
  - vm_compute. reflexivity.
  - apply lookup_singleton_eq.
Defined.

(** ** The forward scan *)

Lemma scan_forward_loop_outcome f fs data outf log rng :
  forall pos,
    (length data - pos < f)%nat ->
    (exists q rest,
        (pos <= q)%nat /\ drop q data = signature ++ rest
        /\ scan_forward_loop f (World fs (Reader data pos) outf log rng)
           = (Ret tt, World fs (Reader data (q + 15)) outf
                        (log ++ [(DEBUG, Msg_scan_found)]) rng))
    \/ scan_forward_loop f (World fs (Reader data pos) outf log rng)
       = (Ret tt, World fs (Reader data (pos + length (drop pos data))) outf
                    (log ++ [(DEBUG, Msg_scan_eof)]) rng).
Proof.
  pose proof blocklen_pos as Hb.
  induction f as [|f IH]; intros pos Hf; [lia|].
  destruct (decide (bytes_find (take (Z.to_nat blocklen) (drop pos data)) signature = -1))
    as [Hm|Hne].
  - destruct (decide (length (drop pos data) < Z.to_nat blocklen)%nat) as [Hl|Hl].
    + right. by apply scan_forward_loop_eof.
    + rewrite scan_forward_loop_next by (done || lia).
      rewrite length_drop in Hl.
      destruct (IH (pos + Z.to_nat blocklen)%nat ltac:(lia))
        as [(q & rest & Hq & Hd & ->)| ->].
      * left. exists q, rest. split; [lia|done].
      * right. world_eq. rewrite !length_drop. lia.
  - left.
    destruct (bytes_find_found _ _ _ eq_refl Hne) as (pre & post & Heq & Hm & _).
    exists (pos + length pre)%nat,
           (post ++ drop (Z.to_nat blocklen) (drop pos data)).
    split; [lia|]. split.
    + rewrite <- drop_drop.
      rewrite <- (take_drop (Z.to_nat blocklen) (drop pos data)) at 1.
      rewrite Heq, <- !app_assoc, drop_app_length. reflexivity.
    + rewrite (scan_forward_loop_found _ _ _ _ _ _ _ _ eq_refl Hne).
      world_eq.
Qed.

(** X6.  [scan_forward] returns on every handle, with one debug record
    added to the log and nothing else changed but the cursor.  Either
    it reports a match, and then an occurrence of the signature begins
    at some offset [q] at or after the offset it started from and the
    cursor is at [q + 15]; or it reports the end of the file, and the
    cursor is there. *)
Theorem scan_forward_outcome fs data pos outf log rng :
  (exists q rest,
      (pos <= q)%nat /\ drop q data = signature ++ rest
      /\ scan_forward (World fs (Reader data pos) outf log rng)
         = (Ret tt, World fs (Reader data (q + 15)) outf
                      (log ++ [(DEBUG, Msg_scan_found)]) rng))
  \/ scan_forward (World fs (Reader data pos) outf log rng)
     = (Ret tt, World fs (Reader data (pos + length (drop pos data))) outf
                  (log ++ [(DEBUG, Msg_scan_eof)]) rng).
Proof.
  unfold scan_forward. cbn [w_inf r_data].
  apply scan_forward_loop_outcome. lia.
Qed.

(** ** Copying *)

(** [copy_range] with a length that is not negative: as many bytes as
    asked for, or as are left. *)
Lemma copy_range_loop_short f :
  forall n fs data pos p log rng written,
    0 <= n -> (Z.to_nat (n / blocksize) < f)%nat ->
    fs !! p = Some written ->
    copy_range_loop f n (World fs (Reader data pos) (Some (Writer p false)) log rng)
    = (Ret tt,
       World (<[p := written ++ take (Z.to_nat n) (drop pos data)]> fs)
         (Reader data (pos + length (take (Z.to_nat n) (drop pos data))))
         (Some (Writer p false)) log rng).
Proof.
  pose proof blocksize_pos as Hb.
  induction f as [|f IH]; intros n fs data pos p log rng written Hn Hf Hp; [lia|].
  cbn [copy_range_loop].
  destruct (Z.geb_spec n blocksize) as [Hge|Hlt].
  - unfold bind. rewrite (write_read_eq _ _ _ _ _ _ written) by (done || lia).
    assert ((n - blocksize) / blocksize = n / blocksize - 1) as Hdiv.
    { replace (n - blocksize) with (n + (-1) * blocksize) by lia.
      rewrite Z.div_add by lia. lia. }
    assert (0 <= n / blocksize - 1).
    { rewrite <- Hdiv. apply Z.div_pos; lia. }
    rewrite (IH (n - blocksize) _ _ _ _ _ _
               (written ++ take (Z.to_nat blocksize) (drop pos data)));
      [|lia|rewrite Hdiv; lia|apply lookup_insert_eq].
    rewrite insert_insert_eq, <- app_assoc, <- drop_drop.
    set (l := drop pos data).
    assert (take (Z.to_nat blocksize) l
              ++ take (Z.to_nat (n - blocksize)) (drop (length (take (Z.to_nat blocksize) l)) l)
            = take (Z.to_nat n) l) as Hcat.
    { destruct (decide (Z.to_nat blocksize <= length l)%nat) as [Hl|Hl].
      - rewrite length_take_le by done. rewrite take_take_drop. f_equal. lia.
      - rewrite !(take_ge l) by lia. rewrite drop_all, take_nil. apply app_nil_r. }
    rewrite Hcat. apply (f_equal length) in Hcat. rewrite length_app in Hcat.
    world_eq.
  - destruct (Z.eqb_spec n 0) as [->|Hne]; cbn [negb].
    + cbn [Z.to_nat]. rewrite take_0, app_nil_r, insert_id by done.
      unfold ret. world_eq.
    + by rewrite (write_read_eq _ _ _ _ _ _ written) by (done || lia).
Qed.

(** X7.  [copy_range] with a length [n >= 0] appends to the output
    file the next [n] bytes of the input, whatever the block size
    divides [n] into, and moves the input cursor past them.  When fewer
    than [n] bytes are left it copies those and returns all the same:
    a short input is not reported. *)
Theorem copy_range_copies fs data pos p log rng written n :
  0 <= n -> fs !! p = Some written ->
  let block := take (Z.to_nat n) (drop pos data) in
  copy_range (Some n) (World fs (Reader data pos) (Some (Writer p false)) log rng)
  = (Ret tt,
     World (<[p := written ++ block]> fs) (Reader data (pos + length block))
       (Some (Writer p false)) log rng).
Proof.
  intros Hn Hp block. unfold copy_range.
  apply copy_range_loop_short; [done|lia|done].
Qed.

Lemma copy_range_copies_witness :
  copy_range (Some 100)
    (World {[ "out.xdf"%string := [] ]} (Reader two_metadata_file 326)
       (Some (Writer "out.xdf" false)) [] [])
  = (Ret tt,
     World (<["out.xdf"%string := [] ++ [x07; x00; x00; x00; x01; x00]]>
              {[ "out.xdf"%string := [] ]})
       (Reader two_metadata_file (326 + 6)) (Some (Writer "out.xdf" false)) [] []).
Proof.
  apply (copy_range_copies {[ "out.xdf"%string := [] ]} two_metadata_file 326
           "out.xdf" [] [] [] 100); [lia|apply lookup_singleton_eq].
Defined.

(** ** The locator *)

#[global] Instance no_duplicate_warning_refl : Reflexive no_duplicate_warning.
Proof. intros w. exists []. by rewrite app_nil_r. Qed.

#[global] Instance no_duplicate_warning_trans : Transitive no_duplicate_warning.
Proof.
  intros w1 w2 w3 (l1 & E1 & F1) (l2 & E2 & F2). exists (l1 ++ l2).
  rewrite E2, E1, app_assoc. split; [done|by apply Forall_app].
Qed.

Lemma same_log_quiet w w' : w_log w' = w_log w -> no_duplicate_warning w w'.
Proof. intros H. exists []. by rewrite app_nil_r. Qed.

Lemma tell_quiet : preserves no_duplicate_warning tell.
Proof. intros w. by apply same_log_quiet. Qed.

Lemma seek_quiet p : preserves no_duplicate_warning (seek p).
Proof. intros w. apply same_log_quiet. unfold seek. by destruct (p <? 0). Qed.

Lemma read_quiet n : preserves no_duplicate_warning (read n).
Proof. intros w. apply same_log_quiet. unfold read. by destruct (n <? -1). Qed.

Lemma getsize_quiet p : preserves no_duplicate_warning (getsize p).
Proof. intros w. apply same_log_quiet. unfold getsize. by destruct (w_fs w !! p). Qed.

Lemma fresh_stream_id_quiet ids : preserves no_duplicate_warning (fresh_stream_id ids).
Proof.
  intros w. apply same_log_quiet. unfold fresh_stream_id.
  by destruct (draw_fresh (w_rng w) ids) as [[k rest]|].
Qed.

Lemma emit_quiet l m :
  (forall f, m <> Msg_more_than_one f) -> preserves no_duplicate_warning (emit l m).
Proof.
  intros H w. exists [(l, m)]. split; [done|]. by apply Forall_singleton.
Qed.

#[global] Hint Resolve tell_quiet seek_quiet read_quiet getsize_quiet
  fresh_stream_id_quiet : frame.

Ltac quiet_step :=
  lazymatch goal with
  | |- preserves _ (emit _ _) => apply emit_quiet; intros ?; discriminate
  | _ => frame_step
  end.
Ltac quiet := repeat quiet_step.

Lemma read_varlen_int_quiet : preserves no_duplicate_warning read_varlen_int.
Proof. unfold read_varlen_int. quiet. Qed.

Lemma scan_forward_loop_quiet f : preserves no_duplicate_warning (scan_forward_loop f).
Proof.
  induction f as [|f IH]; cbn [scan_forward_loop];
    [apply preserves_out_of_fuel; typeclasses eauto|].
  apply preserves_bind; [typeclasses eauto|apply tell_quiet|intros curpos].
  apply preserves_bind; [typeclasses eauto|apply read_quiet|intros block].
  destruct (negb (bytes_find block signature =? -1)).
  - apply preserves_bind; [typeclasses eauto|apply seek_quiet|intros _].
    apply emit_quiet. intros ?. discriminate.
  - destruct (Z.of_nat (length block) <? blocklen); [|exact IH].
    apply emit_quiet. intros ?. discriminate.
Qed.

Lemma scan_forward_quiet : preserves no_duplicate_warning scan_forward.
Proof. intros w. unfold scan_forward. apply scan_forward_loop_quiet. Qed.

#[global] Hint Resolve read_varlen_int_quiet scan_forward_quiet : frame.

Section LocatorLog.
Context {D : Documents}.

Lemma on_stream_header_quiet b c st :
  preserves no_duplicate_warning (on_stream_header b c st).
Proof. unfold on_stream_header, is_metadata_header, log_found_stream. quiet. Qed.

Lemma on_data_chunk_quiet st : preserves no_duplicate_warning (on_data_chunk st).
Proof. unfold on_data_chunk. quiet. Qed.

Hint Resolve on_stream_header_quiet on_data_chunk_quiet : frame.

Lemma chunk_round_quiet fsz st : preserves no_duplicate_warning (chunk_round fsz st).
Proof. unfold chunk_round. quiet. Qed.

Lemma traverse_quiet f fsz st : preserves no_duplicate_warning (traverse f fsz st).
Proof.
  revert st. induction f as [|f IH]; intros st; cbn [traverse]; [quiet|].
  apply preserves_bind; [typeclasses eauto|apply chunk_round_quiet|].
  intros [[] st']; [apply IH|quiet].
Qed.

Lemma traverse_chunks_quiet fsz : preserves no_duplicate_warning (traverse_chunks fsz).
Proof. intros w. unfold traverse_chunks. apply traverse_quiet. Qed.
End LocatorLog.

Section RegionScan.
Context {D : Documents}.

Lemma scan_chunk_other_tag p c st :
  c_tag c <> ChunkTags.STREAM_HEADER_TAG -> scan_chunk p c st = st.
Proof.
  intros H. unfold scan_chunk.
  by destruct (Z.eqb_spec (c_tag c) ChunkTags.STREAM_HEADER_TAG).
Qed.

Lemma scan_region_no_headers p cs st :
  Forall (fun c => c_tag c <> ChunkTags.STREAM_HEADER_TAG) cs ->
  scan_region p cs st = st.
Proof.
  intros H. revert p st. induction H as [|c cs Hc _ IH]; intros p st; [done|].
  cbn [scan_region]. by rewrite scan_chunk_other_tag, IH.
Qed.

(** A stream header that is not a metadata header is noted as one more
    stream, and as the start of the headers if it is the first. *)
Lemma scan_chunk_plain_header p c st :
  c_tag c = ChunkTags.STREAM_HEADER_TAG -> ~ is_metadata_chunk c ->
  scan_chunk p c st
  = Scan (match streamheaders_begin st with None => Some p | Some b => Some b end)
      (metadata_begin st) (metadata_len st) (metadata_content st) (metadata_id st)
      (other_ids st ++ [stream_id_of c]) (has_more_than_one st).
Proof.
  intros Ht Hn. unfold scan_chunk. rewrite Ht. cbn [Z.eqb Pos.eqb].
  destruct (matches_metadata (document_of c)) as [[]|] eqn:E;
    [exfalso; by apply Hn|..]; by destruct (metadata_begin st).
Qed.

Lemma header_ids_cons c cs :
  header_ids (c :: cs)
  = if decide (c_tag c = ChunkTags.STREAM_HEADER_TAG)
    then stream_id_of c :: header_ids cs else header_ids cs.
Proof.
  unfold header_ids. rewrite filter_cons.
  by destruct (decide (c_tag c = ChunkTags.STREAM_HEADER_TAG)).
Qed.

(** A region without a metadata header changes nothing of the record
    of the metadata chunk; its stream headers are added to the other
    ids. *)
Lemma scan_region_no_metadata cs :
  Forall (fun c => ~ is_metadata_chunk c) cs ->
  forall p st,
    let st' := scan_region p cs st in
    metadata_begin st' = metadata_begin st
    /\ metadata_len st' = metadata_len st
    /\ metadata_content st' = metadata_content st
    /\ metadata_id st' = metadata_id st
    /\ has_more_than_one st' = has_more_than_one st
    /\ other_ids st' = other_ids st ++ header_ids cs
    /\ (forall b, streamheaders_begin st = Some b -> streamheaders_begin st' = Some b).
Proof.
  induction 1 as [|c cs Hc _ IH]; intros p st; cbn [scan_region].
  - cbv zeta. unfold header_ids. cbn. by rewrite app_nil_r.
  - rewrite header_ids_cons.
    specialize (IH (p + Z.of_nat (length (chunk_bytes c))) (scan_chunk p c st)).
    cbv zeta in IH. destruct IH as (I1 & I2 & I3 & I4 & I5 & I6 & I7).
    destruct (decide (c_tag c = ChunkTags.STREAM_HEADER_TAG)) as [Ht|Ht].
    + rewrite (scan_chunk_plain_header p c st Ht Hc) in *.
      cbn [metadata_begin metadata_len metadata_content metadata_id
           has_more_than_one other_ids streamheaders_begin] in *.
      do 5 (split; [done|]). split; [by rewrite I6, <- app_assoc|].
      intros b Hb. apply I7. by rewrite Hb.
    + rewrite (scan_chunk_other_tag p c st Ht) in *. done.
Qed.

(** The variables after a region whose first stream header is [h], no
    chunk of which is a metadata header. *)
Lemma scan_region_first_header pre h post :
  Forall (fun c => c_tag c <> ChunkTags.STREAM_HEADER_TAG) pre ->
  c_tag h = ChunkTags.STREAM_HEADER_TAG ->
  Forall (fun c => ~ is_metadata_chunk c) (pre ++ h :: post) ->
  let st := scan_region 4 (pre ++ h :: post) scan_init in
  streamheaders_begin st = Some (4 + Z.of_nat (length (frames pre)))
  /\ metadata_content st = None
  /\ other_ids st = header_ids (pre ++ h :: post)
  /\ has_more_than_one st = false.
Proof.
  intros Hpre Hh Hn. cbv zeta.
  destruct (scan_region_no_metadata _ Hn 4 scan_init) as (_ & _ & S3 & _ & S5 & S6 & _).
  split; [|done].
  rewrite scan_region_app, (scan_region_no_headers _ pre) by done.
  cbn [scan_region].
  apply Forall_app in Hn as [_ Hn]. apply Forall_cons in Hn as [Hnh Hn].
  destruct (scan_region_no_metadata _ Hn
              (4 + Z.of_nat (length (frames pre)) + Z.of_nat (length (chunk_bytes h)))
              (scan_chunk (4 + Z.of_nat (length (frames pre))) h scan_init))
    as (_ & _ & _ & _ & _ & _ & S7).
  apply S7. by rewrite scan_chunk_plain_header.
Qed.

(** The variables after a region whose first metadata header is
    [c1]. *)
Lemma scan_region_first_metadata pre c1 post :
  Forall header_region_chunk pre ->
  Forall (fun c => ~ is_metadata_chunk c) pre -> is_metadata_chunk c1 ->
  let st := scan_region 4 (pre ++ c1 :: post) scan_init in
  metadata_begin st = Some (4 + Z.of_nat (length (frames pre)))
  /\ metadata_len st = Some (Z.of_nat (length (chunk_bytes c1)))
  /\ metadata_content st = Some (document_of c1)
  /\ metadata_id st = Some (stream_id_of c1)
  /\ (Forall (fun c => ~ is_metadata_chunk c) post -> has_more_than_one st = false).
Proof.
  intros Hrpre Hpre Hc1. cbv zeta.
  rewrite scan_region_app. cbn [scan_region].
  set (st_pre := scan_region 4 pre scan_init).
  set (p1 := 4 + Z.of_nat (length (frames pre))).
  destruct (scan_region_nothing_recorded 4 pre scan_init Hrpre Hpre eq_refl)
    as [Hb0 Hf0]. fold st_pre in Hb0, Hf0.
  destruct (scan_chunk_first p1 c1 st_pre Hc1 Hb0) as (B1 & B2 & B3 & B4 & B5).
  destruct (scan_region_recorded (p1 + Z.of_nat (length (chunk_bytes c1))) post
              (scan_chunk p1 c1 st_pre) p1 B1) as (R1 & R2 & R3 & R4 & _).
  do 4 (split; [congruence|]).
  intros Hpost.
  destruct (scan_region_no_metadata _ Hpost (p1 + Z.of_nat (length (chunk_bytes c1)))
              (scan_chunk p1 c1 st_pre)) as (_ & _ & _ & _ & S5 & _).
  rewrite S5, B5, Hf0. reflexivity.
Qed.

(** The traversal of a file that begins with a header region. *)
Lemma traverse_chunks_region fs outf log rng cs tail :
  let data := magic ++ frames cs ++ tail in
  Forall header_region_chunk cs ->
  exists log1,
    traverse_chunks (Z.of_nat (length data)) (World fs (Reader data 4) outf log rng)
    = traverse (S (length data - length cs)) (Z.of_nat (length data))
        (scan_region 4 cs scan_init)
        (World fs (Reader data (4 + length (frames cs))) outf log1 rng).
Proof.
  intros data Hcs.
  assert (drop 4 data = frames cs ++ tail) as Hd by reflexivity.
  assert (length cs <= length data)%nat as Hlen.
  { pose proof (frames_length cs Hcs). unfold data. rewrite !length_app. lia. }
  unfold traverse_chunks. cbn [w_inf r_data].
  replace (S (length data)) with (length cs + S (length data - length cs))%nat by lia.
  destruct (traverse_region fs data outf rng (Z.of_nat (length data)) tail cs Hcs
              scan_init 4%nat log (S (length data - length cs)) Hd) as [log1 ->].
  by exists log1.
Qed.

(** What the locator returns once the traversal has returned. *)
Lemma get_metadata_content_traversed fs filepath outf log rng pos0 data
    st pos' log' rng' :
  fs !! filepath = Some data -> take 4 data = magic ->
  traverse_chunks (Z.of_nat (length data)) (World fs (Reader data 4) outf log rng)
  = (Ret st, World fs (Reader data pos') outf log' rng') ->
  get_metadata_content filepath (World fs (Reader data pos0) outf log rng)
  = (Ret (metadata_content st, metadata_begin st, metadata_len st, metadata_id st),
     World fs (Reader data pos0) outf
       (if has_more_than_one st
        then log' ++ [(WARNING, Msg_more_than_one filepath)] else log') rng').
Proof.
  intros Hfs Hm Ht. unfold get_metadata_content.
  unfold bind at 1. rewrite (getsize_eq _ _ _ _ _ _ _ Hfs).
  unfold bind at 1. rewrite tell_eq.
  unfold bind at 1. rewrite seek_nonneg by lia. change (Z.to_nat 0) with 0%nat.
  unfold bind at 1.
  rewrite (read_prefix _ _ _ _ _ _ magic (drop 4 data));
    [|by rewrite drop_0, <- Hm, take_drop|done].
  rewrite bool_decide_eq_true_2 by done. cbn [negb].
  unfold bind at 1. cbn [length magic Nat.add]. rewrite Ht.
  destruct (has_more_than_one st).
  - unfold bind at 1. rewrite emit_eq.
    unfold bind at 1. rewrite seek_nonneg by lia. by rewrite Nat2Z.id.
  - unfold bind at 1. unfold ret at 1.
    unfold bind at 1. rewrite seek_nonneg by lia. by rewrite Nat2Z.id.
Qed.

(** The traversal of a file whose header region has [c1] as its first
    metadata header. *)
Lemma traverse_chunks_first_metadata fs outf log rng pre c1 post tail :
  let cs := pre ++ c1 :: post in
  let data := magic ++ frames cs ++ tail in
  Forall header_region_chunk cs ->
  Forall (fun c => ~ is_metadata_chunk c) pre -> is_metadata_chunk c1 ->
  data_boundary tail ->
  exists st pos' log',
    traverse_chunks (Z.of_nat (length data)) (World fs (Reader data 4) outf log rng)
    = (Ret st, World fs (Reader data pos') outf log' rng)
    /\ metadata_begin st = Some (4 + Z.of_nat (length (frames pre)))
    /\ metadata_len st = Some (Z.of_nat (length (chunk_bytes c1)))
    /\ metadata_content st = Some (document_of c1)
    /\ metadata_id st = Some (stream_id_of c1)
    /\ (Forall (fun c => ~ is_metadata_chunk c) post -> has_more_than_one st = false).
Proof.
  intros cs data Hcs Hpre Hc1 Htail.
  assert (Forall header_region_chunk pre) as Hrpre.
  { unfold cs in Hcs. by apply Forall_app in Hcs as [? _]. }
  destruct (traverse_chunks_region fs outf log rng cs tail Hcs) as [log1 Hreg].
  fold data in Hreg.
  destruct (scan_region_first_metadata pre c1 post Hrpre Hpre Hc1)
    as (S1 & S2 & S3 & S4 & S5).
  fold cs in S1, S2, S3, S4, S5.
  destruct (traverse_boundary_recorded fs data outf rng (4 + length (frames cs)) log1
              (length data - length cs) (scan_region 4 cs scan_init) tail
              (document_of c1) Htail)
    as (pos' & log' & Ht); [by apply (drop_past _ 4 (frames cs) tail)|done|].
  exists (scan_region 4 cs scan_init), pos', log'.
  split; [by rewrite Hreg|done].
Qed.
End RegionScan.

Lemma unreadable_at_end data pos : drop pos data = [] -> unreadable data pos.
Proof.
  intros Hd fs outf log rng. exists StructError, pos. by apply read_varlen_int_eof.
Qed.

Lemma unreadable_width data pos b rest :
  drop pos data = b :: rest ->
  byte_to_Z b <> 1 -> byte_to_Z b <> 4 -> byte_to_Z b <> 8 ->
  unreadable data pos.
Proof.
  intros Hd H1 H4 H8 fs outf log rng. exists RuntimeError, (pos + 1)%nat.
  rewrite read_varlen_int_cases, Hd. cbv zeta.
  pose proof (byte_to_Z_range b). by rewrite bool_decide_eq_false_2 by lia.
Qed.

(** The last byte of the signature is not a width. *)
Lemma unreadable_after_match data q rest :
  drop q data = signature ++ rest -> unreadable data (q + 15).
Proof.
  intros Hd. apply (unreadable_width _ _ xe4 rest); [|by vm_compute..].
  rewrite <- drop_drop, Hd. reflexivity.
Qed.

Section Recovery.
Context {D : Documents}.

(** A round at an offset where no length field can be read. *)
Lemma chunk_round_unreadable fs data pos outf log rng st e pos1 :
  read_varlen_int (World fs (Reader data pos) outf log rng)
  = (Raise e, World fs (Reader data pos1) outf log rng) ->
  chunk_round (Z.of_nat (length data)) st (World fs (Reader data pos) outf log rng)
  = if Z.of_nat pos1 <? Z.of_nat (length data) - 1024
    then (scan_forward ;;; ret (Continue, st))
           (World fs (Reader data pos1) outf
              (log ++ [(WARNING, Msg_zero_length_chunk)]) rng)
    else (Ret (Break, st),
          World fs (Reader data pos1) outf (log ++ [(DEBUG, Msg_reached_eof)]) rng).
Proof.
  intros Hr. unfold chunk_round. unfold bind at 1. rewrite tell_eq.
  unfold bind at 1. unfold try_except. unfold bind at 1. rewrite Hr.
  unfold bind at 1. rewrite tell_eq.
  destruct (Z.of_nat pos1 <? Z.of_nat (length data) - 1024).
  - unfold bind at 1. rewrite emit_eq.
    unfold bind.
    match goal with
    | |- context [scan_forward ?w] => destruct (scan_forward w) as [[[]|e'| |] w']
    end; reflexivity.
  - unfold bind at 1. rewrite emit_eq. reflexivity.
Qed.

(** Once a length field cannot be read, no chunk is read any more: the
    scan for a boundary chunk stops on a byte that is not a width, or
    at the end of the file, and the traversal ends with the variables
    it had. *)
Lemma traverse_unreadable fs data outf rng st f :
  forall pos log,
    unreadable data pos -> (length data - pos < f)%nat ->
    exists pos' log',
      traverse f (Z.of_nat (length data)) st (World fs (Reader data pos) outf log rng)
      = (Ret st, World fs (Reader data pos') outf log' rng).
Proof.
  induction f as [|f IH]; intros pos log Hu Hf; [lia|].
  destruct (Hu fs outf log rng) as (e & pos1 & Hr).
  cbn [traverse]. unfold bind at 1.
  rewrite (chunk_round_unreadable _ _ _ _ _ _ _ _ _ Hr).
  destruct (Z.ltb_spec (Z.of_nat pos1) (Z.of_nat (length data) - 1024)) as [Hlt|Hge];
    [|by eexists _, _].
  pose proof (read_varlen_int_failed_moves _ _ _ Hr) as Hmv.
  cbn [w_inf r_pos r_data] in Hmv. specialize (Hmv ltac:(lia)).
  unfold bind at 1.
  destruct (scan_forward_loop_outcome (S (length data)) fs data outf
              (log ++ [(WARNING, Msg_zero_length_chunk)]) rng pos1 ltac:(lia))
    as [(q & rest & Hq & Hd & Hs)|Hs];
    unfold scan_forward at 1; cbn [w_inf r_data]; rewrite Hs; unfold ret at 1.
  - apply IH; [by apply (unreadable_after_match _ _ rest)|].
    apply (f_equal length) in Hd.
    rewrite length_drop, length_app, length_signature in Hd. lia.
  - apply IH; [|rewrite length_drop; lia].
    apply unreadable_at_end. apply drop_ge. rewrite length_drop. lia.
Qed.

(** The traversal of a header region that ends with the file. *)
Lemma traverse_end_of_file fs data outf rng pos log f st :
  drop pos data = [] ->
  traverse (S f) (Z.of_nat (length data)) st (World fs (Reader data pos) outf log rng)
  = (Ret st, World fs (Reader data pos) outf (log ++ [(DEBUG, Msg_reached_eof)]) rng).
Proof.
  intros Hd. cbn [traverse]. unfold bind.
  rewrite chunk_round_eof; [reflexivity|done|].
  apply (f_equal length) in Hd. rewrite length_drop in Hd. cbn [length] in Hd. lia.
Qed.
End Recovery.

Section LocatorResults.
Context {D : Documents}.

(** X8.  A file whose header region holds exactly one metadata
    header.  The locator returns the document of that header, the
    offset of its chunk, the length of the chunk in the file and its
    stream id; it restores the cursor, changes nothing else but the
    log, and logs no warning about a second metadata stream. *)
Theorem single_metadata_header_is_located
    fs filepath outf log rng pos0 pre c1 post tail :
  let cs := pre ++ c1 :: post in
  let data := magic ++ frames cs ++ tail in
  Forall header_region_chunk cs ->
  Forall (fun c => ~ is_metadata_chunk c) pre ->
  is_metadata_chunk c1 ->
  Forall (fun c => ~ is_metadata_chunk c) post ->
  data_boundary tail ->
  fs !! filepath = Some data ->
  exists l,
    get_metadata_content filepath (World fs (Reader data pos0) outf log rng)
    = (Ret (Some (document_of c1),
            Some (4 + Z.of_nat (length (frames pre))),
            Some (Z.of_nat (length (chunk_bytes c1))),
            Some (stream_id_of c1)),
       World fs (Reader data pos0) outf (log ++ l) rng)
    /\ Forall (fun r : log_record => forall f, r.2 <> Msg_more_than_one f) l.
Proof.
  intros cs data Hcs Hpre Hc1 Hpost Htail Hfs.
  destruct (traverse_chunks_first_metadata fs outf log rng pre c1 post tail
              Hcs Hpre Hc1 Htail)
    as (st & pos' & log' & Ht & S1 & S2 & S3 & S4 & S5).
  fold cs data in Ht.
  destruct (preserves_run _ _ _ _ _ (traverse_chunks_quiet _) Ht) as (l & Hl & Hq).
  cbn [w_log] in Hl. subst log'. exists l. split; [|done].
  rewrite (get_metadata_content_traversed _ _ _ _ _ _ _ _ _ _ _ Hfs eq_refl Ht).
  by rewrite S1, S2, S3, S4, (S5 Hpost).
Qed.

(** The locator on a file without a metadata header whose data begin
    after the stream header [h]. *)
Lemma get_metadata_content_synthesized
    fs filepath outf log rng pos0 pre h post lb L tagb rest k rng' :
  let cs := pre ++ h :: post in
  let data := magic ++ frames cs ++ lb ++ tagb ++ rest in
  Forall header_region_chunk cs ->
  Forall (fun c => ~ is_metadata_chunk c) cs ->
  Forall (fun c => c_tag c <> ChunkTags.STREAM_HEADER_TAG) pre ->
  c_tag h = ChunkTags.STREAM_HEADER_TAG ->
  varlen_frame lb L -> length tagb = 2%nat ->
  le_to_Z tagb = ChunkTags.SAMPLES_TAG \/ le_to_Z tagb = ChunkTags.STREAM_FOOTER_TAG ->
  draw_fresh rng (header_ids cs) = Some (k, rng') ->
  fs !! filepath = Some data ->
  exists log',
    get_metadata_content filepath (World fs (Reader data pos0) outf log rng)
    = (Ret (Some metadata_default,
            Some (4 + Z.of_nat (length (frames pre))), Some 0, Some k),
       World fs (Reader data pos0) outf log' rng').
Proof.
  intros cs data Hcs Hn Hpre Hh HF Ht Htag Hk Hfs.
  destruct (traverse_chunks_region fs outf log rng cs (lb ++ tagb ++ rest) Hcs)
    as [log1 Hreg]. fold data in Hreg.
  destruct (scan_region_first_header pre h post Hpre Hh Hn) as (S1 & S2 & S3 & S4).
  fold cs in S1, S2, S3, S4.
  set (st := scan_region 4 cs scan_init) in *.
  assert (drop (4 + length (frames cs)) data = lb ++ tagb ++ rest) as Hd
    by (by apply (drop_past _ 4 (frames cs))).
  rewrite <- S3 in Hk.
  cbn [traverse] in Hreg. unfold bind at 1 in Hreg.
  rewrite (chunk_round_synthesizes _ _ _ _ _ _ _ _ _ _ _ _ _ _ Hd HF Ht Htag S2 Hk)
    in Hreg.
  unfold ret at 1 in Hreg.
  eexists.
  rewrite (get_metadata_content_traversed _ _ _ _ _ _ _ _ _ _ _ Hfs eq_refl Hreg).
  cbn [metadata_content metadata_begin metadata_len metadata_id has_more_than_one].
  rewrite S1, S4. reflexivity.
Qed.

(** X9.  A file without a metadata header whose data begin after at
    least one stream header.  The locator returns the default
    document with an empty span at the offset of the first stream
    header, and as stream id the first value drawn that is not the id
    of a stream header of the region. *)
Theorem default_goes_before_first_stream_header
    fs filepath outf log rng pos0 pre h post lb L tagb rest k rng' :
  let cs := pre ++ h :: post in
  let data := magic ++ frames cs ++ lb ++ tagb ++ rest in
  Forall header_region_chunk cs ->
  Forall (fun c => ~ is_metadata_chunk c) cs ->
  Forall (fun c => c_tag c <> ChunkTags.STREAM_HEADER_TAG) pre ->
  c_tag h = ChunkTags.STREAM_HEADER_TAG ->
  varlen_frame lb L -> length tagb = 2%nat ->
  le_to_Z tagb = ChunkTags.SAMPLES_TAG \/ le_to_Z tagb = ChunkTags.STREAM_FOOTER_TAG ->
  draw_fresh rng (header_ids cs) = Some (k, rng') ->
  fs !! filepath = Some data ->
  (exists log',
     get_metadata_content filepath (World fs (Reader data pos0) outf log rng)
     = (Ret (Some metadata_default,
             Some (4 + Z.of_nat (length (frames pre))), Some 0, Some k),
        World fs (Reader data pos0) outf log' rng'))
  /\ k ∉ header_ids cs.
Proof.
  intros cs data Hcs Hn Hpre Hh HF Ht Htag Hk Hfs.
  split; [|by apply (draw_fresh_spec _ _ _ _ Hk)].
  by apply (get_metadata_content_synthesized _ _ _ _ _ _ pre h post lb L tagb rest).
Qed.

(** A header region without a metadata header that ends with the
    file: nothing is on record and nothing is synthesized. *)
Lemma locator_headers_only fs filepath outf log rng pos0 cs :
  let data := magic ++ frames cs in
  Forall header_region_chunk cs ->
  Forall (fun c => ~ is_metadata_chunk c) cs ->
  fs !! filepath = Some data ->
  exists log',
    get_metadata_content filepath (World fs (Reader data pos0) outf log rng)
    = (Ret (None, None, None, None), World fs (Reader data pos0) outf log' rng).
Proof.
  intros data Hcs Hn Hfs.
  destruct (traverse_chunks_region fs outf log rng cs [] Hcs) as [log1 Hreg].
  rewrite app_nil_r in Hreg. fold data in Hreg.
  destruct (scan_region_no_metadata _ Hn 4 scan_init) as (S1 & S2 & S3 & S4 & S5 & _).
  cbn [metadata_begin metadata_len metadata_content metadata_id has_more_than_one
       scan_init] in S1, S2, S3, S4, S5.
  rewrite traverse_end_of_file in Hreg
    by (apply drop_ge; unfold data; rewrite length_app; cbn [length magic]; lia).
  eexists.
  rewrite (get_metadata_content_traversed _ _ _ _ _ _ _ _ _ _ _ Hfs eq_refl Hreg).
  by rewrite S1, S2, S3, S4, S5.
Qed.

(** X10.  The recovery from a damaged length field recovers nothing.
    When the header region is followed by a byte that is not a width,
    the locator returns what it had on record at that point, whatever
    comes after that byte: later boundary chunks, stream headers and
    data chunks are not read, and no default document is synthesized.
    With no metadata header before the damage it returns four
    [None]. *)
Theorem unreadable_length_field_ends_traversal
    fs filepath outf log rng pos0 cs b rest :
  let data := magic ++ frames cs ++ b :: rest in
  let st := scan_region 4 cs scan_init in
  Forall header_region_chunk cs ->
  byte_to_Z b <> 1 -> byte_to_Z b <> 4 -> byte_to_Z b <> 8 ->
  fs !! filepath = Some data ->
  (exists log',
     get_metadata_content filepath (World fs (Reader data pos0) outf log rng)
     = (Ret (metadata_content st, metadata_begin st, metadata_len st, metadata_id st),
        World fs (Reader data pos0) outf log' rng))
  /\ (Forall (fun c => ~ is_metadata_chunk c) cs ->
      metadata_content st = None /\ metadata_begin st = None
      /\ metadata_len st = None /\ metadata_id st = None).
Proof.
  intros data st Hcs H1 H4 H8 Hfs. split.
  - destruct (traverse_chunks_region fs outf log rng cs (b :: rest) Hcs)
      as [log1 Hreg]. fold data st in Hreg.
    assert (drop (4 + length (frames cs)) data = b :: rest) as Hd
      by (by apply (drop_past _ 4 (frames cs))).
    destruct (traverse_unreadable fs data outf rng st (S (length data - length cs))
                (4 + length (frames cs)) log1) as (pos' & log' & Ht).
    { by apply (unreadable_width _ _ b rest). }
    { pose proof (frames_length cs Hcs). lia. }
    rewrite Ht in Hreg. eexists.
    rewrite (get_metadata_content_traversed _ _ _ _ _ _ _ _ _ _ _ Hfs eq_refl Hreg).
    reflexivity.
  - intros Hn.
    destruct (scan_region_no_metadata _ Hn 4 scan_init) as (S1 & S2 & S3 & S4 & _).
    fold st in S1, S2, S3, S4. by rewrite S1, S2, S3, S4.
Qed.

(** X11.  The locator leaves the files alone.  Whether it returns or
    raises, the file system and the output handle are what they were,
    and the handle it reads from is still over the same bytes. *)
Theorem locator_never_writes filepath w :
  let w' := (get_metadata_content filepath w).2 in
  w_fs w' = w_fs w /\ w_outf w' = w_outf w /\ r_data (w_inf w') = r_data (w_inf w).
Proof. apply get_metadata_content_same_files. Qed.

(** X13.  The span that the locator returns lies within the file:
    neither the offset nor the length is negative and the span ends
    at or before the end of the bytes behind the handle. *)
Theorem located_span_is_within_file filepath w c b l i w' :
  get_metadata_content filepath w = (Ret (c, Some b, Some l, i), w') ->
  0 <= b /\ 0 <= l /\ b + l <= Z.of_nat (length (r_data (w_inf w))).
Proof. apply get_metadata_content_span. Qed.
End LocatorResults.

Ltac sample_region :=
  repeat (apply List.Forall_cons; [|try apply List.Forall_nil]);
  (split; [split; [vm_compute; constructor|cbn; lia]|]);
  (split; [intros [=]|split; [intros [=]|]]);
  let H := fresh in
  intros H;
  first [ vm_compute in H; discriminate H
        | split; [vm_compute; lia|eexists; vm_compute; reflexivity] ].

Ltac sample_plain :=
  repeat (apply List.Forall_cons; [|try apply List.Forall_nil]);
  let Ht := fresh in
  let Hm := fresh in
  intros [Ht Hm]; vm_compute in Ht, Hm; first [discriminate Ht | discriminate Hm].

Lemma single_metadata_header_is_located_witness :
  let pre := [file_header; sample_header x07 eeg_doc] in
  let c1 := sample_header x08 metadata_doc in
  let post := [Chunk [x01; x12] 5 signature] in
  let data := magic ++ frames (pre ++ c1 :: post) ++ samples_chunk in
  exists l,
    @get_metadata_content sample_documents "in.xdf" (start_world "in.xdf" data [])
    = (Ret (Some (list_byte_of_string metadata_doc), Some 128, Some 98, Some 8),
       World {[ "in.xdf"%string := data ]} (Reader data 0) None ([] ++ l) [])
    /\ Forall (fun r : log_record => forall f, r.2 <> Msg_more_than_one f) l.
Proof.
  intros pre c1 post data.
  apply (@single_metadata_header_is_located sample_documents
           {[ "in.xdf"%string := data ]} "in.xdf" None [] [] 0%nat pre c1 post
           samples_chunk).
  - sample_region.
  - sample_plain.
  - split; [reflexivity|vm_compute; reflexivity].
  - sample_plain.
  - right. exists [x01; x08], 8, [x03; x00], [x07; x00; x00; x00; x01; x00].
    split; [reflexivity|]. split; [exact (varlen_frame_1 x08)|].
    split; [reflexivity|]. by left.
  - apply lookup_singleton_eq.
Defined.

Lemma default_goes_before_first_stream_header_witness :
  let cs := [file_header] ++ sample_header x07 eeg_doc :: [] in
  let data := magic ++ frames cs ++ [x01; x08] ++ [x03; x00]
                ++ [x07; x00; x00; x00; x01; x00] in
  (exists log',
     @get_metadata_content sample_documents "in.xdf"
       (start_world "in.xdf" data [7; 12345])
     = (Ret (Some (list_byte_of_string sample_default), Some 43, Some 0, Some 12345),
        World {[ "in.xdf"%string := data ]} (Reader data 0) None log' []))
  /\ 12345 ∉ header_ids cs.
Proof.
  intros cs data.
  apply (@default_goes_before_first_stream_header sample_documents
           {[ "in.xdf"%string := data ]} "in.xdf" None [] [7; 12345] 0%nat
           [file_header] (sample_header x07 eeg_doc) []
           [x01; x08] 8 [x03; x00] [x07; x00; x00; x00; x01; x00] 12345 []).
  - sample_region.
  - sample_plain.
  - repeat constructor. intros [=].
  - reflexivity.
  - exact (varlen_frame_1 x08).
  - reflexivity.
  - by left.
  - vm_compute. reflexivity.
  - apply lookup_singleton_eq.
Defined.

Lemma unreadable_length_field_ends_traversal_witness :
  let cs := [file_header; sample_header x07 eeg_doc] in
  let rest := signature ++ chunk_bytes (sample_header x08 metadata_doc) ++ samples_chunk in
  let data := magic ++ frames cs ++ x00 :: rest in
  let st := @scan_region sample_documents 4 cs scan_init in
  (exists log',
     @get_metadata_content sample_documents "in.xdf" (start_world "in.xdf" data [])
     = (Ret (metadata_content st, metadata_begin st, metadata_len st, metadata_id st),
        World {[ "in.xdf"%string := data ]} (Reader data 0) None log' []))
  /\ (Forall (fun c => ~ @is_metadata_chunk sample_documents c) cs ->
      metadata_content st = None /\ metadata_begin st = None
      /\ metadata_len st = None /\ metadata_id st = None).
Proof.
  intros cs rest data st.
  apply (@unreadable_length_field_ends_traversal sample_documents
           {[ "in.xdf"%string := data ]} "in.xdf" None [] [] 0%nat cs x00 rest).
  - sample_region.
  - by vm_compute.
  - by vm_compute.
  - by vm_compute.
  - apply lookup_singleton_eq.
Defined.

Lemma located_span_is_within_file_witness :
  let w := start_world "in.xdf" two_metadata_file [] in
  let r := @get_metadata_content sample_documents "in.xdf" w in
  r = (Ret (Some (list_byte_of_string metadata_doc), Some 128, Some 98, Some 8), r.2)
  /\ 0 <= 128 /\ 0 <= 98 /\ 128 + 98 <= Z.of_nat (length two_metadata_file).
Proof.
  intros w r.
  assert (r = (Ret (Some (list_byte_of_string metadata_doc), Some 128, Some 98, Some 8),
               r.2)) as H
    by (vm_compute; reflexivity).
  split; [exact H|].
  exact (@located_span_is_within_file sample_documents "in.xdf" w _ _ _ _ _ H).
Defined.

(** ** Processing a file *)

Lemma bind_fst_ret {A B} (m : M A) (k : A -> M B) w b :
  (bind m k w).1 = Ret b -> exists a w1, m w = (Ret a, w1) /\ (k a w1).1 = Ret b.
Proof.
  unfold bind. destruct (m w) as [[a|e| |] w1]; cbn [fst]; try discriminate.
  intros H. by exists a, w1.
Qed.

Lemma try_finally_fst_ret {A} (m : M A) (f : M unit) w a :
  (try_finally m f w).1 = Ret a -> (m w).1 = Ret a.
Proof.
  unfold try_finally. destruct (m w) as [r w1]. cbn [fst].
  by destruct (f w1) as [[[]|e| |] w2].
Qed.

#[global] Instance writes_only_refl p : Reflexive (writes_only p).
Proof. by intros w H. Qed.

#[global] Instance writes_only_trans p : Transitive (writes_only p).
Proof.
  intros w1 w2 w3 H12 H23 H1. destruct (H12 H1) as [H2 E12].
  destruct (H23 H2) as [H3 E23]. split; [done|].
  intros q Hq. by rewrite E23, E12.
Qed.

Lemma same_files_writes_only p w w' : same_files w w' -> writes_only p w w'.
Proof.
  intros (Hfs & Ho & _) H. split; [by rewrite Ho|]. intros q _. by rewrite Hfs.
Qed.

Lemma preserves_same_files_writes_only {A} p (m : M A) :
  preserves same_files m -> preserves (writes_only p) m.
Proof. intros H w. apply same_files_writes_only, H. Qed.

Lemma write_writes_only p bs : preserves (writes_only p) (write bs).
Proof.
  intros w. unfold write.
  destruct (w_outf w) as [o|] eqn:E; [destruct (wr_closed o)|];
    cbn [snd]; try reflexivity.
  intros H. cbn [set_fs w_outf w_fs]. split; [done|].
  intros q Hq. rewrite lookup_insert_ne; [done|]. rewrite (H o E). congruence.
Qed.

Lemma close_outf_writes_only p : preserves (writes_only p) close_outf.
Proof.
  intros w. unfold close_outf.
  destruct (w_outf w) as [o|] eqn:E; cbn [snd]; try reflexivity.
  intros H. cbn [set_outf w_outf w_fs]. split; [|done].
  intros o' [= <-]. exact (H o E).
Qed.

Lemma open_wb_writes_only p : preserves (writes_only p) (open_wb p).
Proof.
  intros w H. unfold open_wb. cbn [snd set_outf set_fs w_outf w_fs].
  split; [by intros o' [= <-]|]. intros q Hq. by rewrite lookup_insert_ne.
Qed.

Lemma copyfile_writes_only p src dst :
  dst = None \/ dst = Some p -> preserves (writes_only p) (copyfile src dst).
Proof.
  intros Hd w. unfold copyfile. destruct Hd as [-> | ->]; [reflexivity|].
  destruct (w_fs w !! src) as [bs|]; cbn [snd]; try reflexivity.
  intros H. cbn [set_fs w_outf w_fs]. split; [done|].
  intros q Hq. by rewrite lookup_insert_ne.
Qed.

Lemma close_if_open_writes_only p : preserves (writes_only p) close_if_open.
Proof.
  intros w. unfold close_if_open.
  destruct (w_outf w) as [o|] eqn:E; [|reflexivity].
  destruct (wr_closed o); [reflexivity|apply close_outf_writes_only].
Qed.

Lemma preserves_try_finally {A} R `{!Reflexive R, !Transitive R} (m : M A) (f : M unit) :
  preserves R m -> preserves R f -> preserves R (try_finally m f).
Proof.
  intros Hm Hf w. unfold try_finally. specialize (Hm w).
  destruct (m w) as [r w1]. cbn [snd] in Hm. specialize (Hf w1).
  destruct (f w1) as [[[]|e| |] w2]; cbn [snd] in *; by etrans.
Qed.

Section Effects.
Context {D : Documents}.

Lemma write_read_writes_only p n : preserves (writes_only p) (write_read n).
Proof.
  unfold write_read.
  apply preserves_bind; [typeclasses eauto| |intros _].
  { apply preserves_same_files_writes_only. intros w. by destruct (w_outf w). }
  apply preserves_bind; [typeclasses eauto| |intros b].
  - apply preserves_same_files_writes_only, read_same_files.
  - apply write_writes_only.
Qed.

Lemma copy_range_loop_writes_only p f :
  forall n, preserves (writes_only p) (copy_range_loop f n).
Proof.
  induction f as [|f IH]; intros n; cbn [copy_range_loop];
    [apply preserves_out_of_fuel; typeclasses eauto|].
  destruct (n >=? blocksize).
  - apply preserves_bind; [typeclasses eauto|apply write_read_writes_only|].
    intros _. apply IH.
  - destruct (negb (n =? 0)); [apply write_read_writes_only|].
    apply preserves_ret; typeclasses eauto.
Qed.

Lemma copy_range_writes_only p len : preserves (writes_only p) (copy_range len).
Proof.
  destruct len as [n|]; cbn [copy_range];
    [apply copy_range_loop_writes_only|apply preserves_raise; typeclasses eauto].
Qed.

Lemma lookup_write_writes_only p : preserves (writes_only p) lookup_write.
Proof.
  apply preserves_same_files_writes_only. intros w. unfold lookup_write.
  by destruct (w_outf w).
Qed.

Lemma write_chunk_writes_only p tag content :
  preserves (writes_only p) (write_chunk tag content).
Proof.
  unfold write_chunk, write_varlen_int.
  repeat first
    [ apply write_writes_only
    | apply lookup_write_writes_only
    | apply preserves_lift_struct; typeclasses eauto
    | apply preserves_bind; [typeclasses eauto| |intros ?] ].
Qed.

Lemma splice_writes_only p inpath outpath transform in_size loc :
  outpath = None \/ outpath = Some p ->
  preserves (writes_only p) (splice inpath outpath transform in_size loc).
Proof.
  intros Ho. destruct loc as [[[mc mb] ml] mi]. unfold splice.
  apply preserves_bind; [typeclasses eauto| |intros new_content].
  { destruct mc; [apply preserves_lift_doc|apply preserves_raise]; typeclasses eauto. }
  destruct (negb (bool_decide (Some new_content = mc))).
  - apply preserves_bind; [typeclasses eauto|apply copy_range_writes_only|intros _].
    apply preserves_bind;
      [typeclasses eauto|apply preserves_lift_struct; typeclasses eauto|intros idb].
    apply preserves_bind; [typeclasses eauto|apply write_chunk_writes_only|intros _].
    apply preserves_bind; [typeclasses eauto| |intros _].
    { apply preserves_bind; [typeclasses eauto| |intros q].
      - destruct mb, ml; first [apply preserves_ret|apply preserves_raise];
          typeclasses eauto.
      - apply preserves_same_files_writes_only, seek_same_files. }
    apply preserves_bind; [typeclasses eauto| |intros n; apply copy_range_writes_only].
    apply preserves_bind; [typeclasses eauto| |intros m].
    + destruct mb; first [apply preserves_ret|apply preserves_raise]; typeclasses eauto.
    + destruct ml; first [apply preserves_ret|apply preserves_raise]; typeclasses eauto.
  - apply preserves_bind; [typeclasses eauto|apply close_outf_writes_only|intros _].
    by apply copyfile_writes_only.
Qed.

Lemma open_rb_same_output path w :
  w_fs (open_rb path w).2 = w_fs w /\ w_outf (open_rb path w).2 = w_outf w.
Proof. unfold open_rb. by destruct (w_fs w !! path). Qed.

Lemma process_file_body_writes_only p inpath outpath transform overwrite in_size :
  outpath = None \/ outpath = Some p ->
  preserves (writes_only p)
    (process_file_body inpath outpath transform overwrite in_size).
Proof.
  intros Ho. unfold process_file_body.
  apply preserves_bind; [typeclasses eauto| |intros _].
  { intros w H. destruct (open_rb_same_output inpath w) as [E1 E2].
    split; [by rewrite E2|]. intros q _. by rewrite E1. }
  apply preserves_bind; [typeclasses eauto| |intros _].
  { destruct (bool_decide (outpath = Some inpath));
      [apply preserves_raise|apply preserves_ret]; typeclasses eauto. }
  apply preserves_bind; [typeclasses eauto| |intros _].
  { destruct (path_truthy outpath); [|apply preserves_ret; typeclasses eauto].
    destruct Ho as [-> | ->]; [apply preserves_ret; typeclasses eauto|].
    apply preserves_bind; [typeclasses eauto| |intros e].
    - apply preserves_same_files_writes_only. by intros w.
    - destruct (negb overwrite && e);
        [apply preserves_raise; typeclasses eauto|apply open_wb_writes_only]. }
  apply preserves_bind; [typeclasses eauto| |intros loc].
  - apply preserves_same_files_writes_only, get_metadata_content_same_files.
  - by apply splice_writes_only.
Qed.

(** From the point where [outf] is set to [None]. *)
Lemma process_file_writes_only p inpath outpath transform overwrite w :
  outpath = None \/ outpath = Some p ->
  let w' := (process_file inpath outpath transform overwrite w).2 in
  forall q, q <> p -> w_fs w' !! q = w_fs w !! q.
Proof.
  intros Ho w' q Hq. subst w'. unfold process_file.
  unfold bind at 1. unfold emit at 1.
  unfold bind at 1. unfold getsize at 1. cbn [w_fs set_log].
  destruct (w_fs w !! inpath) as [bs|]; [|done].
  unfold bind at 1.
  set (w0 := set_outf None (set_log (w_log w ++ [(INFO, Msg_processing inpath)]) w)).
  assert (writes_only p w0
            (try_finally
               (process_file_body inpath outpath transform overwrite
                  (Z.of_nat (length bs)))
               close_if_open w0).2) as Hw.
  { apply (preserves_try_finally (writes_only p));
      [by apply process_file_body_writes_only|apply close_if_open_writes_only]. }
  destruct Hw as [_ Hw]; [by intros o [=]|].
  by rewrite (Hw q Hq).
Qed.
End Effects.

Lemma longer_path_differs (q : string) : q <> String Ascii.zero q.
Proof. intros E. apply (f_equal String.length) in E. simpl in E. lia. Qed.

Section Outcomes.
Context {D : Documents}.

Lemma process_file_same_path inpath transform overwrite w data :
  w_fs w !! inpath = Some data ->
  process_file inpath (Some inpath) transform overwrite w
  = (Raise AssertionError,
     World (w_fs w) (Reader data 0) None
       (w_log w ++ [(INFO, Msg_processing inpath)]) (w_rng w)).
Proof.
  intros Hin. destruct w as [fs inf outf log rng]. cbn [w_fs w_log w_rng] in *.
  unfold process_file.
  unfold bind at 1. rewrite emit_eq.
  unfold bind at 1. rewrite (getsize_eq _ _ _ _ _ _ _ Hin).
  unfold bind at 1. unfold set_outf. cbn [w_fs w_inf w_outf w_log w_rng].
  unfold try_finally, process_file_body.
  unfold bind at 1. rewrite (open_rb_eq _ _ _ _ _ _ _ Hin).
  unfold bind at 1. rewrite bool_decide_eq_true_2 by done. reflexivity.
Qed.


(** X15.  The output handle does not stay open.  Once the input file
    has been found, whatever happens then, [process_file] ends with
    no output handle or with a closed one. *)
Theorem process_file_closes_output inpath outpath transform overwrite w data :
  w_fs w !! inpath = Some data ->
  forall o, w_outf (process_file inpath outpath transform overwrite w).2 = Some o ->
            wr_closed o = true.
Proof.
  intros Hin o. unfold process_file.
  unfold bind at 1. unfold emit at 1.
  unfold bind at 1. unfold getsize at 1. cbn [w_fs set_log]. rewrite Hin.
  unfold bind at 1. unfold try_finally.
  match goal with
  | |- context [process_file_body ?a ?b ?c ?d ?e ?w0] =>
      destruct (process_file_body a b c d e w0) as [r w1]
  end.
  unfold close_if_open, close_outf.
  destruct (w_outf w1) as [o1|] eqn:E1; [|cbn; congruence].
  destruct (wr_closed o1) eqn:E2; cbn [snd set_outf w_outf]; [congruence|].
  by intros [= <-].
Qed.

(** X16.  An output path that exists is not written to without
    [overwrite]: [process_file] raises [FileExistsError] before it
    opens anything for writing, and no file has changed. *)
Theorem process_file_refuses_existing_output inpath p transform w data old :
  w_fs w !! inpath = Some data -> p <> inpath -> p <> EmptyString ->
  w_fs w !! p = Some old ->
  process_file inpath (Some p) transform false w
  = (Raise FileExistsError,
     World (w_fs w) (Reader data 0) None
       (w_log w ++ [(INFO, Msg_processing inpath)]) (w_rng w)).
Proof.
  intros Hin Hne Hnz Hold. destruct w as [fs inf outf log rng].
  cbn [w_fs w_log w_rng] in *. unfold process_file.
  unfold bind at 1. rewrite emit_eq.
  unfold bind at 1. rewrite (getsize_eq _ _ _ _ _ _ _ Hin).
  unfold bind at 1. unfold set_outf. cbn [w_fs w_inf w_outf w_log w_rng].
  unfold try_finally, process_file_body.
  unfold bind at 1. rewrite (open_rb_eq _ _ _ _ _ _ _ Hin).
  unfold bind at 1. rewrite bool_decide_eq_false_2 by congruence. unfold ret at 1.
  unfold bind at 1. unfold path_truthy. rewrite bool_decide_eq_false_2 by done.
  cbn [negb]. unfold bind at 1. rewrite path_exists_eq, Hold.
  rewrite bool_decide_eq_true_2 by done. reflexivity.
Qed.

Lemma copy_range_no_output len w w' :
  w_outf w = None -> copy_range len w = (Ret tt, w') -> w' = w.
Proof.
  intros Ho. destruct len as [n|]; [|discriminate]. unfold copy_range.
  cbn [copy_range_loop]. unfold write_read.
  destruct (n >=? blocksize).
  - unfold bind. rewrite Ho. discriminate.
  - destruct (negb (n =? 0)).
    + unfold bind. rewrite Ho. discriminate.
    + by intros [= <-].
Qed.

Lemma write_chunk_no_output tag content w :
  w_outf w = None -> (write_chunk tag content w).1 <> Ret tt.
Proof.
  intros Ho. unfold write_chunk, write_varlen_int. unfold bind at 1. unfold bind at 1.
  unfold lookup_write at 1. by rewrite Ho.
Qed.

Lemma splice_no_output inpath outpath transform in_size loc w :
  w_outf w = None -> (splice inpath outpath transform in_size loc w).1 <> Ret tt.
Proof.
  intros Ho H. destruct loc as [[[mc mb] ml] mi]. unfold splice in H.
  apply bind_fst_ret in H as (new_content & w1 & E1 & H).
  assert (w1 = w) as ->.
  { destruct mc as [c|]; [|discriminate E1].
    destruct (transform c); [by injection E1|discriminate E1]. }
  destruct (negb (bool_decide (Some new_content = mc))).
  - apply bind_fst_ret in H as ([] & w2 & E2 & H).
    apply (copy_range_no_output _ _ _ Ho) in E2 as ->.
    apply bind_fst_ret in H as (idb & w3 & E3 & H).
    assert (w3 = w) as ->.
    { destruct (mi ≫= pack_uint 4); [by injection E3|discriminate E3]. }
    apply bind_fst_ret in H as ([] & w4 & E4 & _).
    apply (write_chunk_no_output ChunkTags.STREAM_HEADER_TAG
             (idb ++ encode_utf8 new_content) w Ho). by rewrite E4.
  - apply bind_fst_ret in H as ([] & w2 & E2 & _).
    unfold close_outf in E2. rewrite Ho in E2. discriminate E2.
Qed.

Lemma process_file_no_output_fails inpath outpath transform overwrite w :
  path_truthy outpath = false ->
  (process_file inpath outpath transform overwrite w).1 <> Ret tt.
Proof.
  intros Hp H. unfold process_file in H.
  apply bind_fst_ret in H as ([] & w1 & _ & H).
  apply bind_fst_ret in H as (in_size & w2 & _ & H).
  apply bind_fst_ret in H as ([] & w3 & E3 & H).
  injection E3 as <-.
  apply try_finally_fst_ret in H. unfold process_file_body in H.
  apply bind_fst_ret in H as ([] & w4 & E4 & H).
  assert (w_outf w4 = None) as Ho4.
  { pose proof (open_rb_same_output inpath (set_outf None w2)) as [_ Ho].
    by rewrite E4 in Ho. }
  apply bind_fst_ret in H as ([] & w5 & E5 & H).
  assert (w5 = w4) as ->.
  { destruct (bool_decide (outpath = Some inpath)); [discriminate E5|].
    by injection E5. }
  rewrite Hp in H.
  apply bind_fst_ret in H as ([] & w6 & [= <-] & H).
  apply bind_fst_ret in H as (loc & w7 & E7 & H).
  pose proof (preserves_run _ _ _ _ _ (get_metadata_content_same_files inpath) E7)
    as (_ & Ho7 & _).
  apply (splice_no_output inpath outpath transform in_size loc w7); [congruence|done].
Qed.

End Outcomes.

Section Tagging.
Context {D : Documents}.

(** What [process_file] writes when the content has changed: the
    bytes before the span, the new chunk, the bytes after the span. *)
Lemma process_file_splices inpath p transform overwrite w data c b l i w1
    new idb lenb :
  w_fs w !! inpath = Some data -> p <> inpath -> p <> EmptyString ->
  overwrite = true \/ w_fs w !! p = None ->
  get_metadata_content inpath (opened_world inpath p data w)
  = (Ret (Some c, Some b, Some l, Some i), w1) ->
  transform c = Some new -> new <> c ->
  pack_uint 4 i = Some idb ->
  varlen_bytes (Z.of_nat (length (idb ++ encode_utf8 new)) + 2) = Some lenb ->
  exists w',
    process_file inpath (Some p) transform overwrite w = (Ret tt, w')
    /\ w_fs w' = <[p := take (Z.to_nat b) data
                        ++ (lenb ++ [x02; x00] ++ idb ++ encode_utf8 new)
                        ++ drop (Z.to_nat (b + l)) data]> (w_fs w).
Proof.
  intros Hin Hne Hnz Hok Hloc Ht Hnew Hid Hlen.
  pose proof (get_metadata_content_span _ _ _ _ _ _ _ Hloc) as (Hb & Hl & Hbl).
  unfold opened_world in Hbl. cbn [w_inf r_data] in Hbl.
  rewrite (process_file_opened inpath p transform overwrite w data) by done.
  unfold try_finally. unfold bind at 1. rewrite Hloc.
  rewrite (get_metadata_content_opened _ _ _ _ _ _ Hloc).
  unfold splice. unfold bind at 1. rewrite Ht. unfold lift_doc, ret at 1.
  rewrite bool_decide_eq_false_2 by congruence. cbn [negb].
  unfold bind at 1. unfold copy_range at 1.
  rewrite (copy_range_loop_short _ b _ _ _ _ _ _ []);
    [|lia|lia|apply lookup_insert_eq].
  rewrite insert_insert_eq, drop_0, app_nil_l.
  unfold bind at 1. cbn [mbind option_bind]. rewrite Hid.
  unfold lift_struct at 1, ret at 1.
  unfold bind at 1.
  rewrite (write_chunk_open _ _ _ _ _ (take (Z.to_nat b) data) _ _ lenb Hlen)
    by apply lookup_insert_eq.
  change (pack_uint 2 ChunkTags.STREAM_HEADER_TAG) with (Some [x02; x00]).
  cbv iota. rewrite insert_insert_eq.
  unfold bind at 1. unfold bind at 1. unfold add_opt, ret at 1.
  rewrite seek_nonneg by lia.
  unfold bind at 1. unfold bind at 1. unfold sub_opt, ret at 1. unfold ret at 1.
  unfold copy_range.
  rewrite (copy_range_loop_short _ (Z.of_nat (length data) - b - l) _ _ _ _ _ _
             (take (Z.to_nat b) data ++ lenb ++ [x02; x00] ++ idb ++ encode_utf8 new));
    [|lia|lia|apply lookup_insert_eq].
  rewrite insert_insert_eq.
  unfold close_if_open, close_outf. cbn [w_outf wr_closed wr_path].
  eexists. split; [reflexivity|]. unfold set_outf. cbn [w_fs].
  rewrite (take_ge (drop (Z.to_nat (b + l)) data)) by (rewrite length_drop; lia).
  by rewrite <- !app_assoc.
Qed.

(** Where the opened world has the input file. *)
Lemma opened_world_input inpath p data w :
  w_fs w !! inpath = Some data -> p <> inpath ->
  opened_world inpath p data w
  = World (<[p := []]> (w_fs w)) (Reader data 0) (Some (Writer p false))
      (w_log w ++ [(INFO, Msg_processing inpath)]) (w_rng w)
  /\ (<[p := []]> (w_fs w)) !! inpath = Some data.
Proof. intros Hin Hne. split; [reflexivity|]. by rewrite lookup_insert_ne. Qed.

Lemma stream_id_of_range c : 0 <= stream_id_of c < 2 ^ 32.
Proof.
  unfold stream_id_of. pose proof (le_to_Z_range (take 4 (c_content c))) as H.
  assert (2 ^ (8 * Z.of_nat (length (take 4 (c_content c)))) <= 2 ^ 32).
  { apply Z.pow_le_mono_r; [lia|]. rewrite length_take. lia. }
  lia.
Qed.

(** The chunk that [process_file] writes for the stream [i] and the
    document [new], [lenb] being its length field. *)
Lemma new_chunk_is_metadata lenb i new :
  0 <= i < 2 ^ 32 ->
  varlen_bytes (Z.of_nat (length (Z_to_le 4 i ++ encode_utf8 new)) + 2) = Some lenb ->
  decode_utf8 (encode_utf8 new) = new -> matches_metadata new = Some true ->
  let c := Chunk lenb ChunkTags.STREAM_HEADER_TAG (Z_to_le 4 i ++ encode_utf8 new) in
  header_region_chunk c /\ is_metadata_chunk c
  /\ document_of c = new /\ stream_id_of c = i
  /\ chunk_bytes c = lenb ++ [x02; x00] ++ Z_to_le 4 i ++ encode_utf8 new.
Proof.
  intros Hi Hlen Hdec Hm c.
  assert (document_of c = new) as Hdoc.
  { unfold document_of, c. cbn [c_content].
    rewrite drop_app_length' by (by rewrite length_Z_to_le). done. }
  assert (is_metadata_chunk c) as Hmeta by (split; [done|by rewrite Hdoc]).
  split; [|split; [done|split; [done|split; [|done]]]].
  - split; [split; [by apply varlen_bytes_frame|done]|].
    split; [done|]. split; [done|]. intros _. split.
    + unfold c. cbn [c_content]. rewrite length_app, length_Z_to_le. lia.
    + rewrite Hdoc, Hm. by eexists.
  - unfold stream_id_of, c. cbn [c_content].
    rewrite take_app_length' by (by rewrite length_Z_to_le).
    by apply le_to_Z_to_le.
Qed.

Lemma frames_replace pre c post tail :
  magic ++ frames (pre ++ c :: post) ++ tail
  = (magic ++ frames pre) ++ chunk_bytes c ++ frames post ++ tail.
Proof. by rewrite frames_app, frames_cons, <- !app_assoc. Qed.

Lemma length_magic_frames pre :
  Z.to_nat (4 + Z.of_nat (length (frames pre))) = length (magic ++ frames pre).
Proof. rewrite length_app. cbn [length magic]. lia. Qed.

(** X17.  Tagging a file and reading it again.  For a well-formed
    file whose first metadata header is [c1], and a transform that
    turns its document into another metadata document [new] that
    survives encoding and decoding, [process_file] writes the same
    sequence of chunks with [c1] replaced by a well-framed chunk for
    the same stream that carries [new]; and the locator, run on that
    output, returns [new], the same offset and the same stream id,
    with the length of the new chunk. *)
Theorem tagged_file_reads_back inpath p transform overwrite w pre c1 post tail new :
  let cs := pre ++ c1 :: post in
  let data := magic ++ frames cs ++ tail in
  Forall header_region_chunk cs ->
  Forall (fun c => ~ is_metadata_chunk c) pre ->
  is_metadata_chunk c1 ->
  data_boundary tail ->
  w_fs w !! inpath = Some data -> p <> inpath -> p <> EmptyString ->
  overwrite = true \/ w_fs w !! p = None ->
  transform (document_of c1) = Some new -> new <> document_of c1 ->
  decode_utf8 (encode_utf8 new) = new -> matches_metadata new = Some true ->
  Z.of_nat (length (encode_utf8 new)) + 6 < 2 ^ 32 ->
  exists w' lenb,
    let c1' := Chunk lenb ChunkTags.STREAM_HEADER_TAG
                 (Z_to_le 4 (stream_id_of c1) ++ encode_utf8 new) in
    let out := magic ++ frames (pre ++ c1' :: post) ++ tail in
    process_file inpath (Some p) transform overwrite w = (Ret tt, w')
    /\ w_fs w' = <[p := out]> (w_fs w)
    /\ well_framed c1'
    /\ forall fs' filepath outf' log' rng' pos0,
         fs' !! filepath = Some out ->
         exists log'',
           get_metadata_content filepath (World fs' (Reader out pos0) outf' log' rng')
           = (Ret (Some new,
                   Some (4 + Z.of_nat (length (frames pre))),
                   Some (Z.of_nat (length (chunk_bytes c1'))),
                   Some (stream_id_of c1)),
              World fs' (Reader out pos0) outf' log'' rng').
Proof.
  intros cs data Hcs Hpre Hc1 Htail Hin Hne Hnz Hok Ht Hnew Hdec Hm Hsz.
  destruct (opened_world_input inpath p data w Hin Hne) as [Hw Hin'].
  (* the locator on the input *)
  destruct (traverse_chunks_first_metadata (<[p := []]> (w_fs w))
              (Some (Writer p false)) (w_log w ++ [(INFO, Msg_processing inpath)])
              (w_rng w) pre c1 post tail Hcs Hpre Hc1 Htail)
    as (st & pos' & log1 & Htr & S1 & S2 & S3 & S4 & _).
  fold cs data in Htr.
  pose proof (get_metadata_content_traversed _ _ _ _ _ 0%nat _ _ _ _ _ Hin' eq_refl Htr)
    as Hloc.
  rewrite <- Hw, S1, S2, S3, S4 in Hloc.
  (* the new chunk *)
  pose proof (stream_id_of_range c1) as Hi.
  destruct (varlen_bytes
              (Z.of_nat (length (Z_to_le 4 (stream_id_of c1) ++ encode_utf8 new)) + 2))
    as [lenb|] eqn:Hlen.
  2:{ apply varlen_bytes_none_iff in Hlen.
      rewrite length_app, length_Z_to_le in Hlen. lia. }
  destruct (new_chunk_is_metadata lenb (stream_id_of c1) new Hi Hlen Hdec Hm)
    as (Hr' & Hm' & Hdoc' & Hid' & Hbytes').
  destruct (process_file_splices inpath p transform overwrite w data _ _ _ _ _
              new (Z_to_le 4 (stream_id_of c1)) lenb Hin Hne Hnz Hok Hloc Ht Hnew)
    as (w' & Hrun & Hfs); [by apply pack_uint_in_range|done|].
  exists w', lenb. cbv zeta.
  split; [exact Hrun|]. split; [|split; [apply Hr'|]].
  - rewrite Hfs. f_equal. unfold data, cs.
    rewrite !frames_replace, Hbytes'.
    rewrite length_magic_frames, take_app_length.
    replace (Z.to_nat (4 + Z.of_nat (length (frames pre))
                       + Z.of_nat (length (chunk_bytes c1))))
      with (length (magic ++ frames pre) + length (chunk_bytes c1))%nat
      by (rewrite <- length_magic_frames; lia).
    rewrite <- drop_drop, drop_app_length, drop_app_length.
    by rewrite <- !app_assoc.
  - intros fs' filepath outf' log' rng' pos0 Hout.
    assert (Forall header_region_chunk
              (pre ++ Chunk lenb ChunkTags.STREAM_HEADER_TAG
                        (Z_to_le 4 (stream_id_of c1) ++ encode_utf8 new) :: post))
      as Hcs'.
    { unfold cs in Hcs. apply Forall_app in Hcs as [Hp Hq].
      apply Forall_cons in Hq as [_ Hq].
      apply Forall_app. split; [done|]. by apply Forall_cons. }
    destruct (traverse_chunks_first_metadata fs' outf' log' rng' pre _ post tail
                Hcs' Hpre Hm' Htail)
      as (st' & pos'' & log2 & Htr' & T1 & T2 & T3 & T4 & _).
    eexists.
    rewrite (get_metadata_content_traversed _ _ _ _ _ _ _ _ _ _ _ Hout eq_refl Htr').
    rewrite T1, T2, T3, T4, Hdoc', Hid'. reflexivity.
Qed.

(** X18.  Tagging a file that has no metadata stream.  For a
    well-formed file without a metadata header whose data begin after
    the first stream header [h], [process_file] writes the input with
    one chunk inserted just before [h] and nothing removed: a
    well-framed stream header that carries the transformed default
    document under the fresh stream id.  The locator, run on that
    output, returns this document, the offset and the length of the
    inserted chunk, and that id. *)
Theorem missing_metadata_chunk_is_inserted
    inpath p transform overwrite w pre h post lb L tagb rest k rng' new :
  let cs := pre ++ h :: post in
  let tail := lb ++ tagb ++ rest in
  let data := magic ++ frames cs ++ tail in
  Forall header_region_chunk cs ->
  Forall (fun c => ~ is_metadata_chunk c) cs ->
  Forall (fun c => c_tag c <> ChunkTags.STREAM_HEADER_TAG) pre ->
  c_tag h = ChunkTags.STREAM_HEADER_TAG ->
  varlen_frame lb L -> length tagb = 2%nat ->
  le_to_Z tagb = ChunkTags.SAMPLES_TAG \/ le_to_Z tagb = ChunkTags.STREAM_FOOTER_TAG ->
  draw_fresh (w_rng w) (header_ids cs) = Some (k, rng') -> 10000 <= k <= 99999 ->
  w_fs w !! inpath = Some data -> p <> inpath -> p <> EmptyString ->
  overwrite = true \/ w_fs w !! p = None ->
  transform metadata_default = Some new -> new <> metadata_default ->
  decode_utf8 (encode_utf8 new) = new -> matches_metadata new = Some true ->
  Z.of_nat (length (encode_utf8 new)) + 6 < 2 ^ 32 ->
  exists w' lenb,
    let c := Chunk lenb ChunkTags.STREAM_HEADER_TAG (Z_to_le 4 k ++ encode_utf8 new) in
    let out := magic ++ frames (pre ++ c :: h :: post) ++ tail in
    process_file inpath (Some p) transform overwrite w = (Ret tt, w')
    /\ w_fs w' = <[p := out]> (w_fs w)
    /\ well_framed c
    /\ forall fs' filepath outf' log' rng0 pos0,
         fs' !! filepath = Some out ->
         exists log'',
           get_metadata_content filepath (World fs' (Reader out pos0) outf' log' rng0)
           = (Ret (Some new,
                   Some (4 + Z.of_nat (length (frames pre))),
                   Some (Z.of_nat (length (chunk_bytes c))),
                   Some k),
              World fs' (Reader out pos0) outf' log'' rng0).
Proof.
  intros cs tail data Hcs Hn Hpre Hh HF Htb Htag Hk Hkr Hin Hne Hnz Hok Ht Hnew
    Hdec Hm Hsz.
  destruct (opened_world_input inpath p data w Hin Hne) as [Hw Hin'].
  destruct (get_metadata_content_synthesized (<[p := []]> (w_fs w)) inpath
              (Some (Writer p false)) (w_log w ++ [(INFO, Msg_processing inpath)])
              (w_rng w) 0%nat pre h post lb L tagb rest k rng'
              Hcs Hn Hpre Hh HF Htb Htag Hk Hin') as [log1 Hloc].
  fold cs tail data in Hloc. rewrite <- Hw in Hloc.
  assert (0 <= k < 2 ^ 32) as Hi by lia.
  destruct (varlen_bytes (Z.of_nat (length (Z_to_le 4 k ++ encode_utf8 new)) + 2))
    as [lenb|] eqn:Hlen.
  2:{ apply varlen_bytes_none_iff in Hlen.
      rewrite length_app, length_Z_to_le in Hlen. lia. }
  destruct (new_chunk_is_metadata lenb k new Hi Hlen Hdec Hm)
    as (Hr' & Hm' & Hdoc' & Hid' & Hbytes').
  destruct (process_file_splices inpath p transform overwrite w data _ _ _ _ _
              new (Z_to_le 4 k) lenb Hin Hne Hnz Hok Hloc Ht Hnew)
    as (w' & Hrun & Hfs); [by apply pack_uint_in_range|done|].
  exists w', lenb. cbv zeta.
  split; [exact Hrun|]. split; [|split; [apply Hr'|]].
  - rewrite Hfs. f_equal. unfold data.
    rewrite (frames_replace pre _ (h :: post)), Hbytes'.
    rewrite Z.add_0_r, length_magic_frames.
    replace (magic ++ frames cs ++ tail)
      with ((magic ++ frames pre) ++ frames (h :: post) ++ tail)
      by (unfold cs; by rewrite frames_app, <- !app_assoc).
    rewrite take_app_length, drop_app_length.
    by rewrite <- !app_assoc.
  - intros fs' filepath outf' log' rng0 pos0 Hout.
    assert (Forall header_region_chunk
              (pre ++ Chunk lenb ChunkTags.STREAM_HEADER_TAG
                        (Z_to_le 4 k ++ encode_utf8 new) :: h :: post))
      as Hcs'.
    { unfold cs in Hcs. apply Forall_app in Hcs as [Hp Hq].
      apply Forall_app. split; [done|]. by apply Forall_cons. }
    assert (Forall (fun c => ~ is_metadata_chunk c) pre) as Hnpre.
    { unfold cs in Hn. by apply Forall_app in Hn as [? _]. }
    assert (data_boundary tail) as Hbound.
    { right. by exists lb, L, tagb, rest. }
    destruct (traverse_chunks_first_metadata fs' outf' log' rng0 pre _ (h :: post)
                tail Hcs' Hnpre Hm' Hbound)
      as (st' & pos'' & log2 & Htr' & T1 & T2 & T3 & T4 & _).
    eexists.
    rewrite (get_metadata_content_traversed _ _ _ _ _ _ _ _ _ _ _ Hout eq_refl Htr').
    rewrite T1, T2, T3, T4, Hdoc', Hid'. reflexivity.
Qed.

(** X19.  A file that ends with its header region and has no
    metadata header cannot be tagged.  The default document is
    synthesized only at the first [Samples] or [StreamFooter] chunk;
    without one the locator returns four [None], and [process_file]
    raises [TypeError] when it hands the content to the transform.
    The output file has been created and stays empty. *)
Theorem file_without_data_cannot_be_tagged inpath p transform overwrite w cs :
  let data := magic ++ frames cs in
  Forall header_region_chunk cs ->
  Forall (fun c => ~ is_metadata_chunk c) cs ->
  w_fs w !! inpath = Some data -> p <> inpath -> p <> EmptyString ->
  overwrite = true \/ w_fs w !! p = None ->
  (exists w1,
     get_metadata_content inpath (opened_world inpath p data w)
     = (Ret (None, None, None, None), w1))
  /\ exists w',
       process_file inpath (Some p) transform overwrite w = (Raise TypeError, w')
       /\ w_fs w' = <[p := []]> (w_fs w).
Proof.
  intros data Hcs Hn Hin Hne Hnz Hok.
  destruct (opened_world_input inpath p data w Hin Hne) as [Hw Hin'].
  destruct (locator_headers_only (<[p := []]> (w_fs w)) inpath
              (Some (Writer p false)) (w_log w ++ [(INFO, Msg_processing inpath)])
              (w_rng w) 0%nat cs Hcs Hn Hin') as [log1 Hloc].
  fold data in Hloc. rewrite <- Hw in Hloc.
  split; [by eexists|].
  rewrite (process_file_opened inpath p transform overwrite w data) by done.
  unfold try_finally. unfold bind at 1. rewrite Hloc.
  unfold splice. unfold bind at 1. unfold raise at 1.
  unfold close_if_open, close_outf. cbn [w_outf wr_closed wr_path].
  eexists. split; [reflexivity|]. reflexivity.
Qed.
End Tagging.

(** *** Runs on the sample files *)

Lemma process_file_closes_output_witness :
  exists o,
    w_outf (@process_file sample_documents "in.xdf" (Some "out.xdf"%string)
              sample_transform false
              (start_world "in.xdf" two_metadata_file [])).2 = Some o
    /\ wr_closed o = true.
Proof.
  eexists. split; [vm_compute; reflexivity|].
  apply (@process_file_closes_output sample_documents "in.xdf" (Some "out.xdf"%string)
           sample_transform false
           (start_world "in.xdf" two_metadata_file []) two_metadata_file);
    [apply lookup_singleton_eq|vm_compute; reflexivity].
Defined.

Lemma process_file_refuses_existing_output_witness :
  let fs : gmap string (list byte) :=
    <["out.xdf"%string := magic]> {[ "in.xdf"%string := two_metadata_file ]} in
  @process_file sample_documents "in.xdf" (Some "out.xdf"%string)
    sample_transform false
    (World fs (Reader [] 0) None [] [])
  = (Raise FileExistsError,
     World fs (Reader two_metadata_file 0) None
       ([] ++ [(INFO, Msg_processing "in.xdf")]) []).
Proof.
  intros fs.
  apply (@process_file_refuses_existing_output sample_documents "in.xdf" "out.xdf"
           sample_transform
           (World fs (Reader [] 0) None [] []) two_metadata_file magic).
  - unfold fs. cbn [w_fs]. rewrite lookup_insert_ne by done. apply lookup_singleton_eq.
  - done.
  - done.
  - apply lookup_insert_eq.
Defined.

Lemma tagged_file_reads_back_witness :
  let pre := [file_header; sample_header x07 eeg_doc] in
  let c1 := sample_header x08 metadata_doc in
  let post := [Chunk [x01; x12] 5 signature] in
  let data := magic ++ frames (pre ++ c1 :: post) ++ samples_chunk in
  let new := list_byte_of_string edited_doc in
  let w := start_world "in.xdf" data [] in
  exists w' lenb,
    let c1' := Chunk lenb ChunkTags.STREAM_HEADER_TAG
                 (Z_to_le 4 (stream_id_of c1) ++ new) in
    let out := magic ++ frames (pre ++ c1' :: post) ++ samples_chunk in
    @process_file sample_documents "in.xdf" (Some "out.xdf"%string) sample_transform
      false w = (Ret tt, w')
    /\ w_fs w' = <["out.xdf"%string := out]> (w_fs w)
    /\ well_framed c1'
    /\ forall fs' filepath outf' log' rng' pos0,
         fs' !! filepath = Some out ->
         exists log'',
           @get_metadata_content sample_documents filepath
             (World fs' (Reader out pos0) outf' log' rng')
           = (Ret (Some new,
                   Some (4 + Z.of_nat (length (frames pre))),
                   Some (Z.of_nat (length (chunk_bytes c1'))),
                   Some (stream_id_of c1)),
              World fs' (Reader out pos0) outf' log'' rng').
Proof.
  intros pre c1 post data new w.
  apply (@tagged_file_reads_back sample_documents "in.xdf" "out.xdf" sample_transform
           false w pre c1 post samples_chunk new).
  - sample_region.
  - sample_plain.
  - split; [reflexivity|vm_compute; reflexivity].
  - right. exists [x01; x08], 8, [x03; x00], [x07; x00; x00; x00; x01; x00].
    split; [reflexivity|]. split; [exact (varlen_frame_1 x08)|].
    split; [reflexivity|]. by left.
  - apply lookup_singleton_eq.
  - done.
  - done.
  - right. by apply lookup_singleton_ne.
  - reflexivity.
  - by vm_compute.
  - reflexivity.
  - vm_compute. reflexivity.
  - vm_compute. reflexivity.
Defined.

Lemma missing_metadata_chunk_is_inserted_witness :
  let pre := [file_header] in
  let h := sample_header x07 eeg_doc in
  let tail := [x01; x08] ++ [x03; x00] ++ [x07; x00; x00; x00; x01; x00] in
  let data := magic ++ frames (pre ++ h :: []) ++ tail in
  let new := list_byte_of_string edited_doc in
  let w := start_world "in.xdf" data [7; 12345] in
  exists w' lenb,
    let c := Chunk lenb ChunkTags.STREAM_HEADER_TAG (Z_to_le 4 12345 ++ new) in
    let out := magic ++ frames (pre ++ c :: h :: []) ++ tail in
    @process_file sample_documents "in.xdf" (Some "out.xdf"%string) sample_transform
      false w = (Ret tt, w')
    /\ w_fs w' = <["out.xdf"%string := out]> (w_fs w)
    /\ well_framed c
    /\ forall fs' filepath outf' log' rng0 pos0,
         fs' !! filepath = Some out ->
         exists log'',
           @get_metadata_content sample_documents filepath
             (World fs' (Reader out pos0) outf' log' rng0)
           = (Ret (Some new,
                   Some (4 + Z.of_nat (length (frames pre))),
                   Some (Z.of_nat (length (chunk_bytes c))),
                   Some 12345),
              World fs' (Reader out pos0) outf' log'' rng0).
Proof.
  intros pre h tail data new w.
  apply (@missing_metadata_chunk_is_inserted sample_documents "in.xdf" "out.xdf"
           sample_transform false w pre h []
           [x01; x08] 8 [x03; x00] [x07; x00; x00; x00; x01; x00] 12345 [] new).
  - sample_region.
  - sample_plain.
  - repeat constructor. intros [=].
  - reflexivity.
  - exact (varlen_frame_1 x08).
  - reflexivity.
  - by left.
  - vm_compute. reflexivity.
  - lia.
  - apply lookup_singleton_eq.
  - done.
  - done.
  - right. by apply lookup_singleton_ne.
  - reflexivity.
  - by vm_compute.
  - reflexivity.
  - vm_compute. reflexivity.
  - vm_compute. reflexivity.
Defined.

Lemma file_without_data_cannot_be_tagged_witness :
  let cs := [file_header; sample_header x07 eeg_doc] in
  let data := magic ++ frames cs in
  let w := start_world "in.xdf" data [] in
  (exists w1,
     @get_metadata_content sample_documents "in.xdf"
       (opened_world "in.xdf" "out.xdf" data w)
     = (Ret (None, None, None, None), w1))
  /\ exists w',
       @process_file sample_documents "in.xdf" (Some "out.xdf"%string)
         sample_transform false w
       = (Raise TypeError, w')
       /\ w_fs w' = <["out.xdf"%string := []]> (w_fs w).
Proof.
  intros cs data w.
  apply (@file_without_data_cannot_be_tagged sample_documents "in.xdf" "out.xdf"
           sample_transform false w cs).
  - sample_region.
  - sample_plain.
  - apply lookup_singleton_eq.
  - done.
  - done.
  - right. by apply lookup_singleton_ne.
Defined.

(** ** Output paths and the run over the files *)

Lemma append_nil_l (s : string) : EmptyString +:+ s = s.
Proof. reflexivity. Qed.

Lemma append_cons c (a b : string) : String c a +:+ b = String c (a +:+ b).
Proof. reflexivity. Qed.

Lemma append_nil_r (s : string) : s +:+ EmptyString = s.
Proof. induction s as [|c s IH]; [done|]. by rewrite append_cons, IH. Qed.

Lemma append_assoc (a b c : string) : (a +:+ b) +:+ c = a +:+ (b +:+ c).
Proof. induction a as [|x a IH]; [done|]. by rewrite !append_cons, IH. Qed.

Lemma length_append (a b : string) :
  String.length (a +:+ b) = (String.length a + String.length b)%nat.
Proof.
  induction a as [|x a IH]; [done|]. rewrite append_cons. cbn [String.length].
  by rewrite IH.
Qed.

Lemma prefix_cons c1 s1 c2 s2 :
  String.prefix (String c1 s1) (String c2 s2)
  = if Ascii.ascii_dec c1 c2 then String.prefix s1 s2 else false.
Proof. reflexivity. Qed.

Lemma prefix_inv (old s : string) :
  String.prefix old s = true -> exists y, s = old +:+ y.
Proof.
  revert s. induction old as [|c old IH]; intros s H; [by exists s|].
  destruct s as [|c' s]; [discriminate H|]. rewrite prefix_cons in H.
  destruct (Ascii.ascii_dec c c') as [->|]; [|discriminate H].
  destruct (IH s H) as [y ->]. by exists y.
Qed.

Lemma prefix_append (old y : string) : String.prefix old (old +:+ y) = true.
Proof.
  induction old as [|c old IH]; [by destruct y|].
  rewrite append_cons, prefix_cons. by destruct (Ascii.ascii_dec c c).
Qed.

(** Without an occurrence of [old] nothing is replaced. *)
Lemma replace_from_absent (old new s : string) :
  (forall x y, s <> x +:+ old +:+ y) -> replace_from 0 old new s = s.
Proof.
  induction s as [|c s IH]; intros H; [done|]. cbn [replace_from].
  destruct (String.prefix old (String c s)) eqn:E.
  - apply prefix_inv in E as [y E]. exfalso. apply (H EmptyString y).
    by rewrite append_nil_l.
  - rewrite IH; [done|]. intros x y ->. apply (H (String c x) y).
    by rewrite append_cons.
Qed.

Lemma str_endswith_append (x t : string) : str_endswith (x +:+ t) t = true.
Proof.
  unfold str_endswith. rewrite length_append.
  apply andb_true_intro. split; [apply Nat.leb_le; lia|].
  replace (String.length x + String.length t - String.length t)%nat
    with (String.length x) by lia.
  apply String.eqb_eq.
  induction x as [|c x IH].
  - rewrite append_nil_l. cbn [String.length].
    induction t as [|c t IHt]; [done|]. cbn [String.length substring]. by rewrite IHt.
  - rewrite append_cons. cbn [String.length substring]. exact IH.
Qed.

Lemma substring_suffix (n m : nat) (s : string) :
  (n + m = String.length s)%nat -> exists x, s = x +:+ substring n m s.
Proof.
  revert s. induction n as [|n IH]; intros s H.
  - exists EmptyString. rewrite append_nil_l. cbn [Nat.add] in H. subst m.
    induction s as [|c s IHs]; [done|]. cbn [String.length substring]. by rewrite <- IHs.
  - destruct s as [|c s]; [discriminate H|]. cbn [String.length] in H.
    destruct (IH s ltac:(lia)) as [x Hx]. exists (String c x).
    cbn [substring]. by rewrite append_cons, <- Hx.
Qed.

Lemma str_endswith_inv (s t : string) :
  str_endswith s t = true -> exists x, s = x +:+ t.
Proof.
  unfold str_endswith. intros H. apply andb_prop in H as [Hl He].
  apply Nat.leb_le in Hl. apply String.eqb_eq in He.
  destruct (substring_suffix (String.length s - String.length t) (String.length t) s
              ltac:(lia)) as [x Hx].
  exists x. by rewrite He in Hx.
Qed.

Lemma str_contains_occurrence (old x y : string) :
  str_contains old (x +:+ old +:+ y) = true.
Proof.
  induction x as [|c x IH].
  - rewrite append_nil_l. destruct (old +:+ y) eqn:E; cbn [str_contains];
      rewrite <- E, prefix_append; done.
  - rewrite append_cons. cbn [str_contains]. rewrite IH. apply orb_true_r.
Qed.

Lemma str_contains_false (old s : string) :
  str_contains old s = false -> forall x y, s <> x +:+ old +:+ y.
Proof. intros H x y ->. by rewrite str_contains_occurrence in H. Qed.

(** The extension at the end of a name in which it does not occur. *)
Lemma replace_xdf_stem (new stem : string) :
  (forall x y, stem <> x +:+ ".xdf" +:+ y) ->
  replace_from 0 ".xdf" new (stem +:+ ".xdf") = stem +:+ new.
Proof.
  induction stem as [|c stem IH]; intros H.
  - rewrite !append_nil_l. simpl. apply append_nil_r.
  - rewrite !append_cons. cbn [replace_from].
    destruct (String.prefix ".xdf" (String c (stem +:+ ".xdf"))) eqn:E.
    + exfalso. apply prefix_inv in E as [y E]. rewrite append_cons in E.
      injection E as -> E.
      destruct stem as [|c1 [|c2 [|c3 s]]];
        rewrite ?append_cons, ?append_nil_l in E; try discriminate E.
      injection E as -> -> -> _. by apply (H EmptyString s).
    + rewrite IH; [done|]. intros x y ->. apply (H (String c x) y).
      by rewrite append_cons.
Qed.

Lemma gen_outpath_suffixed inpath suffix w :
  suffix <> EmptyString ->
  gen_outpath inpath suffix false w
  = (Ret (str_replace ".xdf" (suffix +:+ ".xdf") inpath, false), w).
Proof.
  intros H. unfold gen_outpath, str_truthy.
  destruct (String.eqb_spec suffix EmptyString); [done|]. reflexivity.
Qed.

Lemma gen_outpath_temp inpath suffix inplace w k rest :
  inplace = true \/ suffix = EmptyString -> w_rng w = k :: rest ->
  gen_outpath inpath suffix inplace w
  = (Ret (inpath +:+ "." +:+ format_int k +:+ ".tmp", true), set_rng rest w).
Proof.
  intros H Hr. unfold gen_outpath.
  assert (inplace || negb (str_truthy suffix) = true) as ->.
  { destruct H as [-> | ->]; [done|]. by destruct inplace. }
  unfold bind, randint. by rewrite Hr.
Qed.

Lemma str_truthy_true (s : string) : s <> EmptyString -> str_truthy s = true.
Proof. intros H. unfold str_truthy. by destruct (String.eqb_spec s EmptyString). Qed.

Lemma temp_path_differs (inpath t : string) : inpath +:+ "." +:+ t <> inpath.
Proof.
  intros E. apply (f_equal String.length) in E.
  rewrite length_append in E. simpl in E. lia.
Qed.

Lemma temp_path_truthy (inpath t : string) :
  path_truthy (Some (inpath +:+ "." +:+ t)) = true.
Proof.
  unfold path_truthy. rewrite bool_decide_eq_false_2; [done|].
  intros E. apply (f_equal String.length) in E.
  rewrite length_append in E. simpl in E. lia.
Qed.

Section Runs.
Context {D : Documents}.
Variable pmc :
  text -> option (list string) -> option (list string) -> option (list string) ->
  option text.

(** X20.  A name without '.xdf' gets no output name of its own.
    When something is set or cleared, not in place and with a suffix,
    the output path is the input path with every '.xdf' replaced:
    for a path in which '.xdf' does not occur, an upper-case
    extension for one, it is the input path itself, the file is not
    taken for an earlier output, and [process_file] fails its
    assertion; no file has changed. *)
Theorem path_without_xdf_fails_assertion a inpath w data :
  is_modifying a = true -> a_inplace a = false -> a_suffix a <> EmptyString ->
  str_contains ".xdf" inpath = false ->
  w_fs w !! inpath = Some data ->
  gen_outpath inpath (a_suffix a) (a_inplace a) w = (Ret (inpath, false), w)
  /\ process_path pmc a inpath w
     = (Raise AssertionError,
        World (w_fs w) (Reader data 0) None
          (w_log w ++ [(INFO, Msg_processing inpath)]) (w_rng w)).
Proof.
  intros Hm Hi Hs Hc Hin. pose proof (str_contains_false _ _ Hc) as Hno.
  assert (gen_outpath inpath (a_suffix a) (a_inplace a) w = (Ret (inpath, false), w))
    as Hgen.
  { rewrite Hi, gen_outpath_suffixed by done. unfold str_replace.
    by rewrite replace_from_absent. }
  split; [exact Hgen|]. unfold process_path.
  assert (str_endswith inpath (a_suffix a +:+ ".xdf") = false) as ->.
  { destruct (str_endswith inpath (a_suffix a +:+ ".xdf")) eqn:E; [|done].
    apply str_endswith_inv in E as [x E]. exfalso.
    apply (Hno (x +:+ a_suffix a) EmptyString).
    by rewrite append_nil_r, append_assoc. }
  rewrite andb_false_r, Hm. unfold bind at 1. unfold bind at 1.
  rewrite Hgen. unfold ret at 1. cbn [fst snd].
  unfold bind at 1. by rewrite (process_file_same_path _ _ _ _ data Hin).
Qed.

(** X21.  The output of one run is skipped by the next.  For a name
    that ends with '.xdf' and has no other '.xdf' in it, the output
    path puts the suffix before the extension; and a path of that form
    is passed over by the loop, unless suffixed files are asked for:
    nothing is read and nothing changes. *)
Theorem output_of_a_run_is_skipped a stem w :
  a_inplace a = false -> a_suffix a <> EmptyString -> a_process_suffixed a = false ->
  str_contains ".xdf" stem = false ->
  let out := stem +:+ a_suffix a +:+ ".xdf" in
  gen_outpath (stem +:+ ".xdf") (a_suffix a) (a_inplace a) w = (Ret (out, false), w)
  /\ process_path pmc a out w = (Ret tt, w).
Proof.
  intros Hi Hs Hp Hc out. pose proof (str_contains_false _ _ Hc) as Hno. split.
  - rewrite Hi, gen_outpath_suffixed by done. unfold str_replace.
    by rewrite replace_xdf_stem.
  - unfold process_path, out.
    by rewrite Hp, str_truthy_true, str_endswith_append.
Qed.

(** X22.  A run in place.  The output goes to a temporary path, the
    input path followed by a dot, a random number and '.tmp'; when
    [process_file] has returned, the input is removed and the
    temporary file renamed to it: the input path holds what was
    written, the temporary path is gone, and no other file has
    changed. *)
Theorem inplace_run_replaces_input a inpath w k rest data w2 out :
  is_modifying a = true -> a_inplace a = true ->
  negb (a_process_suffixed a) && str_truthy (a_suffix a)
    && str_endswith inpath (a_suffix a +:+ ".xdf") = false ->
  w_rng w = k :: rest -> w_fs w !! inpath = Some data ->
  let tmp := inpath +:+ "." +:+ format_int k +:+ ".tmp" in
  process_file inpath (Some tmp)
    (fun content => pmc content (a_set a) (a_clear a) (a_show a)) (a_overwrite a)
    (set_rng rest w)
  = (Ret tt, w2) ->
  w_fs w2 !! tmp = Some out ->
  exists w',
    process_path pmc a inpath w = (Ret tt, w')
    /\ w_fs w' !! inpath = Some out
    /\ w_fs w' !! tmp = None
    /\ forall q, q <> inpath -> q <> tmp -> w_fs w' !! q = w_fs w !! q.
Proof.
  intros Hm Hi Hskip Hr Hin tmp Hrun Hout.
  pose proof (temp_path_differs inpath (format_int k +:+ ".tmp")) as Hne.
  fold tmp in Hne.
  pose proof (process_file_writes_only tmp inpath (Some tmp)
                (fun content => pmc content (a_set a) (a_clear a) (a_show a))
                (a_overwrite a) (set_rng rest w) ltac:(by right)) as Hframe.
  cbv zeta in Hframe. rewrite Hrun in Hframe. cbn [snd] in Hframe.
  assert (w_fs w2 !! inpath = Some data) as Hin2.
  { rewrite Hframe by done. exact Hin. }
  unfold process_path. rewrite Hskip, Hm.
  unfold bind at 1. unfold bind at 1.
  rewrite (gen_outpath_temp _ _ _ _ k rest) by auto.
  unfold ret at 1. cbn [fst snd]. unfold bind at 1. fold tmp. rewrite Hrun.
  unfold tmp at 1. rewrite temp_path_truthy. cbn [andb].
  unfold bind at 1. unfold os_remove at 1. rewrite Hin2.
  unfold os_rename. cbn [set_fs w_fs]. rewrite lookup_delete_ne by done.
  rewrite Hout. eexists. split; [reflexivity|]. cbn [w_fs set_fs].
  split; [apply lookup_insert_eq|]. split.
  - rewrite lookup_insert_ne by done. apply lookup_delete_eq.
  - intros q Hq1 Hq2. rewrite lookup_insert_ne by done.
    rewrite !lookup_delete_ne by done. by rewrite Hframe.
Qed.

End Runs.

Lemma path_without_xdf_fails_assertion_witness :
  let w := start_world "REC.XDF" two_metadata_file [] in
  gen_outpath "REC.XDF" ".processed" false w = (Ret ("REC.XDF"%string, false), w)
  /\ @process_path sample_documents sample_processing (set_args false) "REC.XDF" w
     = (Raise AssertionError,
        World {[ "REC.XDF"%string := two_metadata_file ]} (Reader two_metadata_file 0)
          None ([] ++ [(INFO, Msg_processing "REC.XDF")]) []).
Proof.
  intros w.
  apply (@path_without_xdf_fails_assertion sample_documents sample_processing
           (set_args false) "REC.XDF" w two_metadata_file);
    [reflexivity|reflexivity|done|reflexivity|apply lookup_singleton_eq].
Defined.

Lemma output_of_a_run_is_skipped_witness :
  let w := start_world "rec.processed.xdf" two_metadata_file [] in
  gen_outpath ("rec" +:+ ".xdf") ".processed" false w
  = (Ret ("rec" +:+ ".processed" +:+ ".xdf", false), w)
  /\ @process_path sample_documents sample_processing (set_args false)
       ("rec" +:+ ".processed" +:+ ".xdf") w
     = (Ret tt, w).
Proof.
  intros w.
  apply (@output_of_a_run_is_skipped sample_documents sample_processing
           (set_args false) "rec" w); [reflexivity|done|reflexivity|reflexivity].
Defined.

Lemma inplace_run_replaces_input_witness :
  let w := start_world "in.xdf" two_metadata_file [12345] in
  let tmp := ("in.xdf" +:+ "." +:+ format_int 12345 +:+ ".tmp")%string in
  let out := take 128 two_metadata_file
               ++ ([x01; x60] ++ [x02; x00] ++ [x08; x00; x00; x00]
                     ++ list_byte_of_string edited_doc)
               ++ drop 226 two_metadata_file in
  exists w',
    @process_path sample_documents sample_processing (set_args true) "in.xdf" w
    = (Ret tt, w')
    /\ w_fs w' !! "in.xdf"%string = Some out
    /\ w_fs w' !! tmp = None
    /\ forall q, q <> "in.xdf"%string -> q <> tmp -> w_fs w' !! q = w_fs w !! q.
Proof.
  intros w tmp out.
  set (r := @process_file sample_documents "in.xdf" (Some tmp)
              (fun content => sample_processing content (a_set (set_args true))
                                (a_clear (set_args true)) (a_show (set_args true)))
              (a_overwrite (set_args true)) (set_rng [] w)).
  assert (r = (Ret tt, r.2)) as Hrun by (vm_compute; reflexivity).
  assert (w_fs r.2 !! tmp = Some out) as Hout by (vm_compute; reflexivity).
  apply (@inplace_run_replaces_input sample_documents sample_processing (set_args true)
           "in.xdf" w 12345 [] two_metadata_file r.2 out);
    [reflexivity|reflexivity|reflexivity|reflexivity|apply lookup_singleton_eq
    |exact Hrun|exact Hout].
Defined.


(** ** The document as a dict *)

Lemma dd_get_append k k' v dd :
  dd_get k (dd_append k' v dd)
  = if String.eqb k' k then dd_get k dd ++ [v] else dd_get k dd.
Proof.
  induction dd as [|[k0 vs] dd IH]; cbn [dd_append dd_get].
  - by destruct (String.eqb k' k).
  - destruct (String.eqb_spec k0 k') as [->|Hne]; cbn [dd_get].
    + by destruct (String.eqb k' k).
    + destruct (String.eqb_spec k0 k) as [->|Hne']; [|exact IH].
      by destruct (String.eqb_spec k' k) as [->|].
Qed.

Lemma dd_get_fold k (l : list (string * xvalue)) :
  forall dd,
    dd_get k (fold_left (fun dd (dc : string * xvalue) => dd_append dc.1 dc.2 dd) l dd)
    = dd_get k dd ++ map snd (filter (fun dc : string * xvalue => dc.1 = k) l).
Proof.
  induction l as [|[k' v] l IH]; intros dd; cbn [fold_left fst snd].
  - by rewrite app_nil_r.
  - rewrite IH, dd_get_append, filter_cons. cbn [fst].
    destruct (String.eqb_spec k' k) as [->|Hne].
    + rewrite decide_True by done. cbn [map snd]. by rewrite <- app_assoc.
    + by rewrite decide_False.
Qed.

Lemma dd_append_cons k v dd : exists kv dd', dd_append k v dd = kv :: dd'.
Proof.
  destruct dd as [|[k0 vs] dd]; cbn [dd_append]; [by eexists _, _|].
  destruct (String.eqb k0 k); by eexists _, _.
Qed.

Lemma dd_fold_cons (l : list (string * xvalue)) :
  forall kv dd, exists kv' dd',
    fold_left (fun dd (dc : string * xvalue) => dd_append dc.1 dc.2 dd) l (kv :: dd)
    = kv' :: dd'.
Proof.
  induction l as [|[k v] l IH]; intros kv dd; cbn [fold_left fst snd]; [by eexists _, _|].
  destruct (dd_append_cons k v (kv :: dd)) as (kv1 & dd1 & ->). apply IH.
Qed.

Lemma xml2dict_eq t :
  xml2dict t
  = (e_tag t,
     match fold_left (fun dd (dc : string * xvalue) => dd_append dc.1 dc.2 dd)
             (map xml2dict (e_children t)) [] with
     | [] => XText (e_text t)
     | kv :: dd => XDict (kv :: dd)
     end).
Proof.
  destruct t as [tag a tx tl cs]. cbn [xml2dict e_tag e_text e_children].
  by destruct (fold_left _ _ _).
Qed.

Lemma xml2dict_fst t : (xml2dict t).1 = e_tag t.
Proof. by rewrite xml2dict_eq. Qed.

Lemma filter_map_xml2dict k cs :
  map snd (filter (fun dc : string * xvalue => dc.1 = k) (map xml2dict cs))
  = map (fun c => (xml2dict c).2) (filter (fun c => e_tag c = k) cs).
Proof.
  induction cs as [|c cs IH]; [done|]. cbn [map]. rewrite !filter_cons.
  pose proof (xml2dict_fst c) as Hf.
  destruct (decide ((xml2dict c).1 = k)) as [H1|H1],
           (decide (e_tag c = k)) as [H2|H2];
    try congruence; cbn [map snd]; by rewrite IH.
Qed.

(** What [xml2dict] gives for an element. *)
Lemma xml2dict_children t :
  (xml2dict t).1 = e_tag t
  /\ match e_children t with
     | [] => (xml2dict t).2 = XText (e_text t)
     | _ :: _ =>
         exists dd,
           (xml2dict t).2 = XDict dd
           /\ forall k,
                dd_get k dd
                = map (fun c => (xml2dict c).2)
                    (filter (fun c => e_tag c = k) (e_children t))
     end.
Proof.
  rewrite xml2dict_eq. cbn [fst snd]. split; [done|].
  destruct (e_children t) as [|c cs] eqn:Hc; [done|].
  cbn [map fold_left].
  destruct (dd_append_cons (xml2dict c).1 (xml2dict c).2 []) as (kv & dd & E).
  destruct (dd_fold_cons (map xml2dict cs) kv dd) as (kv' & dd' & E').
  pose proof (dd_get_fold) as Hget.
  exists (kv' :: dd'). rewrite E, E'. split; [done|].
  intros k. rewrite <- E', <- E.
  change (fold_left _ (map xml2dict cs) (dd_append (xml2dict c).1 (xml2dict c).2 []))
    with (fold_left (fun dd (dc : string * xvalue) => dd_append dc.1 dc.2 dd)
            (map xml2dict (c :: cs)) []).
  rewrite dd_get_fold. cbn [dd_get app]. apply filter_map_xml2dict.
Qed.

(** X24.  [xml2dict] groups the children of an element by tag.  For an
    element without children the value is its text.  For any other
    element it is a dict in which the key [k] holds the values of the
    children with the tag [k], in the order of the document; the text
    of the element itself is dropped. *)
Theorem xml2dict_groups_children t :
  (xml2dict t).1 = e_tag t
  /\ match e_children t with
     | [] => (xml2dict t).2 = XText (e_text t)
     | _ :: _ =>
         exists dd,
           (xml2dict t).2 = XDict dd
           /\ forall k,
                dd_get k dd
                = map (fun c => (xml2dict c).2)
                    (filter (fun c => e_tag c = k) (e_children t))
     end.
Proof. apply xml2dict_children. Qed.

(** X25.  The field of a stream header that the locator reads.  The
    expression [xml2dict(root)['info'][f][0]] raises unless the root
    is [info] and has a child with the tag [f]; its value comes from
    the first such child alone: the text of that child when it has no
    children and a text, and no string otherwise.  A later child with
    the same tag is never looked at. *)
Theorem header_field_reads_first_child f root :
  header_field f root
  = if String.eqb (e_tag root) "info" then
      match filter (fun c => e_tag c = f) (e_children root) with
      | [] => None
      | c :: _ =>
          Some (match e_children c, e_text c with
                | [], Some s => Some s
                | _, _ => None
                end)
      end
    else None.
Proof.
  unfold header_field.
  destruct (xml2dict_children root) as [-> Hv].
  destruct (String.eqb (e_tag root) "info"); [|done].
  destruct (e_children root) as [|c0 cs0] eqn:Hc.
  - by rewrite Hv.
  - destruct Hv as (dd & -> & Hget). rewrite Hget.
    destruct (filter (fun c => e_tag c = f) (c0 :: cs0)) as [|c cs]; [done|].
    cbn [map]. destruct (xml2dict_children c) as [_ Hvc].
    destruct (e_children c) as [|c1 cs1].
    + rewrite Hvc. by destruct (e_text c).
    + by destruct Hvc as (ddc & -> & _).
Qed.

(** ** A file that does not start with the magic *)

Section BadMagic.
Context {D : Documents}.

(** An output path that exists, without [overwrite]: the run ends
    before the input is read. *)
Lemma process_file_existing_output inpath p transform w data :
  w_fs w !! inpath = Some data -> p <> inpath -> p <> EmptyString ->
  is_Some (w_fs w !! p) ->
  process_file inpath (Some p) transform false w
  = (Raise FileExistsError,
     World (w_fs w) (Reader data 0) None
       (w_log w ++ [(INFO, Msg_processing inpath)]) (w_rng w)).
Proof.
  intros Hin Hne Hnz Hold. destruct w as [fs inf outf log rng].
  cbn [w_fs w_log w_rng] in *. unfold process_file.
  unfold bind at 1. rewrite emit_eq.
  unfold bind at 1. rewrite (getsize_eq _ _ _ _ _ _ _ Hin).
  unfold bind at 1. unfold set_outf. cbn [w_fs w_inf w_outf w_log w_rng].
  unfold try_finally, process_file_body.
  unfold bind at 1. rewrite (open_rb_eq _ _ _ _ _ _ _ Hin).
  unfold bind at 1. rewrite bool_decide_eq_false_2 by congruence. unfold ret at 1.
  unfold bind at 1. unfold path_truthy. rewrite bool_decide_eq_false_2 by done.
  cbn [negb]. unfold bind at 1. rewrite path_exists_eq.
  rewrite bool_decide_eq_true_2 by done. reflexivity.
Qed.

(** Without an output path that is opened, the locator runs on the
    input as it is. *)
Lemma process_file_bad_magic_unopened inpath outpath transform overwrite w data :
  w_fs w !! inpath = Some data -> take 4 data <> magic ->
  path_truthy outpath = false -> outpath <> Some inpath ->
  exists w',
    process_file inpath outpath transform overwrite w = (Raise InvalidContainer, w')
    /\ w_fs w' = w_fs w.
Proof.
  intros Hin Hm Hp Hne.
  rewrite (process_file_no_output inpath outpath transform overwrite w data) by done.
  unfold try_finally, bind.
  rewrite (get_metadata_content_bad_magic _ _ _ _ _ _ _ data) by done.
  unfold close_if_open. cbn [w_outf]. by eexists.
Qed.

(** ** C7 *)

End BadMagic.



(** ** The loop that draws a fresh stream id *)

#[global] Instance same_draws_refl : Reflexive same_draws.
Proof. by intros w. Qed.

#[global] Instance same_draws_trans : Transitive same_draws.
Proof. intros w1 w2 w3 H1 H2. unfold same_draws in *. congruence. Qed.

Lemma tell_same_draws : preserves same_draws tell.
Proof. by intros w. Qed.

Lemma seek_same_draws p : preserves same_draws (seek p).
Proof. intros w. unfold seek. by destruct (p <? 0). Qed.

Lemma read_same_draws n : preserves same_draws (read n).
Proof. intros w. unfold read. by destruct (n <? -1). Qed.

Lemma emit_same_draws l m : preserves same_draws (emit l m).
Proof. by intros w. Qed.

Lemma getsize_same_draws p : preserves same_draws (getsize p).
Proof. intros w. unfold getsize. by destruct (w_fs w !! p). Qed.

Create HintDb draws.

#[global] Hint Resolve tell_same_draws seek_same_draws read_same_draws emit_same_draws
  getsize_same_draws : draws.

Ltac draws_step :=
  first
    [ apply preserves_ret; typeclasses eauto
    | apply preserves_raise; typeclasses eauto
    | apply preserves_out_of_fuel; typeclasses eauto
    | apply preserves_lift_struct; typeclasses eauto
    | apply preserves_lift_doc; typeclasses eauto
    | solve [auto 1 with draws nocore]
    | apply preserves_bind; [typeclasses eauto | | intros ?]
    | apply preserves_try_except; [typeclasses eauto | | ]
    | match goal with
      | |- preserves _ (if ?b then _ else _) => destruct b
      | |- preserves _ (match ?x with _ => _ end) => destruct x
      end ].

Ltac draws := repeat draws_step.

Lemma scan_forward_loop_same_draws f : preserves same_draws (scan_forward_loop f).
Proof.
  induction f as [|f IH]; cbn [scan_forward_loop]; [draws|].
  apply preserves_bind; [typeclasses eauto|apply tell_same_draws|intros curpos].
  apply preserves_bind; [typeclasses eauto|apply read_same_draws|intros block].
  destruct (negb (bytes_find block signature =? -1)); [draws|].
  destruct (Z.of_nat (length block) <? blocklen); [draws|exact IH].
Qed.

Lemma scan_forward_same_draws : preserves same_draws scan_forward.
Proof. intros w. apply scan_forward_loop_same_draws. Qed.

Lemma read_varlen_int_same_draws : preserves same_draws read_varlen_int.
Proof. unfold read_varlen_int. draws. Qed.

#[global] Hint Resolve scan_forward_same_draws read_varlen_int_same_draws : draws.

(** *** What cannot use up the draws *)

Lemma drawless_ret {A} (a : A) : drawless (ret a).
Proof. by intros w. Qed.

Lemma drawless_raise {A} e : drawless (@raise A e).
Proof. by intros w. Qed.

Lemma drawless_out_of_fuel {A} : drawless (@out_of_fuel A).
Proof. by intros w. Qed.

Lemma drawless_bind {A B} (m : M A) (k : A -> M B) :
  drawless m -> (forall a, drawless (k a)) -> drawless (bind m k).
Proof.
  intros Hm Hk w. unfold bind. specialize (Hm w).
  destruct (m w) as [[a|e| |] w1]; cbn [fst] in *; [apply Hk|done..].
Qed.

Lemma drawless_try_except {A} (m h : M A) :
  drawless m -> drawless h -> drawless (try_except m h).
Proof.
  intros Hm Hh w. unfold try_except. specialize (Hm w).
  destruct (m w) as [[a|e| |] w1]; cbn [fst] in *; [done|apply Hh|done..].
Qed.

Lemma drawless_lift_struct {A} (o : option A) : drawless (lift_struct o).
Proof. by destruct o. Qed.

Lemma drawless_tell : drawless tell.
Proof. by intros w. Qed.

Lemma drawless_seek p : drawless (seek p).
Proof. intros w. unfold seek. by destruct (p <? 0). Qed.

Lemma drawless_read n : drawless (read n).
Proof. intros w. unfold read. by destruct (n <? -1). Qed.

Lemma drawless_emit l m : drawless (emit l m).
Proof. by intros w. Qed.

Lemma drawless_getsize p : drawless (getsize p).
Proof. intros w. unfold getsize. by destruct (w_fs w !! p). Qed.

Create HintDb drawless.

#[global] Hint Resolve drawless_ret drawless_raise drawless_out_of_fuel
  drawless_lift_struct drawless_tell drawless_seek drawless_read drawless_emit
  drawless_getsize : drawless.

Ltac drawless_step :=
  first
    [ solve [auto 1 with drawless nocore]
    | apply drawless_bind; [ | intros ?]
    | apply drawless_try_except
    | match goal with
      | |- drawless (if ?b then _ else _) => destruct b
      | |- drawless (match ?x with _ => _ end) => destruct x
      end ].

Ltac drawless := repeat drawless_step.

Lemma drawless_scan_forward_loop f : drawless (scan_forward_loop f).
Proof.
  induction f as [|f IH]; cbn [scan_forward_loop]; [drawless|].
  apply drawless_bind; [apply drawless_tell|intros curpos].
  apply drawless_bind; [apply drawless_read|intros block].
  destruct (negb (bytes_find block signature =? -1)); [drawless|].
  destruct (Z.of_nat (length block) <? blocklen); [drawless|exact IH].
Qed.

Lemma drawless_scan_forward : drawless scan_forward.
Proof. intros w. apply drawless_scan_forward_loop. Qed.

Lemma drawless_read_varlen_int : drawless read_varlen_int.
Proof. unfold read_varlen_int. drawless. Qed.

#[global] Hint Resolve drawless_scan_forward drawless_read_varlen_int : drawless.

(** A value of the draws that is not among [ids] ends the loop. *)
Lemma draw_fresh_some draws ids k :
  k ∈ draws -> k ∉ ids -> is_Some (draw_fresh draws ids).
Proof.
  induction draws as [|d draws IH]; intros Hk Hids; [by apply elem_of_nil in Hk|].
  cbn [draw_fresh]. destruct (decide (d ∈ ids)) as [Hd|Hd]; [|by eexists].
  apply IH; [|done]. apply elem_of_cons in Hk as [->|Hk]; done.
Qed.

Lemma fresh_stream_id_draws ids : drawless_on (has_fresh_draw ids) (fresh_stream_id ids).
Proof.
  intros w (k & Hk & Hids). unfold fresh_stream_id.
  destruct (draw_fresh_some _ _ _ Hk Hids) as [[k' rest] ->]. done.
Qed.

Lemma drawless_on_bind {A B} P (m : M A) (k : A -> M B) :
  drawless_on P m -> (forall w, P w -> P (m w).2) ->
  (forall a, drawless_on P (k a)) -> drawless_on P (bind m k).
Proof.
  intros Hm Hp Hk w Hw. unfold bind. specialize (Hm w Hw). specialize (Hp w Hw).
  destruct (m w) as [[a|e| |] w1]; cbn [fst snd] in *; [by apply Hk|done..].
Qed.

Lemma drawless_drawless_on {A} P (m : M A) : drawless m -> drawless_on P m.
Proof. intros H w _. apply H. Qed.

Lemma same_draws_has_fresh_draw {A} ids (m : M A) :
  preserves same_draws m -> forall w, has_fresh_draw ids w -> has_fresh_draw ids (m w).2.
Proof.
  intros H w (k & Hk & Hids). exists k. split; [|done].
  specialize (H w). unfold same_draws in H. by rewrite H.
Qed.

Lemma no_id_at_offsets_spec data k : no_id_at_offsets data k = true -> no_id_of data k.
Proof.
  unfold no_id_at_offsets. intros H pos. rewrite forallb_forall in H.
  destruct (le_lt_dec pos (length data)) as [Hle|Hgt].
  - specialize (H pos). rewrite in_seq in H.
    specialize (H ltac:(lia)). apply negb_true_iff, Z.eqb_neq in H. exact H.
  - specialize (H (length data)). rewrite in_seq in H.
    specialize (H ltac:(lia)). apply negb_true_iff, Z.eqb_neq in H.
    rewrite drop_all in H. by rewrite drop_ge by lia.
Qed.

Section Draws.
Context {D : Documents}.

Lemma is_metadata_header_same_draws name doc :
  preserves same_draws (is_metadata_header name doc).
Proof. unfold is_metadata_header. draws. Qed.

Lemma log_found_stream_same_draws name : preserves same_draws (log_found_stream name).
Proof. unfold log_found_stream. draws. Qed.

Hint Resolve is_metadata_header_same_draws log_found_stream_same_draws : draws.

Lemma on_stream_header_same_draws b c st : preserves same_draws (on_stream_header b c st).
Proof. unfold on_stream_header. draws. Qed.

Lemma drawless_lift_doc {A} (o : option A) : drawless (lift_doc o).
Proof. by destruct o. Qed.

Hint Resolve drawless_lift_doc : drawless.

Lemma drawless_on_stream_header b c st : drawless (on_stream_header b c st).
Proof. unfold on_stream_header, is_metadata_header, log_found_stream. drawless. Qed.

Lemma on_data_chunk_draws st :
  drawless_on (has_fresh_draw (other_ids st)) (on_data_chunk st).
Proof.
  unfold on_data_chunk. destruct (metadata_content st).
  - apply drawless_drawless_on. drawless.
  - intros w Hw. unfold bind. pose proof (fresh_stream_id_draws _ w Hw) as H.
    by destruct (fresh_stream_id (other_ids st) w) as [[k| | |] w1].
Qed.

(** The part of a round before the branch on the tag. *)
Lemma chunk_round_draws fsz st :
  drawless_on (has_fresh_draw (other_ids st)) (chunk_round fsz st).
Proof.
  unfold chunk_round.
  apply drawless_on_bind;
    [apply drawless_drawless_on; drawless
    |apply same_draws_has_fresh_draw; draws|intros begin_pos].
  apply drawless_on_bind;
    [apply drawless_drawless_on; drawless
    |apply same_draws_has_fresh_draw; draws|intros [chunklen|f]].
  2:{ apply drawless_drawless_on. drawless. }
  apply drawless_on_bind;
    [apply drawless_drawless_on; drawless
    |apply same_draws_has_fresh_draw; draws|intros tagb].
  apply drawless_on_bind;
    [apply drawless_drawless_on; drawless
    |apply same_draws_has_fresh_draw; draws|intros tag].
  apply drawless_on_bind;
    [apply drawless_drawless_on; drawless
    |apply same_draws_has_fresh_draw; draws|intros pos].
  apply drawless_on_bind;
    [apply drawless_drawless_on; drawless
    |apply same_draws_has_fresh_draw; draws|intros _].
  destruct (tag =? ChunkTags.STREAM_HEADER_TAG).
  { apply drawless_drawless_on. apply drawless_bind;
      [apply drawless_on_stream_header|intros; drawless]. }
  destruct ((tag =? ChunkTags.SAMPLES_TAG) || (tag =? ChunkTags.STREAM_FOOTER_TAG)).
  - intros w Hw. unfold bind. pose proof (on_data_chunk_draws st w Hw) as H.
    by destruct (on_data_chunk st w) as [[st'| | |] w1].
  - apply drawless_drawless_on. drawless.
Qed.

(** The ids on record after a stream header: those on record before
    it, and the value of four bytes of the file. *)
Lemma on_stream_header_ids b c st w st' w' :
  on_stream_header b c st w = (Ret st', w') ->
  forall id, id ∈ other_ids st' ->
             id ∈ other_ids st
             \/ exists pos, id = le_to_Z (take 4 (drop pos (r_data (w_inf w)))).
Proof.
  intros H. unfold on_stream_header in H.
  apply bind_ret_inv in H as (idb & w1 & E1 & H).
  apply bind_ret_inv in H as (sid & w1' & E2 & H).
  apply lift_struct_ret_inv in E2 as [E2 <-].
  apply bind_ret_inv in H as (xml & w2 & E3 & H).
  apply bind_ret_inv in H as (name & w2' & E3' & H).
  apply lift_doc_ret_inv in E3' as [_ <-].
  apply bind_ret_inv in H as (is_meta & w3 & E4 & H).
  apply bind_ret_inv in H as (st2 & w4 & E5 & H).
  apply bind_ret_inv in H as ([] & w5 & _ & H).
  apply ret_inv in H as [-> _].
  assert (exists pos, sid = le_to_Z (take 4 (drop pos (r_data (w_inf w))))) as Hsid.
  { exists (r_pos (w_inf w)). destruct w as [fs [data pos] outf log rng].
    rewrite read_nonneg in E1 by lia. injection E1 as <- _.
    cbn [w_inf r_data r_pos]. unfold unpack_uint in E2.
    destruct (decide _); [|done]. by injection E2. }
  assert (forall st1,
             other_ids st1 = other_ids st ->
             forall id, id ∈ other_ids st1 ++ [sid] ->
                        id ∈ other_ids st
                        \/ exists pos, id = le_to_Z (take 4 (drop pos (r_data (w_inf w)))))
    as Hadd.
  { intros st1 Hst1 id Hid. rewrite Hst1 in Hid.
    apply elem_of_app in Hid as [Hid|Hid]; [by left|].
    apply list_elem_of_singleton in Hid as ->. by right. }
  intros id Hid.
  destruct (streamheaders_begin st) as [b1|]; destruct is_meta;
    cbn [metadata_begin other_ids] in E5.
  - destruct (metadata_begin st).
    + apply ret_inv in E5 as [<- _]. cbn [other_ids] in Hid. by apply (Hadd st).
    + apply bind_ret_inv in E5 as (p & w3' & _ & E5).
      apply ret_inv in E5 as [<- _]. cbn [other_ids] in Hid. by left.
  - apply ret_inv in E5 as [<- _]. cbn [other_ids] in Hid. by apply (Hadd st).
  - destruct (metadata_begin st).
    + apply ret_inv in E5 as [<- _]. cbn [other_ids] in Hid. by apply (Hadd st).
    + apply bind_ret_inv in E5 as (p & w3' & _ & E5).
      apply ret_inv in E5 as [<- _]. cbn [other_ids] in Hid. by left.
  - apply ret_inv in E5 as [<- _]. cbn [other_ids] in Hid. by apply (Hadd st).
Qed.

(** A round that goes on has drawn nothing, and the ids it has added
    to the record are values of four bytes of the file. *)
Lemma chunk_round_goes_on fsz st w st' w' :
  chunk_round fsz st w = (Ret (Continue, st'), w') ->
  w_rng w' = w_rng w
  /\ forall id, id ∈ other_ids st' ->
                id ∈ other_ids st
                \/ exists pos, id = le_to_Z (take 4 (drop pos (r_data (w_inf w)))).
Proof.
  intros H. unfold chunk_round in H.
  apply bind_ret_inv in H as (bp & w0 & Et & H). injection Et as <- <-.
  apply bind_ret_inv in H as (r & w1 & E1 & H).
  assert (same_draws w w1 /\ r_data (w_inf w1) = r_data (w_inf w)) as [D1 A1].
  { split.
    - eapply preserves_run; [|exact E1]. draws.
    - eapply (preserves_run advances); [|exact E1]. cursor. }
  destruct r as [chunklen|f].
  2:{ apply ret_inv in H as [[= -> ->] <-]. split; [exact D1|]. intros id Hid. by left. }
  apply bind_ret_inv in H as (tagb & w2 & E2 & H).
  apply bind_ret_inv in H as (tag & w2' & E3 & H).
  apply lift_struct_ret_inv in E3 as [_ <-].
  apply bind_ret_inv in H as (p & w2' & Et & H). injection Et as <- <-.
  apply bind_ret_inv in H as ([] & w3 & E4 & H).
  pose proof (preserves_run _ _ _ _ _ (read_same_draws _) E2) as D2.
  pose proof (preserves_run _ _ _ _ _ (emit_same_draws _ _) E4) as D3.
  pose proof (preserves_run _ _ _ _ _ (read_advances _) E2) as (A2 & _).
  pose proof (preserves_run _ _ _ _ _ (emit_advances _ _) E4) as (A3 & _).
  unfold same_draws in *.
  destruct (tag =? ChunkTags.STREAM_HEADER_TAG).
  - apply bind_ret_inv in H as (st1 & w4 & E5 & H).
    apply ret_inv in H as [[= <-] <-].
    pose proof (preserves_run _ _ _ _ _ (on_stream_header_same_draws _ _ _) E5) as D4.
    unfold same_draws in D4. split; [congruence|].
    intros id Hid. destruct (on_stream_header_ids _ _ _ _ _ _ E5 id Hid) as [Hin|[pos ->]];
      [by left|]. right. exists pos. congruence.
  - destruct ((tag =? ChunkTags.SAMPLES_TAG) || (tag =? ChunkTags.STREAM_FOOTER_TAG)).
    + apply bind_ret_inv in H as (st1 & w4 & _ & H). by apply ret_inv in H as [[=] _].
    + apply bind_ret_inv in H as (? & w4 & E5 & H).
      apply ret_inv in H as [[= <-] <-].
      pose proof (preserves_run _ _ _ _ _ (read_same_draws _) E5) as D4.
      unfold same_draws in D4. split; [congruence|]. intros id Hid. by left.
Qed.

Lemma traverse_draws f fsz k : forall st w,
  no_id_of (r_data (w_inf w)) k ->
  k ∈ w_rng w -> k ∉ other_ids st ->
  (traverse f fsz st w).1 <> OutOfDraws.
Proof.
  induction f as [|f IH]; intros st w Hno Hk Hids; [done|].
  cbn [traverse]. unfold bind.
  pose proof (chunk_round_draws fsz st w ltac:(by exists k)) as Hr.
  destruct (chunk_round fsz st w) as [[[[] st1]|e| |] w1] eqn:E; cbn [fst] in *;
    try done.
  destruct (chunk_round_goes_on _ _ _ _ _ E) as [Hrng Hadd].
  pose proof (preserves_run _ _ _ _ _ (chunk_round_advances _ _) E) as (Ad & _).
  apply IH.
  - by rewrite Ad.
  - by rewrite Hrng.
  - intros Hin. destruct (Hadd k Hin) as [Hold|[pos Hpos]]; [done|].
    by apply (Hno pos).
Qed.

Lemma get_metadata_content_draws filepath w k :
  no_id_of (r_data (w_inf w)) k -> k ∈ w_rng w ->
  (get_metadata_content filepath w).1 <> OutOfDraws.
Proof.
  intros Hno Hk. destruct w as [fs [data pos] outf log rng].
  cbn [w_inf r_data w_rng] in *. unfold get_metadata_content.
  unfold bind at 1. unfold getsize at 1. cbn [w_fs].
  destruct (fs !! filepath) as [bs|]; [|done].
  unfold bind at 1. rewrite tell_eq.
  unfold bind at 1. rewrite seek_nonneg by lia.
  unfold bind at 1. rewrite read_nonneg by lia.
  destruct (negb (bool_decide (take (Z.to_nat 4) (drop (Z.to_nat 0) data) = magic)));
    [done|].
  unfold bind at 1.
  match goal with
  | |- context [traverse_chunks ?z ?w0] =>
      pose proof (traverse_draws (S (length data)) z k scan_init w0) as Ht;
      change (traverse (S (length data)) z scan_init w0) with (traverse_chunks z w0) in Ht;
      destruct (traverse_chunks z w0) as [[st|e| |] w1] eqn:E
  end; cbn [fst] in *; try done.
  - apply drawless_bind; [destruct (has_more_than_one st); drawless|].
    intros _. drawless.
  - exfalso. apply Ht; cbn [w_inf r_data w_rng other_ids scan_init];
      [exact Hno|exact Hk| |reflexivity].
    intros H. by apply elem_of_nil in H.
Qed.

(** X12.  The locator ends.  On a handle over the file that the path
    names, when one of the values that [random.randint] will return
    is not the value of four bytes that follow one another in the
    file, [get_metadata_content] returns or raises.  Every round of
    the loop over the chunks that goes on has moved the cursor
    forward, so that loop ends; and the loop that draws a stream id
    ends at that value at the latest, as the ids it has to avoid were
    all read from four bytes of the file. *)
Theorem locator_terminates filepath w k :
  w_fs w !! filepath = Some (r_data (w_inf w)) ->
  k ∈ w_rng w ->
  (forall pos, le_to_Z (take 4 (drop pos (r_data (w_inf w)))) <> k) ->
  exists w',
    (exists loc, get_metadata_content filepath w = (Ret loc, w'))
    \/ (exists e, get_metadata_content filepath w = (Raise e, w')).
Proof.
  intros Hfs Hk Hno.
  pose proof (get_metadata_content_fueled filepath w _ Hfs ltac:(lia)) as Hf.
  pose proof (get_metadata_content_draws filepath w k Hno Hk) as Hd.
  destruct (get_metadata_content filepath w) as [[loc|e| |] w'] eqn:E;
    cbn [fst] in *; try done; exists w'; [left|right]; by eexists.
Qed.
End Draws.

Lemma locator_terminates_witness :
  let data := magic ++ frames [file_header; sample_header x07 eeg_doc] ++ samples_chunk in
  let w := start_world "in.xdf" data [7; 12345] in
  exists w',
    (exists loc, @get_metadata_content sample_documents "in.xdf" w = (Ret loc, w'))
    \/ (exists e, @get_metadata_content sample_documents "in.xdf" w = (Raise e, w')).
Proof.
  intros data w.
  apply (@locator_terminates sample_documents "in.xdf" w 12345).
  - apply lookup_singleton_eq.
  - apply elem_of_cons. right. apply elem_of_cons. by left.
  - apply no_id_at_offsets_spec. vm_compute. reflexivity.
Defined.

(** ** The stream id that the locator returns *)

Section IdRange.
Context {D : Documents}.

Lemma on_stream_header_id b c st w st' w' :
  on_stream_header b c st w = (Ret st', w') ->
  (forall i, metadata_id st = Some i -> 0 <= i < 2 ^ 32) ->
  forall i, metadata_id st' = Some i -> 0 <= i < 2 ^ 32.
Proof.
  intros H Hst. unfold on_stream_header in H.
  apply bind_ret_inv in H as (idb & w1 & E1 & H).
  apply bind_ret_inv in H as (sid & w1' & E2 & H).
  apply lift_struct_ret_inv in E2 as [E2 <-].
  apply bind_ret_inv in H as (xml & w2 & E3 & H).
  apply bind_ret_inv in H as (name & w2' & E3' & H).
  apply lift_doc_ret_inv in E3' as [_ <-].
  apply bind_ret_inv in H as (is_meta & w3 & E4 & H).
  apply bind_ret_inv in H as (st2 & w4 & E5 & H).
  apply bind_ret_inv in H as ([] & w5 & _ & H).
  apply ret_inv in H as [-> _].
  assert (0 <= sid < 2 ^ 32) as Hsid.
  { unfold unpack_uint in E2. destruct (decide (length idb = 4%nat)) as [Hl|]; [|done].
    injection E2 as <-. pose proof (le_to_Z_range idb) as Hr. rewrite Hl in Hr.
    exact Hr. }
  intros i Hi.
  destruct (streamheaders_begin st) as [b1|]; destruct is_meta;
    cbn [metadata_begin metadata_id] in E5.
  - destruct (metadata_begin st).
    + apply ret_inv in E5 as [<- _]. by apply Hst.
    + apply bind_ret_inv in E5 as (p & w3' & _ & E5).
      apply ret_inv in E5 as [<- _]. cbn [metadata_id] in Hi. by injection Hi as <-.
  - apply ret_inv in E5 as [<- _]. by apply Hst.
  - destruct (metadata_begin st).
    + apply ret_inv in E5 as [<- _]. by apply Hst.
    + apply bind_ret_inv in E5 as (p & w3' & _ & E5).
      apply ret_inv in E5 as [<- _]. cbn [metadata_id] in Hi. by injection Hi as <-.
  - apply ret_inv in E5 as [<- _]. by apply Hst.
Qed.

Lemma on_data_chunk_id st w st' w' :
  on_data_chunk st w = (Ret st', w') ->
  Forall (fun k => 10000 <= k <= 99999) (w_rng w) ->
  (forall i, metadata_id st = Some i -> 0 <= i < 2 ^ 32) ->
  forall i, metadata_id st' = Some i -> 0 <= i < 2 ^ 32.
Proof.
  intros H Hrng Hst. unfold on_data_chunk in H.
  destruct (metadata_content st).
  - apply ret_inv in H as [<- _]. exact Hst.
  - apply bind_ret_inv in H as (k & w1 & E & H). apply ret_inv in H as [<- _].
    unfold fresh_stream_id in E.
    destruct (draw_fresh (w_rng w) (other_ids st)) as [[k' rest]|] eqn:Ed; [|done].
    injection E as <- _. apply draw_fresh_spec in Ed as [_ Hk].
    intros i [= <-]. rewrite Forall_forall in Hrng. specialize (Hrng _ Hk). lia.
Qed.

Lemma chunk_round_id fsz st w fl st' w' :
  chunk_round fsz st w = (Ret (fl, st'), w') ->
  Forall (fun k => 10000 <= k <= 99999) (w_rng w) ->
  (forall i, metadata_id st = Some i -> 0 <= i < 2 ^ 32) ->
  forall i, metadata_id st' = Some i -> 0 <= i < 2 ^ 32.
Proof.
  intros H Hrng Hst. unfold chunk_round in H.
  apply bind_ret_inv in H as (bp & w0 & Et & H). injection Et as <- <-.
  apply bind_ret_inv in H as (r & w1 & E1 & H).
  assert (same_draws w w1) as D1 by (eapply preserves_run; [|exact E1]; draws).
  destruct r as [chunklen|f]; [|by apply ret_inv in H as [[= _ <-] _]].
  apply bind_ret_inv in H as (tagb & w2 & E2 & H).
  apply bind_ret_inv in H as (tag & w2' & E3 & H).
  apply lift_struct_ret_inv in E3 as [_ <-].
  apply bind_ret_inv in H as (p & w2' & Et & H). injection Et as <- <-.
  apply bind_ret_inv in H as ([] & w3 & E4 & H).
  pose proof (preserves_run _ _ _ _ _ (read_same_draws _) E2) as D2.
  pose proof (preserves_run _ _ _ _ _ (emit_same_draws _ _) E4) as D3.
  unfold same_draws in *.
  destruct (tag =? ChunkTags.STREAM_HEADER_TAG).
  - apply bind_ret_inv in H as (st1 & w4 & E5 & H).
    apply ret_inv in H as [[= _ <-] _]. by eapply on_stream_header_id.
  - destruct ((tag =? ChunkTags.SAMPLES_TAG) || (tag =? ChunkTags.STREAM_FOOTER_TAG)).
    + apply bind_ret_inv in H as (st1 & w4 & E5 & H).
      apply ret_inv in H as [[= _ <-] _].
      eapply on_data_chunk_id; [exact E5| |exact Hst]. congruence.
    + apply bind_ret_inv in H as (? & w4 & _ & H).
      by apply ret_inv in H as [[= _ <-] _].
Qed.

Lemma traverse_id f fsz : forall st w st' w',
  traverse f fsz st w = (Ret st', w') ->
  Forall (fun k => 10000 <= k <= 99999) (w_rng w) ->
  (forall i, metadata_id st = Some i -> 0 <= i < 2 ^ 32) ->
  forall i, metadata_id st' = Some i -> 0 <= i < 2 ^ 32.
Proof.
  induction f as [|f IH]; intros st w st' w' H Hrng Hst; cbn [traverse] in H; [done|].
  apply bind_ret_inv in H as ([fl st1] & w1 & E1 & H).
  pose proof (chunk_round_id _ _ _ _ _ _ E1 Hrng Hst) as Hst1.
  destruct fl.
  - destruct (chunk_round_goes_on _ _ _ _ _ E1) as [Hr _].
    eapply IH; [exact H| |exact Hst1]. by rewrite Hr.
  - by apply ret_inv in H as [<- _].
Qed.

(** The stream id that the locator returns fits four bytes: it was
    read from four bytes, or it is one of the values of
    [random.randint(10000, 99999)]. *)
Lemma get_metadata_content_id_range filepath w c b l i w' :
  get_metadata_content filepath w = (Ret (c, b, l, Some i), w') ->
  Forall (fun k => 10000 <= k <= 99999) (w_rng w) ->
  0 <= i < 2 ^ 32.
Proof.
  intros H Hrng. unfold get_metadata_content in H.
  apply bind_ret_inv in H as (fsz & w1 & E1 & H).
  apply bind_ret_inv in H as (oldpos & w1' & Et & H). injection Et as <- <-.
  apply bind_ret_inv in H as ([] & w2 & E2 & H).
  apply bind_ret_inv in H as (m & w3 & E3 & H).
  destruct (negb (bool_decide (m = magic))); [done|].
  apply bind_ret_inv in H as (st & w4 & E4 & H).
  apply bind_ret_inv in H as ([] & w5 & _ & H).
  apply bind_ret_inv in H as ([] & w6 & _ & H).
  apply ret_inv in H as [[= Hc Hb Hl Hi] _].
  pose proof (preserves_run _ _ _ _ _ (getsize_same_draws _) E1) as D1.
  pose proof (preserves_run _ _ _ _ _ (seek_same_draws _) E2) as D2.
  pose proof (preserves_run _ _ _ _ _ (read_same_draws _) E3) as D3.
  unfold same_draws in *. unfold traverse_chunks in E4.
  eapply (traverse_id _ _ _ _ _ _ E4); [congruence| |exact Hi].
  intros i0 [=].
Qed.
End IdRange.

(** ** The splice *)

Section SpliceClaim.
Context {D : Documents}.

(** The splice of a content that the frame codec cannot frame: the
    bytes before the span have been written when [write_varlen_int]
    raises. *)
Lemma process_file_content_too_long inpath p transform overwrite w data c b l i w1 new :
  w_fs w !! inpath = Some data -> p <> inpath -> p <> EmptyString ->
  overwrite = true \/ w_fs w !! p = None ->
  get_metadata_content inpath (opened_world inpath p data w)
  = (Ret (Some c, Some b, Some l, Some i), w1) ->
  transform c = Some new -> new <> c ->
  0 <= i < 2 ^ 32 ->
  varlen_bytes (Z.of_nat (length (encode_utf8 new)) + 6) = None ->
  exists w',
    process_file inpath (Some p) transform overwrite w = (Raise StructError, w')
    /\ w_fs w' = <[p := take (Z.to_nat b) data]> (w_fs w).
Proof.
  intros Hin Hne Hnz Hok Hloc Ht Hnew Hi Hlen.
  pose proof (get_metadata_content_span _ _ _ _ _ _ _ Hloc) as (Hb & Hl & Hbl).
  unfold opened_world in Hbl. cbn [w_inf r_data] in Hbl.
  rewrite (process_file_opened inpath p transform overwrite w data) by done.
  unfold try_finally. unfold bind at 1. rewrite Hloc.
  rewrite (get_metadata_content_opened _ _ _ _ _ _ Hloc).
  unfold splice. unfold bind at 1. rewrite Ht. unfold lift_doc, ret at 1.
  rewrite bool_decide_eq_false_2 by congruence. cbn [negb].
  unfold bind at 1. unfold copy_range at 1.
  rewrite (copy_range_loop_short _ b _ _ _ _ _ _ []);
    [|lia|lia|apply lookup_insert_eq].
  rewrite insert_insert_eq, drop_0, app_nil_l.
  unfold bind at 1. cbn [mbind option_bind].
  rewrite (pack_uint_in_range 4 i) by (change (2 ^ (8 * Z.of_nat 4)) with (2 ^ 32); lia).
  unfold lift_struct at 1, ret at 1.
  unfold bind at 1. unfold write_chunk. unfold bind at 1.
  rewrite write_varlen_int_open.
  rewrite length_app, length_Z_to_le.
  replace (Z.of_nat (4 + length (encode_utf8 new)) + 2)
    with (Z.of_nat (length (encode_utf8 new)) + 6) by lia.
  rewrite Hlen.
  unfold close_if_open, close_outf. cbn [w_outf wr_closed wr_path].
  eexists. split; [reflexivity|]. unfold set_outf. by cbn [w_fs].
Qed.

(** ** C1 *)

End SpliceClaim.



Local Open Scope nat_scope.

(** ** Editing the document *)

Lemma node_at_app p q t : node_at (p ++ q) t = node_at p t ≫= node_at q.
Proof.
  revert t. induction p as [|i p IH]; intros t; [done|]. cbn [app node_at].
  destruct (e_children t !! i) as [c|]; cbn [mbind option_bind]; [apply IH|done].
Qed.

Lemma update_at_app p q f t : update_at (p ++ q) f t = update_at p (update_at q f) t.
Proof.
  revert t. induction p as [|i p IH]; intros t; [done|]. cbn [app update_at].
  f_equal. apply list_alter_ext; [|done]. intros c _. apply IH.
Qed.

Lemma node_at_update p f t e :
  node_at p t = Some e -> node_at p (update_at p f t) = Some (f e).
Proof.
  revert t. induction p as [|i p IH]; intros t H; cbn [node_at update_at] in *.
  - by injection H as ->.
  - cbn [e_children with_children]. rewrite list_lookup_alter_eq.
    destruct (e_children t !! i) as [c|]; cbn [mbind option_bind fmap option_map] in *;
      [by apply IH|done].
Qed.

Lemma update_at_ext p f g t :
  (forall e, node_at p t = Some e -> f e = g e) -> update_at p f t = update_at p g t.
Proof.
  revert t. induction p as [|i p IH]; intros t H; cbn [update_at].
  - by apply H.
  - f_equal. apply list_alter_ext; [|done]. intros c Hc. apply IH.
    intros e He. apply H. cbn [node_at]. by rewrite Hc.
Qed.

Lemma update_at_update p f g t :
  update_at p f (update_at p g t) = update_at p (fun e => f (g e)) t.
Proof.
  revert t. induction p as [|i p IH]; intros t; [done|]. cbn [update_at].
  cbn [e_children with_children e_tag e_attrib e_text e_tail]. unfold with_children.
  cbn [e_tag e_attrib e_text e_tail]. f_equal.
  rewrite list_alter_alter_eq. apply list_alter_ext; [|done].
  intros c _. apply IH.
Qed.

(** The tags of the children of the node at a position: all that a
    path looks at. *)
Lemma tagged_from_tags i tag (a b : list element) :
  map e_tag a = map e_tag b -> tagged_from i tag a = tagged_from i tag b.
Proof.
  revert i b. induction a as [|x a IH]; intros i [|y b] H; try done.
  cbn [map] in H. injection H as Hx H. cbn [tagged_from]. rewrite Hx.
  by rewrite (IH (S i) b H).
Qed.

Lemma tagged_from_app i tag (a b : list element) :
  tagged_from i tag (a ++ b) = tagged_from i tag a ++ tagged_from (i + length a) tag b.
Proof.
  revert i. induction a as [|x a IH]; intros i; cbn [app tagged_from length].
  - by rewrite Nat.add_0_r.
  - rewrite IH. replace (S i + length a) with (i + S (length a)) by lia.
    by destruct (String.eqb (e_tag x) tag).
Qed.

Lemma tagged_from_bounds i tag cs j :
  j ∈ tagged_from i tag cs -> i <= j < i + length cs.
Proof.
  revert i. induction cs as [|c cs IH]; intros i H; cbn [tagged_from] in H.
  - by apply elem_of_nil in H.
  - cbn [length]. destruct (String.eqb (e_tag c) tag).
    + apply elem_of_cons in H as [->|H]; [lia|]. apply IH in H. lia.
    + apply IH in H. lia.
Qed.

Lemma tagged_from_lookup i tag cs j :
  j ∈ tagged_from i tag cs -> exists c, cs !! (j - i) = Some c /\ e_tag c = tag.
Proof.
  revert i. induction cs as [|c cs IH]; intros i H; cbn [tagged_from] in H.
  - by apply elem_of_nil in H.
  - destruct (String.eqb_spec (e_tag c) tag) as [Ht|Ht].
    + apply elem_of_cons in H as [->|H].
      * exists c. by rewrite Nat.sub_diag.
      * pose proof (tagged_from_bounds _ _ _ _ H). destruct (IH _ H) as (c' & Hc' & Ht').
        exists c'. split; [|done]. replace (j - i) with (S (j - S i)) by lia. done.
    + pose proof (tagged_from_bounds _ _ _ _ H). destruct (IH _ H) as (c' & Hc' & Ht').
      exists c'. split; [|done]. replace (j - i) with (S (j - S i)) by lia. done.
Qed.

Lemma select_child_app root tag a b :
  select_child root tag (a ++ b) = select_child root tag a ++ select_child root tag b.
Proof. unfold select_child. apply flat_map_app. Qed.

Lemma walk_nil root steps :
  fold_left (fun result tag => select_child root tag result) steps [] = [].
Proof. induction steps as [|s steps IH]; [done|]. exact IH. Qed.

Lemma walk_app root steps :
  forall a b,
    fold_left (fun result tag => select_child root tag result) steps (a ++ b)
    = fold_left (fun result tag => select_child root tag result) steps a
      ++ fold_left (fun result tag => select_child root tag result) steps b.
Proof.
  induction steps as [|s steps IH]; intros a b; [done|]. cbn [fold_left].
  by rewrite select_child_app, IH.
Qed.

Lemma iterfind_cons root start tag steps :
  iterfind root start (tag :: steps)
  = fold_left (fun result t => select_child root t result) steps
      (select_child root tag [start]).
Proof. reflexivity. Qed.

Lemma select_child_one root tag p e :
  node_at p root = Some e ->
  select_child root tag [p] = map (fun i => p ++ [i]) (tagged tag (e_children e)).
Proof. intros H. unfold select_child. cbn [flat_map]. by rewrite H, app_nil_r. Qed.

Lemma tags_at_tagged root root' q e e' tag :
  tags_at root' q = tags_at root q ->
  node_at q root = Some e -> node_at q root' = Some e' ->
  tagged tag (e_children e') = tagged tag (e_children e).
Proof.
  unfold tags_at. intros H He He'. rewrite He, He' in H. cbn in H.
  injection H as H. by apply tagged_from_tags.
Qed.

Lemma select_child_tags root root' tag result :
  (forall q, q ∈ result -> tags_at root' q = tags_at root q) ->
  select_child root' tag result = select_child root tag result.
Proof.
  induction result as [|p result IH]; intros H; [done|].
  change (p :: result) with ([p] ++ result). rewrite !select_child_app.
  rewrite IH by (intros q Hq; apply H; by apply elem_of_cons; right).
  f_equal. unfold select_child. cbn [flat_map]. rewrite !app_nil_r.
  pose proof (H p ltac:(by apply elem_of_cons; left)) as Hp. unfold tags_at in Hp.
  destruct (node_at p root') as [e'|], (node_at p root) as [e|]; try done.
  cbn in Hp. injection Hp as Hp. unfold tagged. by rewrite (tagged_from_tags _ _ _ _ Hp).
Qed.

Lemma walk_tags root root' steps :
  (forall q, tags_at root' q = tags_at root q) ->
  forall result,
    fold_left (fun result tag => select_child root' tag result) steps result
    = fold_left (fun result tag => select_child root tag result) steps result.
Proof.
  intros H. induction steps as [|s steps IH]; intros result; [done|]. cbn [fold_left].
  rewrite IH. f_equal. apply select_child_tags. intros q _. apply H.
Qed.

Lemma update_at_tag p f t :
  (forall e, e_tag (f e) = e_tag e) -> e_tag (update_at p f t) = e_tag t.
Proof. intros H. destruct p; [apply H|done]. Qed.

Lemma map_tag_alter (g : element -> element) i cs :
  (forall c, e_tag (g c) = e_tag c) -> map e_tag (alter g i cs) = map e_tag cs.
Proof.
  intros H. revert i. induction cs as [|c cs IH]; intros [|i]; cbn; try done.
  - by rewrite H.
  - by rewrite IH.
Qed.

Lemma map_tag_alter_at (g : element -> element) i cs :
  (forall c, cs !! i = Some c -> e_tag (g c) = e_tag c) ->
  map e_tag (alter g i cs) = map e_tag cs.
Proof.
  revert i. induction cs as [|c cs IH]; intros [|i] H; cbn; try done.
  - by rewrite H.
  - by rewrite IH.
Qed.

(** Setting a text changes no tag and no list of children. *)
Lemma tags_at_with_text v n :
  forall t q, tags_at (update_at n (with_text v) t) q = tags_at t q.
Proof.
  induction n as [|i n IH]; intros t q.
  - by destruct q.
  - cbn [update_at]. destruct q as [|j q]; unfold tags_at; cbn [node_at fmap option_fmap
      option_map e_children with_children].
    + f_equal. apply map_tag_alter. intros c. by apply update_at_tag.
    + destruct (decide (i = j)) as [->|Hne].
      * rewrite list_lookup_alter_eq.
        destruct (e_children t !! j) as [c|]; cbn; [apply IH|done].
      * by rewrite list_lookup_alter_ne.
Qed.

Lemma iterfind_with_text root n v start steps :
  iterfind (update_at n (with_text v) root) start steps = iterfind root start steps.
Proof. unfold iterfind. apply walk_tags. intros q. apply tags_at_with_text. Qed.

Lemma select_child_exists root tag result q :
  q ∈ select_child root tag result ->
  (forall p, p ∈ result -> is_Some (node_at p root)) ->
  is_Some (node_at q root).
Proof.
  unfold select_child. intros Hq Hres. apply list_elem_of_In, in_flat_map in Hq.
  destruct Hq as (p & Hp & Hq). apply list_elem_of_In in Hp.
  destruct (node_at p root) as [e|] eqn:He; [|by destruct Hq].
  apply in_map_iff in Hq as (i & <- & Hi). apply list_elem_of_In in Hi.
  destruct (tagged_from_lookup _ _ _ _ Hi) as (c & Hc & _).
  rewrite Nat.sub_0_r in Hc. rewrite node_at_app, He. cbn. by rewrite Hc.
Qed.

Lemma walk_exists root steps :
  forall result q,
    q ∈ fold_left (fun result tag => select_child root tag result) steps result ->
    (forall p, p ∈ result -> is_Some (node_at p root)) ->
    is_Some (node_at q root).
Proof.
  induction steps as [|s steps IH]; intros result q Hq Hres; [by apply Hres|].
  cbn [fold_left] in Hq. apply (IH _ _ Hq). intros p Hp.
  by apply (select_child_exists _ _ _ _ Hp).
Qed.

Lemma iterfind_exists root start steps q :
  is_Some (node_at start root) -> q ∈ iterfind root start steps ->
  is_Some (node_at q root).
Proof.
  intros Hs Hq. apply (walk_exists _ _ _ _ Hq). intros p Hp.
  apply list_elem_of_singleton in Hp as ->. done.
Qed.

Lemma head_app_some {A} (a b : list A) x : head a = Some x -> head (a ++ b) = Some x.
Proof. by destruct a. Qed.

(** The loop that creates a path changes the tree below the node it
    starts at only, and ends at the first node that the path finds in
    the tree it made. *)
Lemma create_path_spec parts :
  forall cur root e,
    node_at cur root = Some e ->
    exists e',
      (create_path parts cur root).2 = update_at cur (fun _ => e') root
      /\ e_tag e' = e_tag e
      /\ head (fold_left (fun result tag => select_child (create_path parts cur root).2 tag result)
                 parts [cur])
         = Some (create_path parts cur root).1
      /\ is_Some (node_at (create_path parts cur root).1 (create_path parts cur root).2).
Proof.
  induction parts as [|part parts IH]; intros cur root e He; cbn [create_path].
  - exists e. cbn [fst snd fold_left head]. rewrite He. repeat split; [|by eexists].
    symmetry. rewrite <- (update_at_ext cur (fun x => x)).
    + clear. revert root. induction cur as [|i cur IHc]; intros root; [done|].
      cbn [update_at]. destruct root as [t a x tl cs]. unfold with_children. cbn. f_equal.
      rewrite (list_alter_ext _ (fun x => x) cs cs i); [by rewrite list_alter_id|by intros|done].
    + intros e0 He0. congruence.
  - rewrite He. destruct (tagged part (e_children e)) as [|i others] eqn:Ht.
    + set (root1 := update_at cur (append_child (new_element part)) root).
      assert (Hnew : node_at (cur ++ [length (e_children e)]) root1
                     = Some (new_element part)).
      { rewrite node_at_app. unfold root1. rewrite (node_at_update _ _ _ _ He).
        cbn. by rewrite lookup_app_r, Nat.sub_diag by lia. }
      destruct (IH _ _ _ Hnew) as (e2 & Hr & Htag & Hhead & Hex).
      set (cr := create_path parts (cur ++ [length (e_children e)]) root1) in *.
      exists (with_children (e_children e ++ [e2]) e). split; [|split; [done|split; [|done]]].
      * rewrite Hr. unfold root1. rewrite update_at_app, update_at_update.
        apply update_at_ext. intros e0 He0. assert (e0 = e) as -> by congruence.
        cbn [update_at]. unfold append_child, with_children. cbn. f_equal.
        rewrite alter_app_r_alt by lia. by rewrite Nat.sub_diag.
      * cbn [fold_left].
        assert (Hcur : node_at cur cr.2 = Some (with_children (e_children e ++ [e2]) e)).
        { rewrite Hr. unfold root1. rewrite update_at_app, update_at_update.
          rewrite (node_at_update _ _ _ _ He). f_equal.
          cbn [update_at]. unfold append_child, with_children. cbn. f_equal.
          rewrite alter_app_r_alt by lia. by rewrite Nat.sub_diag. }
        rewrite (select_child_one _ _ _ _ Hcur). cbn [e_children with_children].
        unfold tagged in *. rewrite tagged_from_app, Ht. cbn [app tagged_from].
        rewrite Htag. cbn [e_tag new_element]. rewrite String.eqb_refl. cbn [map].
        exact Hhead.
    + assert (Hi : exists c, e_children e !! i = Some c /\ e_tag c = part).
      { destruct (tagged_from_lookup 0 part (e_children e) i) as (c & Hc & Hp).
        - unfold tagged in Ht. rewrite Ht. by apply elem_of_cons; left.
        - rewrite Nat.sub_0_r in Hc. by exists c. }
      destruct Hi as (c & Hc & Hp).
      assert (Hchild : node_at (cur ++ [i]) root = Some c).
      { rewrite node_at_app, He. cbn. by rewrite Hc. }
      destruct (IH _ _ _ Hchild) as (e2 & Hr & Htag & Hhead & Hex).
      set (cr := create_path parts (cur ++ [i]) root) in *.
      exists (with_children (alter (fun _ => e2) i (e_children e)) e).
      split; [|split; [done|split; [|done]]].
      * rewrite Hr, update_at_app. apply update_at_ext. intros e0 He0.
        by assert (e0 = e) as -> by congruence.
      * cbn [fold_left].
        assert (Hcur : node_at cur cr.2
                       = Some (with_children (alter (fun _ => e2) i (e_children e)) e)).
        { rewrite Hr, update_at_app. by rewrite (node_at_update _ _ _ _ He). }
        rewrite (select_child_one _ _ _ _ Hcur). cbn [e_children with_children].
        unfold tagged in *.
        rewrite (tagged_from_tags 0 part _ (e_children e)), Ht.
        2:{ apply map_tag_alter_at. intros c0 Hc0. congruence. }
        cbn [map]. change ((cur ++ [i]) :: map (fun i0 => cur ++ [i0]) others)
          with ([cur ++ [i]] ++ map (fun i0 => cur ++ [i0]) others).
        rewrite walk_app. by apply head_app_some.
Qed.

Lemma child_index_spec p n i : child_index p n = Some i -> n = p ++ [i].
Proof.
  revert n. induction p as [|a p IH]; intros [|m n] H; cbn [child_index] in H; try done.
  - destruct n; [|done]. by injection H as ->.
  - destruct (Nat.eqb_spec a m) as [->|]; [|done]. cbn [app]. f_equal. by apply IH.
Qed.

Lemma child_index_app p i : child_index p (p ++ [i]) = Some i.
Proof. induction p as [|a p IH]; [done|]. cbn [app child_index]. by rewrite Nat.eqb_refl. Qed.

Lemma parent_of_app p i : parent_of (p ++ [i]) = p.
Proof.
  unfold parent_of. rewrite length_app. cbn [length].
  replace (length p + 1 - 1) with (length p) by lia. by rewrite take_app_length.
Qed.

Lemma remove_nodes_not_child p nodes :
  forall removed root,
    Exists (fun n => child_index p n = None) nodes ->
    remove_nodes p removed nodes root = Raised ValueError.
Proof.
  induction nodes as [|n nodes IH]; intros removed root H; [by apply Exists_nil in H|].
  cbn [remove_nodes]. destruct (child_index p n) as [i|] eqn:Hn; [|done].
  apply IH. apply Exists_cons in H as [H|H]; [congruence|done].
Qed.

Lemma select_parent_head n0 ns : head (select_parent (n0 :: ns)) = Some (parent_of n0).
Proof.
  unfold select_parent. cbn [map first_seen].
  destruct (decide (parent_of n0 ∈ [])) as [H|_]; [by apply elem_of_nil in H|done].
Qed.

Section EditingResults.
Context {D : Documents} {X : XmlCodec}.

Lemma process_metadata_content_eq content root to_set to_clear to_show :
  fromstring content = Some root ->
  process_metadata_content content to_set to_clear to_show
  = let desc := (fun i => [i]) <$> head (tagged "desc" (e_children root)) in
    match (show_loop root desc (default [] to_show)).2 with
    | Done _ =>
        match clear_loop desc (default [] to_clear) root with
        | Done root1 =>
            match set_loop desc (default [] to_set) root1 with
            | Done root2 => ((show_loop root desc (default [] to_show)).1, Done (tostring root2))
            | Raised e => ((show_loop root desc (default [] to_show)).1, Raised e)
            | Unmodelled => ((show_loop root desc (default [] to_show)).1, Unmodelled)
            end
        | Raised e => ((show_loop root desc (default [] to_show)).1, Raised e)
        | Unmodelled => ((show_loop root desc (default [] to_show)).1, Unmodelled)
        end
    | Raised e => ((show_loop root desc (default [] to_show)).1, Raised e)
    | Unmodelled => ((show_loop root desc (default [] to_show)).1, Unmodelled)
    end.
Proof.
  intros H. unfold process_metadata_content. rewrite H. cbv zeta.
  by destruct (show_loop _ _ _) as [lines [| |]].
Qed.

(** X26.  An assignment that does not have exactly one ['='] raises
    [ValueError], whatever the document is. *)
Theorem assignment_needs_one_equals_sign content root assignment rest :
  fromstring content = Some root ->
  length (split_on "=" assignment) <> 2 ->
  process_metadata_content content (Some (assignment :: rest)) None None
  = ([], Raised ValueError).
Proof.
  intros Hroot Hlen. rewrite (process_metadata_content_eq _ _ _ _ _ Hroot).
  cbn [default from_option id show_loop clear_loop set_loop fst snd].
  by destruct (split_on "=" assignment) as [|x [|y [|z l]]].
Qed.

(** X27.  Clearing a name whose matches do not all have the same
    parent raises [ValueError]: the parent that is looked up is that
    of the first match, and [remove] does not find the others in
    it. *)
Theorem clear_across_parents_raises content root d name steps n0 ns n to_set rest :
  fromstring content = Some root ->
  head (tagged "desc" (e_children root)) = Some d ->
  path_steps (str_replace "." "/" name) = Some steps ->
  iterfind root [d] steps = n0 :: ns ->
  n ∈ ns ->
  parent_of n <> parent_of n0 ->
  process_metadata_content content to_set (Some (name :: rest)) None
  = ([], Raised ValueError).
Proof.
  intros Hroot Hd Hsteps Hnodes Hn Hp. rewrite (process_metadata_content_eq _ _ _ _ _ Hroot).
  rewrite Hd.
  cbn [default from_option id show_loop clear_loop fst snd fmap option_fmap option_map].
  rewrite Hsteps, Hnodes, select_parent_head, remove_nodes_not_child; [done|].
  apply Exists_cons. right. apply Exists_exists. exists n. split; [done|].
  destruct (child_index (parent_of n0) n) as [i|] eqn:Hi; [|done].
  apply child_index_spec in Hi. rewrite Hi, parent_of_app in Hp. done.
Qed.
End EditingResults.

Lemma update_at_id p t : update_at p (fun x => x) t = t.
Proof.
  revert t. induction p as [|i p IH]; intros t; [done|]. cbn [update_at].
  destruct t as [tg a x tl cs]. unfold with_children. cbn. f_equal.
  by apply list_alter_id.
Qed.

Lemma update_at_same p t e : node_at p t = Some e -> update_at p (fun _ => e) t = t.
Proof.
  intros H. rewrite <- (update_at_id p t) at 2. apply update_at_ext. congruence.
Qed.

Lemma select_child_prefix root tag result q :
  q ∈ select_child root tag result -> exists p i, p ∈ result /\ q = p ++ [i].
Proof.
  unfold select_child. intros Hq. apply list_elem_of_In, in_flat_map in Hq.
  destruct Hq as (p & Hp & Hq). apply list_elem_of_In in Hp.
  destruct (node_at p root) as [e|]; [|by destruct Hq].
  apply in_map_iff in Hq as (i & <- & _). by exists p, i.
Qed.

Lemma walk_prefix root steps :
  forall result q,
    q ∈ fold_left (fun result tag => select_child root tag result) steps result ->
    exists p s, p ∈ result /\ q = p ++ s /\ length s = length steps.
Proof.
  induction steps as [|t steps IH]; intros result q Hq.
  - exists q, []. by rewrite app_nil_r.
  - cbn [fold_left] in Hq. destruct (IH _ _ Hq) as (p' & s & Hp' & -> & Hlen).
    destruct (select_child_prefix _ _ _ _ Hp') as (p & i & Hp & ->).
    exists p, (i :: s). rewrite <- app_assoc. cbn [app length]. by rewrite Hlen.
Qed.

Lemma iterfind_prefix root start steps q :
  q ∈ iterfind root start steps -> exists s, q = start ++ s /\ length s = length steps.
Proof.
  intros Hq. destruct (walk_prefix _ _ _ _ Hq) as (p & s & Hp & -> & Hlen).
  apply list_elem_of_singleton in Hp as ->. by exists s.
Qed.

Lemma split_on_nonempty sep s : split_on sep s <> [].
Proof.
  destruct s as [|c s]; [done|]. cbn [split_on].
  destruct (Ascii.eqb c sep); [done|]. by destruct (split_on sep s).
Qed.

Lemma path_steps_nonempty path steps : path_steps path = Some steps -> steps <> [].
Proof.
  unfold path_steps. destruct (forallb _ _); [|done]. intros [= <-].
  apply split_on_nonempty.
Qed.

(** An edit below the child [d] of the root that keeps the tags gives
    the root with another child [d] of the same tag. *)
Lemma edit_below d s f root r1 e e1 :
  node_at [d] root = Some e ->
  r1 = update_at [d] (fun _ => e1) root ->
  e_tag e1 = e_tag e ->
  (forall x, e_tag (f x) = e_tag x) ->
  exists e2,
    update_at ([d] ++ s) f r1 = update_at [d] (fun _ => e2) root
    /\ e_tag e2 = e_tag e.
Proof.
  intros He -> Htag Hf. exists (update_at s f e1). split.
  - by rewrite update_at_app, update_at_update.
  - by rewrite update_at_tag.
Qed.

Lemma desc_stays d root e e' :
  node_at [d] root = Some e -> e_tag e' = e_tag e ->
  tagged "desc" (e_children (update_at [d] (fun _ => e') root))
  = tagged "desc" (e_children root).
Proof.
  intros He Htag. cbn [update_at e_children with_children]. apply tagged_from_tags.
  apply map_tag_alter_at. intros c Hc. cbn in He. rewrite Hc in He. cbn in He. congruence.
Qed.

Lemma desc_node d root :
  head (tagged "desc" (e_children root)) = Some d ->
  exists e, node_at [d] root = Some e /\ e_tag e = "desc"%string.
Proof.
  intros H. apply head_Some_elem_of in H.
  destruct (tagged_from_lookup _ _ _ _ H) as (c & Hc & Ht). rewrite Nat.sub_0_r in Hc.
  exists c. cbn. by rewrite Hc.
Qed.

Lemma with_text_tag v x : e_tag (with_text v x) = e_tag x.
Proof. done. Qed.

Lemma set_loop_frame d assignments :
  forall root r1 e e1 root',
    node_at [d] root = Some e ->
    r1 = update_at [d] (fun _ => e1) root ->
    e_tag e1 = e_tag e ->
    set_loop (Some [d]) assignments r1 = Done root' ->
    exists e', root' = update_at [d] (fun _ => e') root /\ e_tag e' = e_tag e.
Proof.
  induction assignments as [|a rest IH]; intros root r1 e e1 root' He Hr1 Htag H;
    cbn [set_loop] in H.
  - injection H as <-. by exists e1.
  - destruct (split_on "=" a) as [|name [|value [|]]]; try done.
    destruct (path_steps _) as [steps|]; [|done].
    assert (Hd1 : node_at [d] r1 = Some e1) by (by rewrite Hr1, (node_at_update _ _ _ _ He)).
    destruct (iterfind r1 [d] steps) as [|node others] eqn:Hfind.
    + destruct (create_path_spec steps [d] r1 e1 Hd1) as (e2 & Hr2 & Htag2 & Hhead & _).
      destruct (create_path steps [d] r1) as [c r2]. cbn [fst snd] in *.
      apply head_Some_elem_of, walk_prefix in Hhead as (p & s & Hp & -> & _).
      apply list_elem_of_singleton in Hp as ->.
      assert (Hr2' : r2 = update_at [d] (fun _ => e2) root)
        by (by rewrite Hr2, Hr1, update_at_update).
      destruct (edit_below d s (with_text value) root r2 e e2 He Hr2' ltac:(congruence)
                  (with_text_tag value)) as (e3 & Hr3 & Htag3).
      by apply (IH root _ e e3 root' He Hr3 Htag3).
    + assert (Hnode : node ∈ iterfind r1 [d] steps) by (rewrite Hfind; by apply elem_of_cons; left).
      apply iterfind_prefix in Hnode as (s & -> & _).
      destruct (edit_below d s (with_text value) root r1 e e1 He Hr1 Htag
                  (with_text_tag value)) as (e3 & Hr3 & Htag3).
      by apply (IH root _ e e3 root' He Hr3 Htag3).
Qed.

Lemma remove_nodes_frame d s nodes :
  forall removed root r1 e e1 root',
    node_at [d] root = Some e ->
    r1 = update_at [d] (fun _ => e1) root ->
    e_tag e1 = e_tag e ->
    remove_nodes ([d] ++ s) removed nodes r1 = Done root' ->
    exists e', root' = update_at [d] (fun _ => e') root /\ e_tag e' = e_tag e.
Proof.
  induction nodes as [|n nodes IH]; intros removed root r1 e e1 root' He Hr1 Htag H;
    cbn [remove_nodes] in H.
  - injection H as <-. by exists e1.
  - destruct (child_index _ n) as [i|]; [|done].
    destruct (edit_below d s
                (fun x => with_children (delete (i - removed) (e_children x)) x)
                root r1 e e1 He Hr1 Htag ltac:(done)) as (e3 & Hr3 & Htag3).
    by apply (IH (S removed) root _ e e3 root' He Hr3 Htag3).
Qed.

Lemma clear_loop_frame d names :
  forall root r1 e e1 root',
    node_at [d] root = Some e ->
    r1 = update_at [d] (fun _ => e1) root ->
    e_tag e1 = e_tag e ->
    clear_loop (Some [d]) names r1 = Done root' ->
    exists e', root' = update_at [d] (fun _ => e') root /\ e_tag e' = e_tag e.
Proof.
  induction names as [|name rest IH]; intros root r1 e e1 root' He Hr1 Htag H;
    cbn [clear_loop] in H.
  - injection H as <-. by exists e1.
  - destruct (path_steps _) as [steps|] eqn:Hsteps; [|done].
    destruct (iterfind r1 [d] steps) as [|n0 ns] eqn:Hfind.
    + by apply (IH root r1 e e1 root' He Hr1 Htag).
    + rewrite select_parent_head in H.
      assert (Hn0 : n0 ∈ iterfind r1 [d] steps) by (rewrite Hfind; by apply elem_of_cons; left).
      apply iterfind_prefix in Hn0 as (s & -> & Hlen).
      destruct (remove_nodes _ 0 _ r1) as [r2| |] eqn:Hrm; try done.
      assert (Hs : exists s' i, s = s' ++ [i]).
      { destruct s as [|x s] using rev_ind.
        - apply path_steps_nonempty in Hsteps. by destruct steps.
        - by exists s, x. }
      destruct Hs as (s' & i & ->). rewrite app_assoc, parent_of_app in Hrm.
      destruct (remove_nodes_frame d s' _ 0 root r1 e e1 r2 He Hr1 Htag Hrm)
        as (e2 & Hr2 & Htag2).
      by apply (IH root r2 e e2 root' He Hr2 Htag2).
Qed.

Section EditingFrame.
Context {D : Documents} {X : XmlCodec}.

(** X28.  Whatever is set and cleared, the new content is the
    document with another [desc] element in the place of the first
    one: the other children of the root, its tag, attributes and
    text are kept. *)
Theorem editing_changes_desc_only content root d to_set to_clear to_show lines new_content :
  fromstring content = Some root ->
  head (tagged "desc" (e_children root)) = Some d ->
  process_metadata_content content to_set to_clear to_show = (lines, Done new_content) ->
  exists desc',
    e_tag desc' = "desc"%string
    /\ new_content = tostring (with_children (<[d := desc']> (e_children root)) root).
Proof.
  intros Hroot Hd H. rewrite (process_metadata_content_eq _ _ _ _ _ Hroot) in H.
  rewrite Hd in H. cbn [fmap option_fmap option_map] in H. cbv zeta in H.
  destruct (desc_node _ _ Hd) as (e & He & Hdesc).
  destruct (show_loop _ _ _).2; try done.
  destruct (clear_loop _ _ root) as [r1| |] eqn:Hclear; try done.
  destruct (set_loop _ _ r1) as [r2| |] eqn:Hset; try done.
  injection H as _ <-.
  destruct (clear_loop_frame d _ root root e e r1 He
              (eq_sym (update_at_same _ _ _ He)) eq_refl Hclear) as (e1 & Hr1 & Htag1).
  destruct (set_loop_frame d _ root r1 e e1 r2 He Hr1 Htag1 Hset) as (e2 & -> & Htag2).
  exists e2. split; [congruence|]. cbn [update_at]. by rewrite list_insert_alter.
Qed.
End EditingFrame.

(** One assignment: the node that the path finds first afterwards has
    the value as its text. *)
Lemma set_loop_one d root e assignment name value steps :
  node_at [d] root = Some e ->
  split_on "=" assignment = [name; value] ->
  path_steps (str_replace "." "/" name) = Some steps ->
  exists root' n more,
    set_loop (Some [d]) [assignment] root = Done root'
    /\ iterfind root' [d] steps = n :: more
    /\ node_at n root' ≫= e_text = Some value.
Proof.
  intros He Hsplit Hsteps. cbn [set_loop]. rewrite Hsplit, Hsteps.
  destruct (iterfind root [d] steps) as [|node others] eqn:Hfind.
  - destruct (create_path_spec steps [d] root e He) as (e2 & _ & _ & Hhead & [x Hx]).
    destruct (create_path steps [d] root) as [c r2]. cbn [fst snd] in *.
    apply head_Some in Hhead as [more Hmore].
    exists (update_at c (with_text value) r2), c, more. split; [done|].
    split; [by rewrite iterfind_with_text|].
    by rewrite (node_at_update _ _ _ _ Hx).
  - assert (Hnode : is_Some (node_at node root)).
    { apply (iterfind_exists root [d] steps); [by rewrite He|].
      rewrite Hfind. by apply elem_of_cons; left. }
    destruct Hnode as [x Hx].
    exists (update_at node (with_text value) root), node, others. split; [done|].
    split; [by rewrite iterfind_with_text|].
    by rewrite (node_at_update _ _ _ _ Hx).
Qed.

Section SetThenShow.
Context {D : Documents} {X : XmlCodec}.

(** X29.  A value that was set is the first one that is shown for
    its name in the new document: setting [name=value] in a document
    with a [desc] element returns a content, and showing [name] in
    a content that is parsed to the same tree prints [name: value]
    first. *)
Theorem value_set_is_shown_first content root d assignment name value steps :
  fromstring content = Some root ->
  head (tagged "desc" (e_children root)) = Some d ->
  split_on "=" assignment = [name; value] ->
  path_steps (str_replace "." "/" name) = Some steps ->
  exists root',
    process_metadata_content content (Some [assignment]) None None
    = ([], Done (tostring root'))
    /\ forall content',
         fromstring content' = Some root' ->
         exists more,
           process_metadata_content content' None None (Some [name])
           = ((name +:+ ": " +:+ value) :: more, Done (tostring root')).
Proof.
  intros Hroot Hd Hsplit Hsteps. destruct (desc_node _ _ Hd) as (e & He & Hdesc).
  destruct (set_loop_one d root e assignment name value steps He Hsplit Hsteps)
    as (root' & n & more & Hset & Hfind & Htext).
  exists root'. split.
  - rewrite (process_metadata_content_eq _ _ _ _ _ Hroot), Hd.
    cbn [default from_option id show_loop clear_loop fst snd fmap option_fmap option_map].
    by rewrite Hset.
  - intros content' Hroot'.
    destruct (set_loop_frame d _ root root e e root' He
                (eq_sym (update_at_same _ _ _ He)) eq_refl Hset) as (e' & Hr' & Htag').
    assert (Hd' : head (tagged "desc" (e_children root')) = Some d)
      by (by rewrite Hr', (desc_stays d root e e' He Htag')).
    rewrite (process_metadata_content_eq _ _ _ _ _ Hroot'), Hd'.
    cbn [default from_option id show_loop clear_loop set_loop fst snd fmap option_fmap
         option_map].
    rewrite Hsteps, Hfind. cbn [map app fst snd]. rewrite Htext. cbn [format_text default
      from_option id]. by eexists.
Qed.
End SetThenShow.

Lemma tagged_from_NoDup i tag cs : NoDup (tagged_from i tag cs).
Proof.
  revert i. induction cs as [|c cs IH]; intros i; cbn [tagged_from]; [constructor|].
  destruct (String.eqb (e_tag c) tag); [|apply IH].
  constructor; [|apply IH]. intros H. apply tagged_from_bounds in H. lia.
Qed.

Lemma select_child_NoDup root tag result :
  NoDup result -> NoDup (select_child root tag result).
Proof.
  induction result as [|p result IH]; intros H; [constructor|].
  apply NoDup_cons in H as [Hp H].
  change (p :: result) with ([p] ++ result). rewrite select_child_app.
  apply NoDup_app. split; [|split; [|by apply IH]].
  - unfold select_child. cbn [flat_map]. rewrite app_nil_r.
    destruct (node_at p root); [|constructor].
    apply (NoDup_fmap_2 (fun i => p ++ [i]));
      first [apply tagged_from_NoDup
            |intros i j Hij; apply app_inv_head in Hij; by injection Hij].
  - intros q Hq Hq'.
    apply select_child_prefix in Hq as (p1 & i & Hp1 & ->).
    apply list_elem_of_singleton in Hp1 as ->.
    apply select_child_prefix in Hq' as (p2 & j & Hp2 & Heq).
    apply app_inj_tail in Heq as [-> _]. done.
Qed.

Lemma walk_NoDup root steps :
  forall result,
    NoDup result ->
    NoDup (fold_left (fun result tag => select_child root tag result) steps result).
Proof.
  induction steps as [|t steps IH]; intros result H; [done|]. cbn [fold_left].
  by apply IH, select_child_NoDup.
Qed.

Lemma flat_map_nil {A B} (f : A -> list B) l :
  (forall x, x ∈ l -> f x = []) -> flat_map f l = [].
Proof.
  induction l as [|x l IH]; intros H; [done|]. cbn [flat_map].
  rewrite (H x) by (by apply elem_of_cons; left). apply IH. intros y Hy. apply H.
  by apply elem_of_cons; right.
Qed.

Lemma flat_map_one {A B} (f : A -> list B) l p :
  NoDup l -> p ∈ l -> (forall x, x ∈ l -> x <> p -> f x = []) -> flat_map f l = f p.
Proof.
  induction l as [|x l IH]; intros Hnd Hp H; [by apply elem_of_nil in Hp|].
  apply NoDup_cons in Hnd as [Hx Hnd]. cbn [flat_map].
  apply elem_of_cons in Hp as [->|Hp].
  - rewrite flat_map_nil; [by rewrite app_nil_r|]. intros y Hy. apply H.
    + by apply elem_of_cons; right.
    + intros ->. done.
  - rewrite (H x); [|by apply elem_of_cons; left|by intros ->].
    cbn [app]. apply IH; [done..|]. intros y Hy. apply H. by apply elem_of_cons; right.
Qed.

Lemma with_children_same e : with_children (e_children e) e = e.
Proof. by destruct e. Qed.

(** Removing the children with a tag one after the other, each at the
    index it has moved to, leaves the other children in their order. *)
Lemma remove_nodes_tagged p tag cs :
  forall kept i removed root e,
    node_at p root = Some e ->
    e_children e = kept ++ cs ->
    i = length kept + removed ->
    remove_nodes p removed (map (fun j => p ++ [j]) (tagged_from i tag cs)) root
    = Done (update_at p
              (fun _ => with_children (kept ++ filter (fun c => e_tag c <> tag) cs) e) root).
Proof.
  induction cs as [|c cs IH]; intros kept i removed root e He Hcs Hi.
  - cbn [tagged_from map remove_nodes]. rewrite filter_nil, <- Hcs, with_children_same.
    by rewrite (update_at_same _ _ _ He).
  - cbn [tagged_from]. destruct (String.eqb_spec (e_tag c) tag) as [Hc|Hc].
    + cbn [map remove_nodes]. rewrite child_index_app.
      replace (i - removed) with (length kept) by lia.
      set (g := fun x => with_children (delete (length kept) (e_children x)) x).
      rewrite (IH kept (S i) (S removed) (update_at p g root) (g e)).
      * rewrite update_at_update. rewrite filter_cons_False by (intros H; by apply H).
        done.
      * by apply node_at_update.
      * unfold g. cbn [e_children with_children]. rewrite Hcs.
        rewrite delete_middle. done.
      * lia.
    + rewrite (IH (kept ++ [c]) (S i) removed root e He).
      * rewrite filter_cons_True by done. by rewrite <- app_assoc.
      * by rewrite <- app_assoc.
      * rewrite length_app. cbn [length]. lia.
Qed.

Lemma tagged_from_filter i tag cs :
  tagged_from i tag (filter (fun c => e_tag c <> tag) cs) = [].
Proof.
  revert i. induction cs as [|c cs IH]; intros i; [done|].
  destruct (decide (e_tag c = tag)) as [Hc|Hc].
  - rewrite filter_cons_False by (intros H; by apply H). apply IH.
  - rewrite filter_cons_True by done. cbn [tagged_from].
    destruct (String.eqb_spec (e_tag c) tag); [done|apply IH].
Qed.

Lemma tags_at_update_shallow p f :
  (forall x, e_tag (f x) = e_tag x) ->
  forall root q, length q < length p -> tags_at (update_at p f root) q = tags_at root q.
Proof.
  intros Hf. induction p as [|i p IH]; intros root q Hlen; [cbn in Hlen; lia|].
  cbn [update_at]. destruct q as [|j q]; unfold tags_at;
    cbn [node_at fmap option_fmap option_map e_children with_children].
  - f_equal. apply map_tag_alter. intros c. by apply update_at_tag.
  - cbn [length] in Hlen. destruct (decide (i = j)) as [->|Hne].
    + rewrite list_lookup_alter_eq.
      destruct (e_children root !! j) as [c|]; cbn; [apply IH; lia|done].
    + by rewrite list_lookup_alter_ne.
Qed.

Lemma node_at_update_other f p :
  forall q root, length q = length p -> q <> p ->
                 node_at q (update_at p f root) = node_at q root.
Proof.
  induction p as [|i p IH]; intros [|j q] root Hlen Hne; try done.
  cbn [update_at node_at e_children with_children]. destruct (decide (i = j)) as [->|Hij].
  - rewrite list_lookup_alter_eq.
    destruct (e_children root !! j) as [c|]; cbn; [|done].
    apply IH; [by injection Hlen|congruence].
  - by rewrite list_lookup_alter_ne.
Qed.

Lemma walk_tags_shallow root root' L steps :
  (forall q, length q < L -> tags_at root' q = tags_at root q) ->
  forall result,
    (forall q, q ∈ result -> length q + length steps <= L) ->
    fold_left (fun result tag => select_child root' tag result) steps result
    = fold_left (fun result tag => select_child root tag result) steps result.
Proof.
  intros H. induction steps as [|t steps IH]; intros result Hres; [done|].
  cbn [fold_left].
  rewrite (select_child_tags root root' t result).
  - apply IH. intros q Hq. apply select_child_prefix in Hq as (p & i & Hp & ->).
    apply Hres in Hp. rewrite length_app. cbn [length] in *. lia.
  - intros q Hq. apply H. apply Hres in Hq. cbn [length] in Hq. lia.
Qed.

(** One name to clear whose matches are children of one node: the
    path finds nothing afterwards. *)
Lemma clear_loop_one d root e name steps p :
  node_at [d] root = Some e ->
  path_steps (str_replace "." "/" name) = Some steps ->
  Forall (fun n => parent_of n = p) (iterfind root [d] steps) ->
  exists root',
    clear_loop (Some [d]) [name] root = Done root'
    /\ iterfind root' [d] steps = [].
Proof.
  intros He Hsteps Hall. cbn [clear_loop]. rewrite Hsteps.
  destruct (iterfind root [d] steps) as [|n0 ns] eqn:Hfind; [by exists root|].
  rewrite select_parent_head.
  assert (Hsplit : exists init tag, steps = init ++ [tag]).
  { destruct steps as [|x s] using rev_ind.
    - by apply path_steps_nonempty in Hsteps.
    - by exists s, x. }
  destruct Hsplit as (init & tag & ->).
  unfold iterfind in Hfind. rewrite fold_left_app in Hfind. cbn [fold_left] in Hfind.
  match type of Hfind with
  | context [fold_left ?f init ?s] => set (P := fold_left f init s) in *
  end.
  assert (HP : NoDup P) by (apply walk_NoDup, NoDup_singleton).
  assert (Hlen : forall q, q ∈ P -> length q = S (length init)).
  { intros q Hq. apply walk_prefix in Hq as (p0 & s & Hp0 & -> & Hs).
    apply list_elem_of_singleton in Hp0 as ->. cbn [app length]. by rewrite Hs. }
  assert (Hparent : forall n, n ∈ select_child root tag P -> parent_of n = p).
  { intros n Hn. rewrite Hfind in Hn. by apply (proj1 (Forall_forall _ _) Hall). }
  assert (Hn0 : n0 ∈ select_child root tag P) by (rewrite Hfind; by apply elem_of_cons; left).
  pose proof (Hparent _ Hn0) as Hp0. rewrite Hp0.
  assert (Hp : p ∈ P).
  { apply select_child_prefix in Hn0 as (q & i & Hq & ->).
    by rewrite parent_of_app in Hp0; subst q. }
  assert (Hothers : forall q, q ∈ P -> q <> p -> select_child root tag [q] = []).
  { intros q Hq Hne. destruct (select_child root tag [q]) as [|n l] eqn:Hsel; [done|].
    exfalso. apply Hne.
    assert (Hn : n ∈ select_child root tag [q]) by (rewrite Hsel; by apply elem_of_cons; left).
    pose proof Hn as Hn'.
    apply select_child_prefix in Hn as (q' & i & Hq' & ->).
    apply list_elem_of_singleton in Hq' as ->.
    rewrite <- (parent_of_app q i). apply Hparent.
    unfold select_child in *. apply list_elem_of_In, in_flat_map.
    exists q. split; [by apply list_elem_of_In|].
    apply list_elem_of_In in Hn'. cbn [flat_map] in Hn'. by rewrite app_nil_r in Hn'. }
  assert (Hnodes : select_child root tag P = select_child root tag [p]).
  { unfold select_child at 1.
    rewrite (flat_map_one _ P p HP Hp).
    - unfold select_child. cbn [flat_map]. by rewrite app_nil_r.
    - intros q Hq Hne. pose proof (Hothers q Hq Hne) as Hsel.
      unfold select_child in Hsel. cbn [flat_map] in Hsel. by rewrite app_nil_r in Hsel. }
  destruct (node_at p root) as [ep|] eqn:Hep.
  2:{ rewrite Hnodes in Hn0. unfold select_child in Hn0. cbn [flat_map] in Hn0.
      rewrite Hep in Hn0. by apply elem_of_nil in Hn0. }
  rewrite <- Hfind, Hnodes, (select_child_one _ _ _ _ Hep). unfold tagged.
  rewrite (remove_nodes_tagged p tag (e_children ep) [] 0 0 root ep Hep eq_refl eq_refl).
  cbn [app].
  set (g := fun x => with_children (filter (fun c => e_tag c <> tag) (e_children x)) x).
  rewrite (update_at_ext p _ g root) by (intros x Hx; by assert (x = ep) as -> by congruence).
  eexists. split; [done|].
  unfold iterfind. rewrite fold_left_app. cbn [fold_left].
  rewrite (walk_tags_shallow root (update_at p g root) (length p) init).
  - fold P. unfold select_child. apply flat_map_nil. intros q Hq.
    destruct (decide (q = p)) as [->|Hne].
    + rewrite (node_at_update _ _ _ _ Hep). unfold g, tagged.
      cbn [e_children with_children]. by rewrite tagged_from_filter.
    + rewrite node_at_update_other; [|by rewrite (Hlen q Hq), (Hlen p Hp)|done].
      pose proof (Hothers q Hq Hne) as Hsel.
      unfold select_child in Hsel. cbn [flat_map] in Hsel. by rewrite app_nil_r in Hsel.
  - intros q Hq. by apply tags_at_update_shallow.
  - intros q Hq. apply list_elem_of_singleton in Hq as ->. rewrite (Hlen p Hp).
    cbn [length]. lia.
Qed.

Section ClearThenShow.
Context {D : Documents} {X : XmlCodec}.

(** X30.  A name that was cleared is not shown in the new document,
    when all its matches were children of one node: clearing [name]
    returns a content, and showing [name] in a content that is parsed
    to the same tree prints nothing. *)
Theorem cleared_name_is_not_shown content root d name steps p :
  fromstring content = Some root ->
  head (tagged "desc" (e_children root)) = Some d ->
  path_steps (str_replace "." "/" name) = Some steps ->
  Forall (fun n => parent_of n = p) (iterfind root [d] steps) ->
  exists root',
    process_metadata_content content None (Some [name]) None
    = ([], Done (tostring root'))
    /\ forall content',
         fromstring content' = Some root' ->
         process_metadata_content content' None None (Some [name])
         = ([], Done (tostring root')).
Proof.
  intros Hroot Hd Hsteps Hall. destruct (desc_node _ _ Hd) as (e & He & Hdesc).
  destruct (clear_loop_one d root e name steps p He Hsteps Hall) as (root' & Hclear & Hfind).
  exists root'. split.
  - rewrite (process_metadata_content_eq _ _ _ _ _ Hroot), Hd.
    cbn [default from_option id show_loop set_loop fst snd fmap option_fmap option_map].
    by rewrite Hclear.
  - intros content' Hroot'.
    destruct (clear_loop_frame d _ root root e e root' He
                (eq_sym (update_at_same _ _ _ He)) eq_refl Hclear) as (e' & Hr' & Htag').
    assert (Hd' : head (tagged "desc" (e_children root')) = Some d)
      by (by rewrite Hr', (desc_stays d root e e' He Htag')).
    rewrite (process_metadata_content_eq _ _ _ _ _ Hroot'), Hd'.
    cbn [default from_option id show_loop clear_loop set_loop fst snd fmap option_fmap
         option_map].
    by rewrite Hsteps, Hfind.
Qed.
End ClearThenShow.

(** *** On the sample documents *)

Lemma assignment_needs_one_equals_sign_witness :
  @process_metadata_content sample_documents sample_codec
    (list_byte_of_string subjects_doc) (Some ["note=a=b"%string]) None None
  = ([], Raised ValueError).
Proof.
  eapply (@assignment_needs_one_equals_sign sample_documents sample_codec
            (list_byte_of_string subjects_doc) _ "note=a=b" []);
    [vm_compute; reflexivity|vm_compute; lia].
Defined.

Lemma clear_across_parents_raises_witness :
  @process_metadata_content sample_documents sample_codec
    (list_byte_of_string subjects_doc) None (Some ["subject.age"%string]) None
  = ([], Raised ValueError).
Proof.
  eapply (@clear_across_parents_raises sample_documents sample_codec
            (list_byte_of_string subjects_doc) _ 1 "subject.age" ["subject"; "age"]%string
            [1; 0; 0] [[1; 2; 0]; [1; 2; 1]] [1; 2; 0] None []);
    [vm_compute; reflexivity|reflexivity|reflexivity|reflexivity
    |by apply elem_of_cons; left|vm_compute; intros H; discriminate H].
Defined.

Lemma editing_changes_desc_only_witness :
  let content := list_byte_of_string subjects_doc in
  exists root lines new_content,
    sample_fromstring content = Some root
    /\ @process_metadata_content sample_documents sample_codec content
         (Some ["subject.age=40"; "site.room=12"]%string) (Some ["note"%string])
         (Some ["subject.age"%string])
       = (lines, Done new_content)
    /\ exists desc',
         e_tag desc' = "desc"%string
         /\ new_content
            = sample_tostring (with_children (<[1 := desc']> (e_children root)) root).
Proof.
  intros content. eexists _, _, _. split; [vm_compute; reflexivity|].
  split; [vm_compute; reflexivity|].
  eapply (@editing_changes_desc_only sample_documents sample_codec content _ 1
            (Some ["subject.age=40"; "site.room=12"]%string) (Some ["note"%string])
            (Some ["subject.age"%string]));
    vm_compute; reflexivity.
Defined.

Lemma value_set_is_shown_first_witness :
  let content := list_byte_of_string subjects_doc in
  exists root',
    @process_metadata_content sample_documents sample_codec content
      (Some ["subject.age=40"%string]) None None
    = ([], Done (sample_tostring root'))
    /\ forall content',
         sample_fromstring content' = Some root' ->
         exists more,
           @process_metadata_content sample_documents sample_codec content' None None
             (Some ["subject.age"%string])
           = (("subject.age" +:+ ": " +:+ "40")%string :: more, Done (sample_tostring root')).
Proof.
  intros content.
  eapply (@value_set_is_shown_first sample_documents sample_codec content _ 1
            "subject.age=40" "subject.age" "40" ["subject"; "age"]%string);
    vm_compute; reflexivity.
Defined.

Lemma cleared_name_is_not_shown_witness :
  let content := list_byte_of_string one_subject_doc in
  exists root',
    @process_metadata_content sample_documents sample_codec content None
      (Some ["subject.age"%string]) None
    = ([], Done (sample_tostring root'))
    /\ forall content',
         sample_fromstring content' = Some root' ->
         @process_metadata_content sample_documents sample_codec content' None None
           (Some ["subject.age"%string])
         = ([], Done (sample_tostring root')).
Proof.
  intros content.
  eapply (@cleared_name_is_not_shown sample_documents sample_codec content _ 1
            "subject.age" ["subject"; "age"]%string [1; 0]);
    [vm_compute; reflexivity|reflexivity|reflexivity|].
  vm_compute. repeat constructor.
Defined.
